(** * NSocial: the keyword monitor of socials.js

    A shallow embedding of the pipeline of [socials.js]
    (fetch, dedup, match, limit, rank), of its configuration store
    (save, load, apply) and of its command interpreter, followed by the
    properties of the specification stated over that embedding.

    Conventions.
    - A JavaScript string is a list of code units.  The model covers the
      code units U+0000..U+00FF, one [ascii] each.
    - A JavaScript [Set] is a duplicate-free list in insertion order.
    - A number is an integer of [Z], which is what the program holds as
      long as the number is a safe integer (at most 2^53 in size); a [Date]
      is its time value in milliseconds.
    - A call of an [async] function that awaits the file system only is
      run to its end.  [fetchAllData] is split at its [await]: the part
      that runs at once, the answer of each request, which comes in its own
      time, and the continuation, which runs when the last request has been
      answered. *)

From Stdlib Require Import Ascii String DecimalString.
From Stdlib Require Import List ZArith NArith Lia Bool Arith.
From Stdlib Require Import Permutation Sorted.
Import ListNotations.

Set Implicit Arguments.

(** ** JavaScript primitives used by the program *)

Module Js.

Definition str := list ascii.

Definition lit (s : string) : str := list_ascii_of_string s.

Definition code (c : ascii) : N := N_of_ascii c.

Definition between (lo hi n : N) : bool := ((lo <=? n) && (n <=? hi))%N.

(** [\w] of a regular expression without the [u] flag: [A-Za-z0-9_]. *)
Definition isWordChar (c : ascii) : bool :=
  let n := code c in
  between 48 57 n || between 65 90 n || (n =? 95)%N || between 97 122 n.

(** [\s]: WhiteSpace and LineTerminator, restricted to U+0000..U+00FF. *)
Definition isWhiteSpace (c : ascii) : bool :=
  let n := code c in between 9 13 n || (n =? 32)%N || (n =? 160)%N.

(** [String.prototype.toLowerCase], one code unit. *)
Definition toLowerChar (c : ascii) : ascii :=
  let n := code c in
  if between 65 90 n || (between 192 222 n && negb (n =? 215)%N)
  then ascii_of_N (n + 32) else c.

Definition toLowerCase (s : str) : str := map toLowerChar s.

(** Canonicalize of the regular expression semantics with the [i] flag and
    without the [u] flag: the upper-case form of the code unit when that is
    one code unit, except that a non-ASCII unit never folds into ASCII.
    The result is a code point: U+00B5 folds to U+039C and U+00FF to
    U+0178, outside the range of [ascii]. *)
Definition canonicalize (c : ascii) : N :=
  let n := code c in
  if between 97 122 n then (n - 32)%N
  else if (n =? 181)%N then 924%N
  else if (n =? 255)%N then 376%N
  else if between 224 254 n && negb (n =? 247)%N then (n - 32)%N
  else n.

Definition eqc (a b : ascii) : bool := (canonicalize a =? canonicalize b)%N.

Definition str_eqb (a b : str) : bool :=
  if list_eq_dec ascii_dec a b then true else false.

(** *** [Set] of strings: insertion-ordered, no duplicates *)

Definition set_has (s : list str) (k : str) : bool := existsb (str_eqb k) s.

Definition set_add (s : list str) (k : str) : list str :=
  if set_has s k then s else s ++ [k].

Definition set_delete (s : list str) (k : str) : list str :=
  filter (fun x => negb (str_eqb k x)) s.

(** [new Set(iterable)] and the spread of several sets into a new one. *)
Definition set_from (l : list str) : list str := fold_left set_add l [].

(** *** String methods *)

Fixpoint startsWith (s p : str) {struct p} : bool :=
  match p, s with
  | [], _ => true
  | c :: p', d :: s' => if ascii_dec c d then startsWith s' p' else false
  | _ :: _, [] => false
  end.

Definition endsWith (s p : str) : bool := startsWith (rev s) (rev p).

(** [s.substring(n)] for [0 <= n]. *)
Definition substring (n : nat) (s : str) : str := skipn n s.

(** [a.slice(0, n)]: a negative [n] counts from the end. *)
Definition slice0 {A} (l : list A) (n : Z) : list A :=
  if (n <? 0)%Z then firstn (Z.to_nat (Z.max (Z.of_nat (length l) + n) 0)) l
  else firstn (Z.to_nat n) l.

End Js.

Import Js.

(** ** The keyword matcher (findAndHighlightKeywords) *)

Module Matcher.

(** The part of the regular expression syntax that
    [new RegExp(`\\b${escaped}\\b`, 'gi')] can produce. *)
Inductive atom :=
| WordBoundary
| Chr (c : ascii).

Definition pattern := list atom.

(** The characters of the class [[.*+?^${}()|[\]\\]]. *)
Definition isSyntaxChar (c : ascii) : bool :=
  existsb (fun d => if ascii_dec c d then true else false)
          (lit ".*+?^${}()|[]\").

Definition backslash : ascii := "\"%char.

(** [kw.replace(/[.*+?^${}()|[\]\\]/g, '\\$&')] *)
Definition escapeRegExp (kw : str) : str :=
  flat_map (fun c => if isSyntaxChar c then [backslash; c] else [c]) kw.

(** The pattern source handed to [new RegExp]. *)
Definition keywordSource (kw : str) : str :=
  lit "\b" ++ escapeRegExp kw ++ lit "\b".

(** Reading a pattern source: [\b] is the assertion, a backslash before a
    syntax character is that character, any other character but a syntax
    character stands for itself.  Everything else is outside the fragment. *)
Fixpoint parsePattern (fuel : nat) (src : str) : option pattern :=
  match fuel with
  | O => None
  | S fuel' =>
    match src with
    | [] => Some []
    | c :: rest =>
      if ascii_dec c backslash then
        match rest with
        | d :: rest' =>
          if ascii_dec d "b"%char then
            option_map (cons WordBoundary) (parsePattern fuel' rest')
          else if isSyntaxChar d then
            option_map (cons (Chr d)) (parsePattern fuel' rest')
          else None
        | [] => None
        end
      else if isSyntaxChar c then None
      else option_map (cons (Chr c)) (parsePattern fuel' rest)
    end
  end.

Definition compile (src : str) : option pattern :=
  parsePattern (S (length src)) src.

(** The pattern that [keywordSource kw] compiles to (see [compile_keyword]). *)
Definition keywordPattern (kw : str) : pattern :=
  WordBoundary :: map Chr kw ++ [WordBoundary].

Definition wordish (o : option ascii) : bool :=
  match o with Some c => isWordChar c | None => false end.

(** [\b] holds between [prev] and the head of [s]. *)
Definition boundary (prev : option ascii) (s : str) : bool :=
  xorb (wordish prev) (wordish (hd_error s)).

(** Match [p] at the head of [s]; [prev] is the code unit before it.
    The length of the match, when there is one. *)
Fixpoint matchHere (p : pattern) (prev : option ascii) (s : str) : option nat :=
  match p with
  | [] => Some O
  | WordBoundary :: p' =>
    if boundary prev s then matchHere p' prev s else None
  | Chr c :: p' =>
    match s with
    | d :: s' => if eqc c d then option_map S (matchHere p' (Some d) s') else None
    | [] => None
    end
  end.

(** [regex.exec] from the current position: offset and length of the
    leftmost match. *)
Fixpoint exec (p : pattern) (prev : option ascii) (s : str) : option (nat * nat) :=
  match matchHere p prev s with
  | Some n => Some (O, n)
  | None =>
    match s with
    | [] => None
    | c :: s' =>
      match exec p (Some c) s' with
      | Some (i, n) => Some (S i, n)
      | None => None
      end
    end
  end.

(** [regex.test(text)] on a fresh regular expression ([lastIndex] is 0). *)
Definition test (p : pattern) (text : str) : bool :=
  match exec p None text with Some _ => true | None => false end.

Definition boldOpen : str := lit "{bold}".
Definition boldClose : str := lit "{/bold}".

(** [s.replace(regex, '{bold}$&{/bold}')] with the [g] flag: every match,
    left to right; after an empty match the search moves on by one code
    unit. *)
Fixpoint replaceLoop (fuel : nat) (p : pattern) (prev : option ascii) (s : str) : str :=
  match fuel with
  | O => s
  | S fuel' =>
    match matchHere p prev s with
    | Some (S n) =>
      boldOpen ++ firstn (S n) s ++ boldClose
        ++ replaceLoop fuel' p (hd_error (rev (firstn (S n) s))) (skipn (S n) s)
    | Some O =>
      boldOpen ++ boldClose ++
        match s with
        | [] => []
        | c :: s' => c :: replaceLoop fuel' p (Some c) s'
        end
    | None =>
      match s with
      | [] => []
      | c :: s' => c :: replaceLoop fuel' p (Some c) s'
      end
    end
  end.

Definition replaceAll (p : pattern) (s : str) : str :=
  replaceLoop (S (length s)) p None s.

Record Highlight := {
  matchedKeywords : list str;
  highlightedText : str
}.

(** One turn of the loop over the keywords.  The pattern source of a
    keyword always compiles (see [compile_keyword]). *)
Definition highlightStep (text : str) (acc : list str * str) (kw : str)
  : list str * str :=
  match compile (keywordSource kw) with
  | Some regex =>
    if test regex text
    then (set_add (fst acc) kw, replaceAll regex (snd acc))
    else acc
  | None => acc
  end.

Definition findAndHighlightKeywords (text : str) (keywords : list str) : Highlight :=
  let r := fold_left (highlightStep text) keywords ([], text) in
  {| matchedKeywords := fst r; highlightedText := snd r |}.

End Matcher.

Import Matcher.

(** ** Application state *)

(** The keys of [state.keywords] and [state.limits]. *)
Inductive SourceKey := reddit | hn | ddg.

(** The values of [item.source]. *)
Inductive SourceName := Reddit | HackerNews | DuckDuckGo.

Definition SourceKey_eqb (a b : SourceKey) : bool :=
  match a, b with
  | reddit, reddit | hn, hn | ddg, ddg => true
  | _, _ => false
  end.

Definition SourceName_eqb (a b : SourceName) : bool :=
  match a, b with
  | Reddit, Reddit | HackerNews, HackerNews | DuckDuckGo, DuckDuckGo => true
  | _, _ => false
  end.

(** [sourceKeyMap] and its keys in insertion order. *)
Definition sourceKeyMap (n : SourceName) : SourceKey :=
  match n with Reddit => reddit | HackerNews => hn | DuckDuckGo => ddg end.

Definition sourceNames : list SourceName := [Reddit; HackerNews; DuckDuckGo].

Definition sourceLabel (n : SourceName) : str :=
  match n with
  | Reddit => lit "Reddit"
  | HackerNews => lit "Hacker News"
  | DuckDuckGo => lit "DuckDuckGo"
  end.

Definition keyName (k : SourceKey) : str :=
  match k with reddit => lit "reddit" | hn => lit "hn" | ddg => lit "ddg" end.

(** [const sources = ['reddit', 'hn', 'ddg']] *)
Definition sources : list SourceKey := [reddit; hn; ddg].

Record Keywords := {
  kw_reddit : list str;
  kw_hn : list str;
  kw_ddg : list str
}.

Definition kwGet (k : Keywords) (s : SourceKey) : list str :=
  match s with reddit => kw_reddit k | hn => kw_hn k | ddg => kw_ddg k end.

Definition kwSet (k : Keywords) (s : SourceKey) (v : list str) : Keywords :=
  match s with
  | reddit => {| kw_reddit := v; kw_hn := kw_hn k; kw_ddg := kw_ddg k |}
  | hn => {| kw_reddit := kw_reddit k; kw_hn := v; kw_ddg := kw_ddg k |}
  | ddg => {| kw_reddit := kw_reddit k; kw_hn := kw_hn k; kw_ddg := v |}
  end.

(** [state.limits]: the object's own properties among the three keys; an
    absent property reads [undefined]. *)
Record Limits := {
  lim_reddit : option Z;
  lim_hn : option Z;
  lim_ddg : option Z
}.

Definition limGet (l : Limits) (s : SourceKey) : option Z :=
  match s with reddit => lim_reddit l | hn => lim_hn l | ddg => lim_ddg l end.

Definition limSet (l : Limits) (s : SourceKey) (v : option Z) : Limits :=
  match s with
  | reddit => {| lim_reddit := v; lim_hn := lim_hn l; lim_ddg := lim_ddg l |}
  | hn => {| lim_reddit := lim_reddit l; lim_hn := v; lim_ddg := lim_ddg l |}
  | ddg => {| lim_reddit := lim_reddit l; lim_hn := lim_hn l; lim_ddg := v |}
  end.

Definition noLimits : Limits :=
  {| lim_reddit := None; lim_hn := None; lim_ddg := None |}.

(** [state]; [fetchIntervalId] is the period in milliseconds of the running
    timer, if one runs.  [commandHistory] and [historyIndex], which only
    the arrow keys of the input line read, are left out. *)
Record State := {
  keywords : Keywords;
  limits : Limits;
  globalResultLimit : Z;
  isFetching : bool;
  fetchIntervalId : option Z;
  fetchIntervalMinutes : Z
}.

Definition initialState : State :=
  {| keywords := {| kw_reddit := []; kw_hn := []; kw_ddg := [] |};
     limits := noLimits;
     globalResultLimit := 10;
     isFetching := false;
     fetchIntervalId := None;
     fetchIntervalMinutes := 5 |}.

Definition withKeywords (s : State) (k : Keywords) : State :=
  {| keywords := k; limits := limits s; globalResultLimit := globalResultLimit s;
     isFetching := isFetching s; fetchIntervalId := fetchIntervalId s;
     fetchIntervalMinutes := fetchIntervalMinutes s |}.

Definition withLimits (s : State) (l : Limits) : State :=
  {| keywords := keywords s; limits := l; globalResultLimit := globalResultLimit s;
     isFetching := isFetching s; fetchIntervalId := fetchIntervalId s;
     fetchIntervalMinutes := fetchIntervalMinutes s |}.

Definition withGlobalResultLimit (s : State) (n : Z) : State :=
  {| keywords := keywords s; limits := limits s; globalResultLimit := n;
     isFetching := isFetching s; fetchIntervalId := fetchIntervalId s;
     fetchIntervalMinutes := fetchIntervalMinutes s |}.

Definition withIsFetching (s : State) (b : bool) : State :=
  {| keywords := keywords s; limits := limits s; globalResultLimit := globalResultLimit s;
     isFetching := b; fetchIntervalId := fetchIntervalId s;
     fetchIntervalMinutes := fetchIntervalMinutes s |}.

Definition withFetchIntervalId (s : State) (t : option Z) : State :=
  {| keywords := keywords s; limits := limits s; globalResultLimit := globalResultLimit s;
     isFetching := isFetching s; fetchIntervalId := t;
     fetchIntervalMinutes := fetchIntervalMinutes s |}.

Definition withFetchIntervalMinutes (s : State) (n : Z) : State :=
  {| keywords := keywords s; limits := limits s; globalResultLimit := globalResultLimit s;
     isFetching := isFetching s; fetchIntervalId := fetchIntervalId s;
     fetchIntervalMinutes := n |}.

(** ** Files *)

(** The object that [saveState] serializes and [applyState] receives.  A
    field that is [None] is absent from the JSON text (reads [undefined]);
    a present field has the type [saveState] writes. *)
Record KeywordArrays := {
  ka_reddit : option (list str);
  ka_hn : option (list str);
  ka_ddg : option (list str)
}.

Record SavedData := {
  sd_keywords : option KeywordArrays;
  sd_limits : option Limits;
  sd_globalResultLimit : option Z;
  sd_fetchIntervalMinutes : option Z
}.

(** What a file holds: a JSON text ([JSON.stringify] and [JSON.parse] are
    inverse on it as long as its numbers are safe integers), or a text on
    which [JSON.parse] throws the message. *)
Inductive Content :=
| JsonText (d : SavedData)
| BadText (message : str).

(** The files in listing order, each under the name it is read and
    written by, and the names that [writeFile] cannot write, each with the
    message of its error.  Paths are not resolved: two names are two
    files, so the model is that of a working directory whose files are
    known under plain names. *)
Record FileSystem := {
  entries : list (str * Content);
  unwritable : list (str * str)
}.

Fixpoint assoc {B} (k : str) (l : list (str * B)) : option B :=
  match l with
  | [] => None
  | (k', v) :: l' => if str_eqb k k' then Some v else assoc k l'
  end.

Fixpoint assocSet {B} (k : str) (v : B) (l : list (str * B)) : list (str * B) :=
  match l with
  | [] => [(k, v)]
  | (k', v') :: l' =>
    if str_eqb k k' then (k, v) :: l' else (k', v') :: assocSet k v l'
  end.

(** [writeFile(name, text)]: the new file system, or the error message. *)
Definition writeFile (fs : FileSystem) (name : str) (c : Content)
  : FileSystem + str :=
  match assoc name (unwritable fs) with
  | Some message => inr message
  | None => inl {| entries := assocSet name c (entries fs);
                   unwritable := unwritable fs |}
  end.

(** [readFile(name)]: [None] is the error whose code is [ENOENT]. *)
Definition readFile (fs : FileSystem) (name : str) : option Content :=
  assoc name (entries fs).

(** ** Items *)

(** A raw item, as an adapter returns it.  A feed item has the [title],
    the [link] and the [date] that its feed gives it: each of them may be
    absent ([undefined], and [null] for the date). *)
Record Item := {
  source : SourceName;
  title : option str;
  link : option str;
  date : option Z;
  snippet : str;
  rawContent : str
}.

(** Truthiness of a string that may be absent. *)
Definition truthy (o : option str) : bool :=
  match o with Some (_ :: _) => true | _ => false end.

(** A string that may be absent, in a concatenation or a template
    literal. *)
Definition orUndefined (o : option str) : str :=
  match o with Some s => s | None => lit "undefined" end.

(** ** The screen and the world *)

Inductive Task :=
| RssTask (source : SourceName) (kw : str)
| DdgTask (kw : str).

(** The fetch cycle suspended at its [await]: its header and the requests
    it issued, in the order of [allFetchTasks]; a request that has been
    answered holds the items that its adapter call returned. *)
Record Flight := {
  fl_header : str;
  fl_requests : list (Task * option (list Item))
}.

Record World := {
  state : State;
  fs : FileSystem;
  outputLines : list str;
  statusBar : str;
  inFlight : option Flight
}.

Definition withState (w : World) (s : State) : World :=
  {| state := s; fs := fs w; outputLines := outputLines w;
     statusBar := statusBar w; inFlight := inFlight w |}.

Definition withFs (w : World) (f : FileSystem) : World :=
  {| state := state w; fs := f; outputLines := outputLines w;
     statusBar := statusBar w; inFlight := inFlight w |}.

Definition withInFlight (w : World) (p : option Flight) : World :=
  {| state := state w; fs := fs w; outputLines := outputLines w;
     statusBar := statusBar w; inFlight := p |}.

(** [output.log(text)] *)
Definition log (text : str) (w : World) : World :=
  {| state := state w; fs := fs w; outputLines := outputLines w ++ [text];
     statusBar := statusBar w; inFlight := inFlight w |}.

(** [output.setContent('')] *)
Definition clearOutput (w : World) : World :=
  {| state := state w; fs := fs w; outputLines := [];
     statusBar := statusBar w; inFlight := inFlight w |}.

Fixpoint join (sep : str) (l : list str) : str :=
  match l with
  | [] => []
  | [x] => x
  | x :: l' => x ++ sep ++ join sep l'
  end.

(** The double quote, and a string between double quotes. *)
Definition dquote : ascii := ascii_of_nat 34.

Definition quoted (s : str) : str := dquote :: s ++ [dquote].

(** A number in a template literal. *)
Definition showZ (z : Z) : str :=
  lit (NilEmpty.string_of_int (Z.to_int z)).

Definition updateStatusBar (w : World) : World :=
  let kwString :=
    join (lit " | ")
      (map (fun s => keyName s ++ lit ":[" ++ join (lit ",") (kwGet (keywords (state w)) s) ++ lit "]")
           sources) in
  let status :=
    if isFetching (state w) then lit "{yellow-fg}Fetching...{/yellow-fg}"
    else lit "{green-fg}Idle{/green-fg}" in
  {| state := state w; fs := fs w; outputLines := outputLines w;
     statusBar := lit " " ++ status ++ lit " | Keywords: " ++ kwString;
     inFlight := inFlight w |}.

(** The delay that [setInterval] takes for [ms]: a delay under 1 or above
    2^31 - 1 is replaced by 1. *)
Definition timerDelay (ms : Z) : Z :=
  if ((1 <=? ms) && (ms <=? 2147483647))%Z then ms else 1%Z.

Definition restartFetchInterval (w : World) : World :=
  let newIntervalMs := (fetchIntervalMinutes (state w) * 60 * 1000)%Z in
  withState w (withFetchIntervalId (state w) (Some (timerDelay newIntervalMs))).

(** ** File persistence *)

Definition DEFAULT_SETTINGS_FILE : str := lit "settings.json".

Definition savableState (s : State) : SavedData :=
  {| sd_keywords :=
       Some {| ka_reddit := Some (kw_reddit (keywords s));
               ka_hn := Some (kw_hn (keywords s));
               ka_ddg := Some (kw_ddg (keywords s)) |};
     sd_limits := Some (limits s);
     sd_globalResultLimit := Some (globalResultLimit s);
     sd_fetchIntervalMinutes := Some (fetchIntervalMinutes s) |}.

(** [saveState(filename)]: the world after it and the boolean it returns. *)
Definition saveState (filename : str) (w : World) : World * bool :=
  match writeFile (fs w) filename (JsonText (savableState (state w))) with
  | inl fs' => (withFs w fs', true)
  | inr message =>
    (log (lit "{red-fg}Error saving state to " ++ filename ++ lit ": "
            ++ message ++ lit "{/red-fg}") w, false)
  end.

Definition autosaveState (w : World) : World :=
  fst (saveState DEFAULT_SETTINGS_FILE w).

(** [x || []] followed by [new Set(...)]. *)
Definition orEmpty (o : option (list str)) : list str :=
  match o with Some l => l | None => [] end.

(** [x || 10] on a number: absent and zero are both falsy. *)
Definition orTen (o : option Z) : Z :=
  match o with
  | Some n => if (n =? 0)%Z then 10%Z else n
  | None => 10%Z
  end.

Definition invalidSettings : str := lit "Invalid or corrupt settings file.".

(** [applyState(loadedData)]: the world after it, or the message of the
    error it throws. *)
Definition applyState (loadedData : SavedData) (w : World) : World + str :=
  match sd_keywords loadedData, sd_limits loadedData,
        sd_fetchIntervalMinutes loadedData with
  | Some kws, Some lims, Some minutes =>
    let s := state w in
    let s := withKeywords s (kwSet (keywords s) reddit (set_from (orEmpty (ka_reddit kws)))) in
    let s := withKeywords s (kwSet (keywords s) hn (set_from (orEmpty (ka_hn kws)))) in
    let s := withKeywords s (kwSet (keywords s) ddg (set_from (orEmpty (ka_ddg kws)))) in
    let s := withLimits s lims in
    let s := withGlobalResultLimit s (orTen (sd_globalResultLimit loadedData)) in
    let s := withFetchIntervalMinutes s minutes in
    inl (updateStatusBar (restartFetchInterval (withState w s)))
  | _, _, _ => inr invalidSettings
  end.

Definition loadError (filename message : str) : str :=
  lit "{red-fg}Error loading state from " ++ filename ++ lit ": "
    ++ message ++ lit "{/red-fg}".

Definition loadState (filename : str) (w : World) : World :=
  match readFile (fs w) filename with
  | None =>
    log (lit "{yellow-fg}No default settings file found. Starting with a blank configuration.{/yellow-fg}") w
  | Some (BadText message) => log (loadError filename message) w
  | Some (JsonText loadedData) =>
    match applyState loadedData w with
    | inl w' =>
      log (lit "{green-fg}Successfully loaded settings from " ++ filename
             ++ lit "{/green-fg}") w'
    | inr message => log (loadError filename message) w
    end
  end.

(** ** Source adapters *)

(** What a request comes back with: the parsed response, or the error that
    is thrown. *)
Inductive Response (A : Type) :=
| Ok (a : A)
| Failed (message : str).

Arguments Ok {A} a.
Arguments Failed {A} message.

(** An item of a parsed feed: [fe_title] and [fe_link] are absent when the
    feed gives none, [fe_date] is the time of [isoDate] when it is present
    and a valid date, [fe_snippet] the trimmed snippet text, [fe_content]
    is [item.content || '']. *)
Record FeedEntry := {
  fe_title : option str;
  fe_link : option str;
  fe_date : option Z;
  fe_snippet : str;
  fe_content : str
}.

(** A [.result] element of the scraped page: its title and snippet trimmed,
    its link already unwrapped from the redirect. *)
Record Scraped := {
  sc_title : str;
  sc_link : option str;
  sc_snippet : str
}.

(** The outside world of a fetch cycle. *)
Record Env := {
  thirtyDaysAgo : Z;
  parseURL : SourceName -> str -> Response (list FeedEntry);
  httpGet : str -> Response (list Scraped);
  formatDistanceToNow : Z -> str
}.

(** [item.date && isAfter(item.date, thirtyDaysAgo)] *)
Definition isRecent (env : Env) (it : Item) : bool :=
  match date it with
  | Some d => (thirtyDaysAgo env <? d)%Z
  | None => false
  end.

Definition fetchRss (env : Env) (src : SourceName) (kw : str) (w : World)
  : World * list Item :=
  match parseURL env src kw with
  | Ok feed =>
    (w, filter (isRecent env)
          (map (fun e => {| source := src; title := fe_title e; link := fe_link e;
                            date := fe_date e; snippet := fe_snippet e;
                            rawContent := fe_content e |}) feed))
  | Failed message =>
    (log (lit "{red-fg}Error fetching " ++ sourceLabel src ++ lit ": "
            ++ message ++ lit "{/red-fg}") w, [])
  end.

Definition scrapeDuckDuckGo (env : Env) (keyword : str) (w : World)
  : World * list Item :=
  match httpGet env keyword with
  | Ok page =>
    (w, flat_map (fun r =>
           match sc_title r with
           | _ :: _ =>
             if truthy (sc_link r)
             then [{| source := DuckDuckGo; title := Some (sc_title r); link := sc_link r;
                      date := None; snippet := sc_snippet r; rawContent := [] |}]
             else []
           | [] => []
           end) page)
  | Failed message =>
    (log (lit "{red-fg}Error scraping DuckDuckGo for " ++ quoted keyword
            ++ lit ": " ++ message ++ lit "{/red-fg}") w, [])
  end.

(** ** The fetch cycle (fetchAllData) *)

(** A matched item, as pushed on [finalResults]. *)
Record Result := {
  res_item : Item;
  res_matchedKeywords : list str;
  res_highlightedSnippet : str
}.

(** The adapter call of a task, settled. *)
Definition runTask (env : Env) (t : Task) (w : World) : World * list Item :=
  match t with
  | RssTask src kw => fetchRss env src kw w
  | DdgTask kw => scrapeDuckDuckGo env kw w
  end.

(** How a computation that can throw ends. *)
Inductive Outcome (A : Type) :=
| Done (a : A)
| Thrown (message : str).

Arguments Done {A} a.
Arguments Thrown {A} message.

(** [uniqueResults]: a [Map] from link to item, in insertion order. *)
Definition mapHas (m : list (str * Item)) (k : str) : bool :=
  existsb (fun e => str_eqb k (fst e)) m.

Definition dedupStep (uniqueResults : list (str * Item)) (it : Item)
  : list (str * Item) :=
  match link it with
  | Some l =>
    if truthy (link it) && negb (mapHas uniqueResults l)
    then uniqueResults ++ [(l, it)]
    else uniqueResults
  | None => uniqueResults
  end.

Definition uniqueResults (allResultsRaw : list Item) : list (str * Item) :=
  fold_left dedupStep allResultsRaw [].

(** [uniqueResults.values()] *)
Definition uniqueValues (allResultsRaw : list Item) : list Item :=
  map snd (uniqueResults allResultsRaw).

(** [new Set([...reddit, ...hn, ...ddg])] *)
Definition allKeywords (s : State) : list str :=
  set_from (kw_reddit (keywords s) ++ kw_hn (keywords s) ++ kw_ddg (keywords s)).

(** The text that is scanned for an item: [item.title + ' ' + item.snippet]. *)
Definition scannedText (it : Item) : str :=
  orUndefined (title it) ++ lit " " ++ snippet it.

(** The error of [item.title.length] on an item without a title. *)
Definition noLength : str :=
  lit "Cannot read properties of undefined (reading 'length')".

(** One turn of the loop that fills [finalResults]: what it pushes.  The
    length of the title is read only when a keyword was found. *)
Definition matchItem (kws : list str) (it : Item) : Outcome (list Result) :=
  let h := findAndHighlightKeywords (scannedText it) kws in
  match matchedKeywords h with
  | [] => Done []
  | _ :: _ =>
    match title it with
    | Some t =>
      Done [{| res_item := it;
               res_matchedKeywords := matchedKeywords h;
               res_highlightedSnippet :=
                 substring (length t + 1) (highlightedText h) |}]
    | None => Thrown noLength
    end
  end.

(** The loop: it ends at the first turn that throws. *)
Fixpoint finalResults (kws : list str) (unique : list Item) : Outcome (list Result) :=
  match unique with
  | [] => Done []
  | it :: rest =>
    match matchItem kws it with
    | Done pushed =>
      match finalResults kws rest with
      | Done more => Done (pushed ++ more)
      | Thrown message => Thrown message
      end
    | Thrown message => Thrown message
    end
  end.

(** [limitedResults]: one array per source name, filled in one pass. *)
Definition pushResult (limited : SourceName -> list Result) (res : Result)
  : SourceName -> list Result :=
  fun n =>
    if SourceName_eqb n (source (res_item res)) then limited n ++ [res]
    else limited n.

Definition limitedResults (final : list Result) : SourceName -> list Result :=
  fold_left pushResult final (fun _ => []).

(** [state.limits[sourceStateKey] ?? state.globalResultLimit] *)
Definition limitFor (s : State) (sourceName : SourceName) : Z :=
  match limGet (limits s) (sourceKeyMap sourceName) with
  | Some n => n
  | None => globalResultLimit s
  end.

(** [displayResults] before it is sorted. *)
Definition gatherResults (s : State) (final : list Result) : list Result :=
  flat_map (fun sourceName => slice0 (limitedResults final sourceName) (limitFor s sourceName))
           sourceNames.

(** [x.item.date || 0] as a number. *)
Definition dateOrZero (r : Result) : Z :=
  match date (res_item r) with Some d => d | None => 0%Z end.

(** The comparator of the sort. *)
Definition byDateDesc (a b : Result) : Z := (dateOrZero b - dateOrZero a)%Z.

(** [Array.prototype.sort(compare)]: a stable sort; [a] stays before [b]
    unless [compare(a, b) > 0]. *)
Section Sort.
Variable A : Type.
Variable compare : A -> A -> Z.

Fixpoint sortInsert (x : A) (l : list A) : list A :=
  match l with
  | [] => [x]
  | y :: l' =>
    if (compare x y <=? 0)%Z then x :: y :: l' else y :: sortInsert x l'
  end.

Definition sort (l : list A) : list A := fold_right sortInsert [] l.
End Sort.

Definition displayResults (s : State) (final : list Result) : list Result :=
  sort byDateDesc (gatherResults s final).

(** The whole computation between the [await] and the rendering. *)
Definition cycleResults (s : State) (allResultsRaw : list Item)
  : Outcome (list Result) :=
  match finalResults (allKeywords s) (uniqueValues allResultsRaw) with
  | Done final => Done (displayResults s final)
  | Thrown message => Thrown message
  end.

(** *** Rendering *)

Fixpoint takeWhile {A} (f : A -> bool) (l : list A) : list A :=
  match l with
  | x :: l' => if f x then x :: takeWhile f l' else []
  | [] => []
  end.

(** [item.rawContent.match(/r\/(\w+)/)]: the group of the first match. *)
Fixpoint subredditMatch (s : str) : option str :=
  match s with
  | [] => None
  | c :: s' =>
    let here :=
      match s' with
      | d :: s'' =>
        if ascii_dec c "r"%char then
          if ascii_dec d "/"%char then
            match takeWhile isWordChar s'' with
            | [] => None
            | name => Some name
            end
          else None
        else None
      | [] => None
      end in
    match here with
    | Some name => Some name
    | None => subredditMatch s'
    end
  end.

(** A link in a template literal. *)
Definition showLink (o : option str) : str :=
  match o with Some l => l | None => lit "undefined" end.

Definition renderResult (env : Env) (result : Result) (w : World) : World :=
  let it := res_item result in
  let timeAgo :=
    match date it with
    | Some d => formatDistanceToNow env d
    | None => lit "N/A"
    end in
  let matchedKeywordsString :=
    join (lit " ")
         (map (fun kw => lit "{bold}" ++ quoted kw ++ lit "{/bold}")
              (res_matchedKeywords result)) in
  let w :=
    match source it with
    | Reddit =>
      let subreddit :=
        match subredditMatch (rawContent it) with
        | Some name => lit "/r/" ++ name
        | None => []
        end in
      let w := log (lit "{green-fg}{bold}[Reddit]{/bold} " ++ subreddit
                      ++ lit " :: " ++ matchedKeywordsString) w in
      let w := log (lit "  " ++ orUndefined (title it)) w in
      log (lit "  {gray-fg}" ++ showLink (link it) ++ lit "{/gray-fg} - " ++ timeAgo) w
    | HackerNews | DuckDuckGo =>
      let w := log (lit "{green-fg}{bold}[" ++ sourceLabel (source it)
                      ++ lit "]{/bold}") w in
      let w := log (lit "  " ++ orUndefined (title it)) w in
      let w :=
        match res_matchedKeywords result with
        | _ :: _ => log (lit "  Keywords: " ++ matchedKeywordsString) w
        | [] => w
        end in
      let w := log (lit "  " ++ res_highlightedSnippet result) w in
      log (lit "  {gray-fg}https:" ++ showLink (link it) ++ lit "{/gray-fg}") w
    end in
  log [] w.

Definition renderResults (env : Env) (results : list Result) (w : World) : World :=
  let w :=
    match results with
    | _ :: _ =>
      log (lit "Displaying " ++ showZ (Z.of_nat (length results)) ++ lit " results.") w
    | [] => w
    end in
  fold_left (fun w result => renderResult env result w) results w.

(** *** The cycle, split at its [await] *)

Definition setFetching (b : bool) (w : World) : World :=
  withState w (withIsFetching (state w) b).

Definition allFetchTasks (s : State) : list Task :=
  map (RssTask Reddit) (kw_reddit (keywords s))
    ++ map (RssTask HackerNews) (kw_hn (keywords s))
    ++ map DdgTask (kw_ddg (keywords s)).

Definition nothingToMonitor : str :=
  lit "No keywords to monitor. Add some with `+ " ++ quoted (lit "my keyword") ++ lit "`".

(** How a call of an [async] function of the program ends. *)
Inductive Completion :=
| Returned (w : World)
| Exited (w : World)
| Threw (message : str) (w : World).

Definition worldOf (c : Completion) : World :=
  match c with Returned w | Exited w | Threw _ w => w end.

(** [fetchAllData(header)] up to [await Promise.all]: guarded by
    [isFetching], it issues one request per source and keyword. *)
Definition fetchStart (header : str) (w : World) : World :=
  if isFetching (state w) then w
  else
    let w := setFetching true w in
    let w := updateStatusBar w in
    let w := log (lit "{yellow-fg}Checking for new items...{/yellow-fg}") w in
    match allFetchTasks (state w) with
    | [] =>
      let w := log nothingToMonitor w in
      updateStatusBar (setFetching false w)
    | tasks =>
      withInFlight w
        (Some {| fl_header := header;
                 fl_requests := map (fun t => (t, None)) tasks |})
    end.

(** The rest of [fetchAllData], which runs when [Promise.all] resolves.
    An error thrown here is caught nowhere: the call ends there, with the
    busy flag still up. *)
Definition fetchFinish (env : Env) (header : str) (allResultsRaw : list Item)
           (w : World) : Completion :=
  match cycleResults (state w) allResultsRaw with
  | Thrown message => Threw message w
  | Done results =>
    let w :=
      match header with
      | _ :: _ => log (lit "{bold}--- " ++ header ++ lit " ---{/bold}") w
      | [] => w
      end in
    let w := renderResults env results w in
    Returned (updateStatusBar (setFetching false w))
  end.

(** [(await Promise.all(allFetchTasks)).flat()]: the items of the requests
    in the order of the requests, once every request has been answered. *)
Fixpoint allSettled (requests : list (Task * option (list Item)))
  : option (list Item) :=
  match requests with
  | [] => Some []
  | (_, Some items) :: rest =>
    match allSettled rest with
    | Some more => Some (items ++ more)
    | None => None
    end
  | (_, None) :: _ => None
  end.

(** The request at place [n] has been answered with [items]. *)
Fixpoint settleNth (n : nat) (items : list Item)
         (requests : list (Task * option (list Item)))
  : list (Task * option (list Item)) :=
  match requests, n with
  | [], _ => []
  | (t, _) :: rest, O => (t, Some items) :: rest
  | r :: rest, S n' => r :: settleNth n' items rest
  end.

(** The request at place [n] of the cycle in flight gets its answer: its
    adapter call goes on after its own [await], logs its error if the
    request failed, and returns its items.  When that was the last request
    of the cycle, the continuation of [fetchAllData] runs. *)
Definition answer (env : Env) (n : nat) (w : World) : Completion :=
  match inFlight w with
  | None => Returned w
  | Some flight =>
    match nth_error (fl_requests flight) n with
    | Some (t, None) =>
      let (w, items) := runTask env t w in
      let requests := settleNth n items (fl_requests flight) in
      match allSettled requests with
      | Some allResultsRaw =>
        fetchFinish env (fl_header flight) allResultsRaw (withInFlight w None)
      | None =>
        Returned (withInFlight w
                    (Some {| fl_header := fl_header flight;
                             fl_requests := requests |}))
      end
    | _ => Returned w
    end
  end.

(** The requests are answered in [order], each named by its place. *)
Fixpoint answerAll (env : Env) (order : list nat) (w : World) : Completion :=
  match order with
  | [] => Returned w
  | n :: rest =>
    match answer env n w with
    | Returned w' => answerAll env rest w'
    | ended => ended
    end
  end.

(** A whole call of [fetchAllData] with no other event before it ends:
    the requests it issues are answered in [order]. *)
Definition fetchAllData (env : Env) (order : list nat) (header : str) (w : World)
  : Completion :=
  answerAll env order (fetchStart header w).

Definition updateComplete : str := lit "Update Complete".

(** ** The command interpreter (handleCommand) *)

Definition squote : ascii := "'"%char.

(** The first two alternatives of the tokenizing expression at the head of
    [s]: the quote [q], one or more code units other than [q], and [q]
    again.  The length of the match. *)
Definition quotedToken (q : ascii) (s : str) : option nat :=
  match s with
  | c :: s' =>
    if ascii_dec c q then
      let body := takeWhile (fun d => if ascii_dec d q then false else true) s' in
      match body, skipn (length body) s' with
      | _ :: _, _ :: _ => Some (length body + 2)
      | _, _ => None
      end
    else None
  | [] => None
  end.

(** [(\S+)] at the head of [s]. *)
Definition bareToken (s : str) : option nat :=
  match takeWhile (fun c => negb (isWhiteSpace c)) s with
  | [] => None
  | run => Some (length run)
  end.

(** The three alternatives, in order. *)
Definition tokenAt (s : str) : option nat :=
  match quotedToken dquote s with
  | Some n => Some n
  | None =>
    match quotedToken squote s with
    | Some n => Some n
    | None => bareToken s
    end
  end.

Fixpoint matchAll (fuel : nat) (s : str) : list str :=
  match fuel with
  | O => []
  | S fuel' =>
    match s with
    | [] => []
    | _ :: s' =>
      match tokenAt s with
      | Some n => firstn n s :: matchAll fuel' (skipn n s)
      | None => matchAll fuel' s'
      end
    end
  end.

(** [command.match(...) || []] with the global expression whose
    alternatives are a double-quoted run, a single-quoted run and [\S+]. *)
Definition tokenize (command : str) : list str :=
  matchAll (length command) command.

(** [p.replace(..., '')]: every double and single quote is removed. *)
Definition stripQuotes (p : str) : str :=
  filter (fun c => if ascii_dec c dquote then false
                   else if ascii_dec c squote then false else true) p.

(** [sources.includes(name)] and the key that is found. *)
Definition sourceOfName (name : str) : option SourceKey :=
  find (fun k => str_eqb name (keyName k)) sources.

Definition digitValue (c : ascii) : option Z :=
  let n := code c in
  if between 48 57 n then Some (Z.of_N (n - 48)) else None.

Fixpoint digitsValue (acc : Z) (s : str) : Z :=
  match s with
  | c :: s' =>
    match digitValue c with
    | Some d => digitsValue (10 * acc + d) s'
    | None => acc
    end
  | [] => acc
  end.

Fixpoint dropWhile {A} (f : A -> bool) (l : list A) : list A :=
  match l with
  | x :: l' => if f x then dropWhile f l' else l
  | [] => []
  end.

Definition startsWithDigit (s : str) : bool :=
  match s with
  | c :: _ => match digitValue c with Some _ => true | None => false end
  | [] => false
  end.

(** [parseInt(x, 10)]: [None] is [NaN]; an absent argument reads
    [undefined] and gives [NaN].  The result is the number the program
    holds when it is a safe integer; a longer run of digits is rounded by
    the program and is not here. *)
Definition parseInt (x : option str) : option Z :=
  match x with
  | None => None
  | Some s =>
    let s := dropWhile isWhiteSpace s in
    let (negative, s) :=
      match s with
      | c :: s' =>
        if ascii_dec c "-"%char then (true, s')
        else if ascii_dec c "+"%char then (false, s') else (false, s)
      | [] => (false, s)
      end in
    if startsWithDigit s
    then Some (if negative then (- digitsValue 0 s)%Z else digitsValue 0 s)
    else None
  end.

Definition displayHelp (w : World) : World :=
  let w := log (lit "{bold}{underline}Available Commands{/underline}{/bold}") w in
  let w := log (lit "{cyan-fg}+/- " ++ quoted (lit "kw") ++ lit " or +/-<src> "
                  ++ quoted (lit "kw") ++ lit "{/cyan-fg} - Add/remove keywords for sources.") w in
  let w := log (lit "{cyan-fg}~<src> <limit|default>{/cyan-fg} - Set per-source limit or reset to global.") w in
  let w := log (lit "{cyan-fg}list{/cyan-fg}                      - Show a summary of all monitored keywords.") w in
  let w := log (lit "{cyan-fg}set list <number>{/cyan-fg}        - Set the global default for max results per source.") w in
  let w := log (lit "{cyan-fg}set interval <min>{/cyan-fg}     - Set fetch interval in minutes.") w in
  let w := log (lit "{cyan-fg}save / load / set default{/cyan-fg} - Manage settings files.") w in
  let w := log (lit "{cyan-fg}fetch / clear / help / exit{/cyan-fg}  - Utility commands.") w in
  log [] w.

Definition upperName (k : SourceKey) : str :=
  match k with reddit => lit "REDDIT" | hn => lit "HN" | ddg => lit "DDG" end.

Definition listSettings (w : World) : World :=
  let w := log (lit "{bold}--- Current Keyword Settings ---{/bold}") w in
  let w :=
    fold_left
      (fun w src =>
         match kwGet (keywords (state w)) src with
         | [] => w
         | kws =>
           let w := log (lit "{green-fg}{bold}[" ++ upperName src ++ lit "]{/bold}") w in
           fold_left (fun w kw => log (lit "  - " ++ quoted kw) w) kws w
         end)
      sources w in
  log [] w.

(** The inner [forEach] of the keyword branch. *)
Definition updateKeyword (plus : bool) (targetSources : list SourceKey)
           (k : Keywords) (kw : str) : Keywords :=
  fold_left
    (fun k s => kwSet k s (if plus then set_add (kwGet k s) kw
                           else set_delete (kwGet k s) kw))
    targetSources k.

Definition updateKeywords (plus : bool) (targetSources : list SourceKey)
           (args : list str) (k : Keywords) : Keywords :=
  fold_left (updateKeyword plus targetSources) args k.

(** [sources.includes(sourceMatch) ? [sourceMatch] : sources] *)
Definition targetSourcesOf (sourceMatch : str) : list SourceKey :=
  match sourceOfName sourceMatch with
  | Some s => [s]
  | None => sources
  end.

(** The end of [handleCommand]. *)
Definition finishCommand (stateChanged : bool) (w : World) : Completion :=
  let w := if stateChanged then autosaveState w else w in
  Returned (updateStatusBar w).

Definition keywordCommand (action : str) (args : list str) (w : World) : Completion :=
  let sourceMatch := substring 1 action in
  let targetSources := targetSourcesOf sourceMatch in
  let plus := startsWith action (lit "+") in
  let w := withState w (withKeywords (state w)
             (updateKeywords plus targetSources args (keywords (state w)))) in
  let w := log (lit "{green-fg}Keywords updated.{/green-fg}") w in
  let w := fetchStart (lit "Fetching for new keywords...") w in
  finishCommand true w.

Definition limitCommand (action : str) (args : list str) (w : World) : Completion :=
  let name := substring 1 action in
  match sourceOfName name with
  | None => Returned (log (lit "{red-fg}Invalid source: " ++ name ++ lit "{/red-fg}") w)
  | Some src =>
    if negb (truthy (hd_error args)) then finishCommand false (listSettings w)
    else if str_eqb (toLowerCase (hd [] args)) (lit "default") then
      let w := withState w (withLimits (state w) (limSet (limits (state w)) src None)) in
      let w := log (lit "{green-fg}" ++ name ++ lit " limit reset to global default ("
                      ++ showZ (globalResultLimit (state w)) ++ lit ").{/green-fg}") w in
      finishCommand true w
    else
      match parseInt (hd_error args) with
      | Some limit =>
        if (0 <=? limit)%Z then
          let w := withState w (withLimits (state w) (limSet (limits (state w)) src (Some limit))) in
          let w := log (lit "{green-fg}Set " ++ name ++ lit " specific result limit to "
                          ++ showZ limit ++ lit ".{/green-fg}") w in
          finishCommand true w
        else
          finishCommand false
            (log (lit "{red-fg}Invalid limit. Use a number or " ++ quoted (lit "default")
                    ++ lit ". Ex: ~hn 5{/red-fg}") w)
      | None =>
        finishCommand false
          (log (lit "{red-fg}Invalid limit. Use a number or " ++ quoted (lit "default")
                  ++ lit ". Ex: ~hn 5{/red-fg}") w)
      end
  end.

(** [copyFile(from, to)]: the new file system, or the error message. *)
Definition copyFile (f : FileSystem) (from to : str) : FileSystem + str :=
  match readFile f from with
  | None =>
    inr (lit "ENOENT: no such file or directory, copyfile '" ++ from
           ++ lit "' -> '" ++ to ++ lit "'")
  | Some c => writeFile f to c
  end.

Definition setCommand (args : list str) (w : World) : Completion :=
  let setting := if truthy (hd_error args) then toLowerCase (hd [] args) else [] in
  let second := nth_error args 1 in
  if str_eqb setting (lit "list") then
    match parseInt second with
    | Some value =>
      if (0 <=? value)%Z then
        let w := withState w (withGlobalResultLimit (state w) value) in
        let w := log (lit "{green-fg}Global result limit set to " ++ showZ value
                        ++ lit ".{/green-fg}") w in
        finishCommand true w
      else finishCommand false (log (lit "{red-fg}Usage: set list <number>{/red-fg}") w)
    | None => finishCommand false (log (lit "{red-fg}Usage: set list <number>{/red-fg}") w)
    end
  else if str_eqb setting (lit "interval") then
    match parseInt second with
    | Some value =>
      if (0 <? value)%Z then
        let w := withState w (withFetchIntervalMinutes (state w) value) in
        let w := restartFetchInterval w in
        let w := log (lit "{green-fg}Fetch interval updated to " ++ showZ value
                        ++ lit " minutes.{/green-fg}") w in
        finishCommand true w
      else finishCommand false (log (lit "{red-fg}Usage: set interval <minutes>{/red-fg}") w)
    | None => finishCommand false (log (lit "{red-fg}Usage: set interval <minutes>{/red-fg}") w)
    end
  else if str_eqb setting (lit "default") then
    if negb (truthy second) then
      finishCommand false (log (lit "{red-fg}Usage: set default <filename.json>{/red-fg}") w)
    else
      let file := match second with Some f => f | None => [] end in
      match copyFile (fs w) file DEFAULT_SETTINGS_FILE with
      | inl fs' =>
        finishCommand false
          (log (lit "{green-fg}Successfully set " ++ file
                  ++ lit " as the new default.{/green-fg}") (withFs w fs'))
      | inr message =>
        finishCommand false
          (log (lit "{red-fg}Error setting default: " ++ message ++ lit "{/red-fg}") w)
      end
  else finishCommand false (log (lit "{red-fg}Invalid set command. See 'help'.{/red-fg}") w).

Definition saveCommand (args : list str) (w : World) : Completion :=
  if negb (truthy (hd_error args)) then
    finishCommand false (log (lit "{red-fg}Usage: save <filename.json>{/red-fg}") w)
  else
    let file := hd [] args in
    let (w, ok) := saveState file w in
    finishCommand false
      (if ok then log (lit "{green-fg}Settings saved to " ++ file ++ lit "{/green-fg}") w
       else w).

(** A file name without a directory part. *)
Definition isPlainName (name : str) : bool :=
  forallb (fun c => if ascii_dec c "/"%char then false else true) name
  && negb (str_eqb name []) && negb (str_eqb name (lit "."))
  && negb (str_eqb name (lit "..")).

(** [readdir('.')]: the names of the working directory.  A file that was
    written under a name with a directory part is not listed under that
    name.  The call does not fail here. *)
Definition readdir (f : FileSystem) : list str :=
  filter isPlainName (map fst (entries f)).

Definition loadCommand (args : list str) (w : World) : Completion :=
  if negb (truthy (hd_error args)) then
    finishCommand false (log (lit "{red-fg}Usage: load <filename>{/red-fg}") w)
  else
    let prefix := hd [] args in
    let files := readdir (fs w) in
    match find (fun f => startsWith f prefix && endsWith f (lit ".json")) files with
    | Some targetFile => finishCommand false (loadState targetFile w)
    | None =>
      finishCommand false
        (log (lit "{red-fg}No settings file found starting with " ++ quoted prefix
                ++ lit "{/red-fg}") w)
    end.

(** The first lines of [handleCommand]: the action token in lower case
    and the arguments without their quotes.  [None] when the command has
    no token, where [parts.shift()] is [undefined]. *)
Definition parseCommand (command : str) : option (str * list str) :=
  match tokenize command with
  | [] => None
  | first :: parts => Some (toLowerCase first, map stripQuotes parts)
  end.

(** The chain of branches on [action] and [command]. *)
Definition dispatch (command action : str) (args : list str) (w : World) : Completion :=
  if startsWith action (lit "+") || startsWith action (lit "-") then
    keywordCommand action args w
  else if startsWith action (lit "~") then limitCommand action args w
  else if str_eqb action (lit "list") then finishCommand false (listSettings w)
  else if str_eqb action (lit "set") then setCommand args w
  else if str_eqb action (lit "save") then saveCommand args w
  else if str_eqb action (lit "load") then loadCommand args w
  else if str_eqb command (lit "help") then finishCommand false (displayHelp w)
  else if str_eqb command (lit "fetch") then
    finishCommand false (fetchStart updateComplete w)
  else if str_eqb command (lit "clear") then finishCommand false (clearOutput w)
  else if str_eqb command (lit "exit") then Exited w
  else
    finishCommand false
      (log (lit "{red-fg}Unknown command: " ++ command ++ lit "{/red-fg}") w).

(** The error of [parts.shift().toLowerCase()] on a command without a
    token. *)
Definition noAction : str :=
  lit "Cannot read properties of undefined (reading 'toLowerCase')".

Definition handleCommand (command : str) (w : World) : Completion :=
  match command with
  | [] => Returned w
  | _ :: _ =>
    match parseCommand command with
    | None => Threw noAction w
    | Some (action, args) => dispatch command action args w
    end
  end.

(** [start()] up to its [await]: the requests of the initial fetch are
    answered later, each in its own time. *)
Definition start (w : World) : World :=
  let w := loadState DEFAULT_SETTINGS_FILE w in
  let w := displayHelp w in
  let s := keywords (state w) in
  match kw_reddit s ++ kw_hn s ++ kw_ddg s with
  | _ :: _ =>
    let w := log (lit "{yellow-fg}Performing initial fetch based on loaded settings...{/yellow-fg}") w in
    fetchStart (lit "Initial Fetch") w
  | [] => w
  end.


(** ** Sample inputs *)

Module Sample.

Definition emptyFs : FileSystem := {| entries := []; unwritable := [] |}.

(** The world at startup, before any settings file exists. *)
Definition freshWorld : World :=
  {| state := initialState; fs := emptyFs; outputLines := [];
     statusBar := lit "Starting..."; inFlight := None |}.

Definition worldWith (k : Keywords) : World :=
  withState freshWorld (withKeywords initialState k).

Definition onlyReddit (l : list str) : Keywords :=
  {| kw_reddit := l; kw_hn := []; kw_ddg := [] |}.

(** A world in which Reddit is searched for [pi]. *)
Definition piWorld : World := worldWith (onlyReddit [lit "pi"]).

(** Commands as they are typed. *)
Definition addRedditPi : str := lit "+reddit " ++ quoted (lit "pi").
Definition removeRedditPi : str := lit "-reddit " ++ quoted (lit "pi").
Definition addFooKw : str := lit "+foo " ++ quoted (lit "kw").
Definition addBlank : str := lit "+ " ++ quoted (lit " ").
Definition addEmpty : str := lit "+ " ++ [dquote; dquote].

End Sample.

Module SampleItems.

(** A feed item without a link, whose text holds the keyword [pi]. *)
Definition linklessPost : Item :=
  {| source := Reddit; title := Some (lit "Raspberry Pi 5"); link := None;
     date := Some 1000%Z; snippet := lit "is great"; rawContent := [] |}.

Definition linkedPost : Item :=
  {| source := HackerNews; title := Some (lit "Pi day"); link := Some (lit "http://a/1");
     date := Some 2000%Z; snippet := lit "no news"; rawContent := [] |}.

Definition piState : State :=
  withKeywords initialState (Sample.onlyReddit [lit "pi"]).

End SampleItems.

(** A keyword argument that is empty after trimming. *)
Definition isBlank (k : str) : bool := forallb isWhiteSpace k.

Module SampleFiles.

(** A settings file without the [fetchIntervalMinutes] field. *)
Definition noInterval : SavedData :=
  {| sd_keywords := Some {| ka_reddit := Some [lit "pi"]; ka_hn := Some [];
                            ka_ddg := Some [] |};
     sd_limits := Some noLimits;
     sd_globalResultLimit := Some 3%Z;
     sd_fetchIntervalMinutes := None |}.

Definition brokenName : str := lit "broken.json".

Definition worldWithBroken : World :=
  withFs (Sample.worldWith (Sample.onlyReddit [lit "rust"]))
         {| entries := [(brokenName, JsonText noInterval)]; unwritable := [] |}.

Definition workName : str := lit "work.json".

(** The world after [set list 0] was typed at startup. *)
Definition zeroLimitWorld : World :=
  worldOf (handleCommand (lit "set list 0") Sample.freshWorld).

(** That world after its configuration was saved to [work.json]. *)
Definition savedZero : World := fst (saveState workName zeroLimitWorld).

End SampleFiles.

(** ** The limiter and ranker in the words of the specification *)

Module Spec.

(** Group the matched items by source, in their order of arrival. *)
Definition group (final : list Result) (n : SourceName) : list Result :=
  filter (fun r => SourceName_eqb (source (res_item r)) n) final.

(** The per-source override when one is set, else the global limit. *)
Definition effectiveLimit (s : State) (n : SourceName) : Z :=
  match n with
  | Reddit => match lim_reddit (limits s) with Some k => k | None => globalResultLimit s end
  | HackerNews => match lim_hn (limits s) with Some k => k | None => globalResultLimit s end
  | DuckDuckGo => match lim_ddg (limits s) with Some k => k | None => globalResultLimit s end
  end.

(** Keep the head of a group, up to the limit. *)
Definition truncate (g : list Result) (limit : Z) : list Result :=
  firstn (Z.to_nat limit) g.

(** The truncated groups, concatenated. *)
Definition truncated (s : State) (final : list Result) : list Result :=
  concat (map (fun n => truncate (group final n) (effectiveLimit s n)) sourceNames).

(** The publish timestamp; an item without one counts as the epoch. *)
Definition timestamp (r : Result) : Z :=
  match date (res_item r) with Some t => t | None => 0%Z end.

Definition hasTimestamp (t : Z) (r : Result) : bool := (timestamp r =? t)%Z.

(** [out] is [l] sorted by timestamp, latest first, and otherwise in the
    order of [l]: the items of each timestamp are those of [l], in the
    order they have in [l]. *)
Definition ranked (l out : list Result) : Prop :=
  StronglySorted (fun a b => (timestamp b <= timestamp a)%Z) out
  /\ forall t, filter (hasTimestamp t) out = filter (hasTimestamp t) l.

End Spec.

(** ** Observing a fetch cycle *)

Definition appendLines (lines : list str) (w : World) : World :=
  {| state := state w; fs := fs w; outputLines := outputLines w ++ lines;
     statusBar := statusBar w; inFlight := inFlight w |}.

(** The adapter call of a task fails. *)
Definition taskFails (env : Env) (t : Task) : bool :=
  match t with
  | RssTask src kw => match parseURL env src kw with Failed _ => true | Ok _ => false end
  | DdgTask kw => match httpGet env kw with Failed _ => true | Ok _ => false end
  end.

(** What the adapter call of a task logs and returns, observed on a world
    with an empty output. *)
Definition errorLines (env : Env) (t : Task) : list str :=
  outputLines (fst (runTask env t (clearOutput Sample.freshWorld))).

Definition settledItems (env : Env) (t : Task) : list Item :=
  snd (runTask env t (clearOutput Sample.freshWorld)).

(** The lines that [renderResults] logs. *)
Definition renderedLines (env : Env) (results : list Result) : list str :=
  outputLines (renderResults env results (clearOutput Sample.freshWorld)).

Definition headerLines (header : str) : list str :=
  match header with
  | [] => []
  | _ :: _ => [lit "{bold}--- " ++ header ++ lit " ---{/bold}"]
  end.

(** The requests for [tasks], the first at place [k], when those at the
    places [answered] have got their answer from [env]. *)
Fixpoint requestsFrom (env : Env) (answered : list nat) (k : nat) (tasks : list Task)
  : list (Task * option (list Item)) :=
  match tasks with
  | [] => []
  | t :: rest =>
    (t, if existsb (Nat.eqb k) answered then Some (settledItems env t) else None)
      :: requestsFrom env answered (S k) rest
  end.

(** The tasks at the places [order]. *)
Definition tasksAt (tasks : list Task) (order : list nat) : list Task :=
  flat_map (fun n => match nth_error tasks n with Some t => [t] | None => [] end) order.

(** The environment in which every failing request answers with an empty
    list instead. *)
Definition orEmptyList {A} (r : Response (list A)) : Response (list A) :=
  match r with Ok a => Ok a | Failed _ => Ok [] end.

Definition soften (env : Env) : Env :=
  {| thirtyDaysAgo := thirtyDaysAgo env;
     parseURL := fun src kw => orEmptyList (parseURL env src kw);
     httpGet := fun kw => orEmptyList (httpGet env kw);
     formatDistanceToNow := formatDistanceToNow env |}.

Module SampleCycle.

Definition mk (src : SourceName) (t : str) (l : str) (d : option Z) : Result :=
  {| res_item := {| source := src; title := Some t; link := Some l; date := d;
                    snippet := lit "pi"; rawContent := [] |};
     res_matchedKeywords := [lit "pi"];
     res_highlightedSnippet := lit "{bold}pi{/bold}" |}.

Definition r1 := mk Reddit (lit "one") (lit "http://r/1") (Some 10%Z).
Definition r2 := mk Reddit (lit "two") (lit "http://r/2") (Some 30%Z).
Definition r3 := mk Reddit (lit "three") (lit "http://r/3") (Some 20%Z).
Definition h1 := mk HackerNews (lit "four") (lit "http://h/1") (Some 25%Z).
Definition d1 := mk DuckDuckGo (lit "five") (lit "http://d/1") None.

(** Matched items in their arrival order. *)
Definition matched : list Result := [r1; d1; h1; r2; r3].

(** Two results at most from Reddit, ten from the others. *)
Definition twoFromReddit : State :=
  withLimits initialState (limSet noLimits reddit (Some 2%Z)).

(** Reddit is unreachable, Hacker News answers with one recent item. *)
Definition flakyEnv : Env :=
  {| thirtyDaysAgo := 100%Z;
     parseURL := fun src _ =>
       match src with
       | Reddit => Failed (lit "connect ETIMEDOUT")
       | _ => Ok [{| fe_title := Some (lit "Raspberry Pi 5");
                     fe_link := Some (lit "http://h/9");
                     fe_date := Some 500%Z; fe_snippet := lit "is great";
                     fe_content := [] |}]
       end;
     httpGet := fun _ => Ok [];
     formatDistanceToNow := fun _ => lit "1 day ago" |}.

Definition piEverywhere : World :=
  Sample.worldWith {| kw_reddit := [lit "pi"]; kw_hn := [lit "pi"]; kw_ddg := [] |}.

(** The item of a feed that gives it no title; its snippet holds [pi]. *)
Definition untitledEntry : FeedEntry :=
  {| fe_title := None; fe_link := Some (lit "http://h/9");
     fe_date := Some 500%Z; fe_snippet := lit "Raspberry Pi 5 is great";
     fe_content := [] |}.

Definition untitledItem : Item :=
  {| source := HackerNews; title := None; link := Some (lit "http://h/9");
     date := Some 500%Z; snippet := lit "Raspberry Pi 5 is great"; rawContent := [] |}.

(** Reddit is unreachable, Hacker News answers with the item without a
    title. *)
Definition untitledEnv : Env :=
  {| thirtyDaysAgo := 100%Z;
     parseURL := fun src _ =>
       match src with
       | Reddit => Failed (lit "connect ETIMEDOUT")
       | _ => Ok [untitledEntry]
       end;
     httpGet := fun _ => Ok [];
     formatDistanceToNow := fun _ => lit "1 day ago" |}.

(** The world in which the cycle for [pi] on Reddit and on Hacker News
    ended on the item without a title. *)
Definition stuck : World :=
  worldOf (fetchAllData untitledEnv [0; 1] updateComplete piEverywhere).

End SampleCycle.

(** ** Whole-word occurrence in the words of the specification *)

(** The last code unit of [pre], or [prev] when [pre] is empty. *)
Fixpoint lastOr (prev : option ascii) (pre : str) : option ascii :=
  match pre with
  | [] => prev
  | c :: pre' => lastOr (Some c) pre'
  end.

(** Equal up to the case of the letters. *)
Definition sameIgnoringCase (a b : str) : Prop :=
  Forall2 (fun x y => canonicalize x = canonicalize y) a b.

(** [kw] occurs in [text] as a whole word: some occurrence, up to case,
    has no word character next to it on either side, so that it is not a
    part of a longer word. *)
Definition wholeWordOccurrence (kw text : str) : Prop :=
  exists pre mid post,
    text = pre ++ mid ++ post
    /\ sameIgnoringCase kw mid
    /\ wordish (lastOr None pre) = false
    /\ wordish (hd_error post) = false.

(** The keyword begins and ends with a word character. *)
Definition wordEdged (kw : str) : Prop :=
  wordish (hd_error kw) = true /\ wordish (lastOr None kw) = true.

(** [\w] read off the canonical code of a code unit. *)
Definition wordCode (n : N) : bool :=
  between 48 57 n || between 65 90 n || (n =? 95)%N.

Module SampleText.

Definition raspberry : Item :=
  {| source := Reddit; title := Some (lit "Raspberry Pi 5");
     link := Some (lit "http://r/5");
     date := Some 1000%Z; snippet := lit "is great"; rawContent := [] |}.

Definition piano : Item :=
  {| source := Reddit; title := Some (lit "piano"); link := Some (lit "http://r/6");
     date := Some 1000%Z; snippet := lit "lessons"; rawContent := [] |}.

Definition cpp : Item :=
  {| source := HackerNews; title := Some (lit "c++"); link := Some (lit "http://h/7");
     date := Some 1000%Z; snippet := lit "rocks"; rawContent := [] |}.

Definition cppState : State :=
  withKeywords initialState (Sample.onlyReddit [lit "c++"]).

(** What the cycle makes of [raspberry] when [pi] is the only keyword. *)
Definition raspberryResult : Result :=
  {| res_item := raspberry;
     res_matchedKeywords := [lit "pi"];
     res_highlightedSnippet := lit "}Pi{/bold} 5 is great" |}.

End SampleText.

(** ** Highlighted text *)

(** [Marked s h]: [h] is [s] after bold markers were inserted, one after
    the other, each anywhere in the text so far. *)
Inductive Marked (s : str) : str -> Prop :=
| Marked_same : Marked s s
| Marked_insert u v m :
    Marked s (u ++ v) -> m = boldOpen \/ m = boldClose -> Marked s (u ++ m ++ v).

(** A keyword of [kws] matches inside the title of the item: the pattern
    of the keyword matches the scanned text at a place of the title and
    the match ends within the title. *)
Definition matchesInTitle (kws : list str) (it : Item) : Prop :=
  exists kw pre rest n,
    In kw kws
    /\ title it = Some (pre ++ rest)
    /\ matchHere (keywordPattern kw) (lastOr None pre) (rest ++ lit " " ++ snippet it) = Some n
    /\ n <= length rest.

(** ** Well-formed configurations *)

(** No limit is negative. *)
Definition limitsOk (l : Limits) (g : Z) : Prop :=
  (0 <= g)%Z /\ forall k n, limGet l k = Some n -> (0 <= n)%Z.

(** The keyword sets are sets. *)
Definition setsOk (k : Keywords) : Prop :=
  NoDup (kw_reddit k) /\ NoDup (kw_hn k) /\ NoDup (kw_ddg k).

Definition stateOk (s : State) : Prop :=
  limitsOk (limits s) (globalResultLimit s) /\ setsOk (keywords s).

(** A settings file that holds no negative limit. *)
Definition dataOk (d : SavedData) : Prop :=
  forall l, sd_limits d = Some l -> limitsOk l (orTen (sd_globalResultLimit d)).

Definition filesOk (f : FileSystem) : Prop :=
  forall name d, In (name, JsonText d) (entries f) -> dataOk d.

Definition worldOk (w : World) : Prop := stateOk (state w) /\ filesOk (fs w).

(** ** Further notions for the properties of the program *)

(** The keyword is found in the text of the item. *)
Definition keywordHits (it : Item) (kw : str) : bool :=
  test (keywordPattern kw) (scannedText it).

(** Some keyword of the list is found in the text of the item. *)
Definition hasMatch (kws : list str) (it : Item) : bool :=
  existsb (keywordHits it) kws.


(** What an adapter promises about an item it returns: a feed item
    carries the name of its feed and a date within the recency window, a
    scraped item has a title and a link and no date. *)
Definition adapterItemOk (env : Env) (t : Task) (it : Item) : Prop :=
  match t with
  | RssTask src _ =>
    source it = src /\ exists d, date it = Some d /\ (thirtyDaysAgo env < d)%Z
  | DdgTask _ =>
    source it = DuckDuckGo /\ date it = None
    /\ (exists t, title it = Some t /\ t <> [])
    /\ truthy (link it) = true /\ rawContent it = []
  end.

Module SampleShown.

(** What a cycle shows of the item of [SampleCycle.flakyEnv]. *)
Definition post : Result :=
  {| res_item := {| source := HackerNews; title := Some (lit "Raspberry Pi 5");
                    link := Some (lit "http://h/9"); date := Some 500%Z;
                    snippet := lit "is great"; rawContent := [] |};
     res_matchedKeywords := [lit "pi"];
     res_highlightedSnippet := lit "}Pi{/bold} 5 is great" |}.

Definition tasks : list Task := allFetchTasks (state SampleCycle.piEverywhere).

End SampleShown.

(** ** The event loop *)

(** What the program reacts to: a command submitted in the input box, the
    answer to one request of the cycle in flight, named by its place and
    read from the world outside at that moment, and the interval timer
    firing.  A handler runs to its end before the next event is taken.  A
    call that throws rejects its promise, which nothing handles: where
    the runtime keeps the process alive after that, the program goes on
    from the world as it was at the throw, and so does [step].  After
    [exit] no event is taken; [step] goes on there as well, so that what
    holds of every run holds of the runs that stop. *)
Inductive Event :=
| Submit (command : str)
| Answer (env : Env) (n : nat)
| Tick.

Definition step (e : Event) (w : World) : World :=
  match e with
  | Submit command => worldOf (handleCommand command w)
  | Answer env n => worldOf (answer env n w)
  | Tick =>
    match fetchIntervalId (state w) with
    | Some _ => fetchStart updateComplete w
    | None => w
    end
  end.

Definition run (events : list Event) (w : World) : World :=
  fold_left (fun w e => step e w) events w.

(** A request of the cycle is still to be answered. *)
Definition hasPending (requests : list (Task * option (list Item))) : bool :=
  existsb (fun r => match snd r with None => true | Some _ => false end) requests.

(** While a cycle is in flight the busy flag is up and a request is still
    to be answered. *)
Definition cycleCoherent (w : World) : Prop :=
  match inFlight w with
  | Some flight =>
    isFetching (state w) = true /\ hasPending (fl_requests flight) = true
  | None => True
  end.

(** The busy flag is up and no request is outstanding: what an error in
    the continuation of a cycle leaves behind. *)
Definition wedged (w : World) : Prop :=
  isFetching (state w) = true /\ inFlight w = None.

(** The status bar shows the keywords and the busy flag of the state. *)
Definition statusCurrent (w : World) : Prop :=
  statusBar w = statusBar (updateStatusBar w).

(** The period of the timer, when one runs, is the delay taken for the
    interval of the state. *)
Definition timerOk (s : State) : Prop :=
  match fetchIntervalId s with
  | Some ms => ms = timerDelay (fetchIntervalMinutes s * 60 * 1000)%Z
  | None => True
  end.

(** The action of the command is one of [names]. *)
Definition actionIn (names : list str) (command : str) : bool :=
  match parseCommand command with
  | Some (action, _) => existsb (str_eqb action) names
  | None => false
  end.

Definition isSubmitOf (names : list str) (e : Event) : bool :=
  match e with
  | Submit command => actionIn names command
  | _ => false
  end.

Module SampleFlight.

(** The cycle for [pi] on Reddit, suspended at its requests. *)
Definition header : str := lit "Fetching for new keywords...".

Definition flight : Flight :=
  {| fl_header := header; fl_requests := [(RssTask Reddit (lit "pi"), None)] |}.

Definition suspended : World := fetchStart header Sample.piWorld.

(** Every feed answers with one recent post about the Raspberry Pi. *)
Definition answeringEnv : Env :=
  {| thirtyDaysAgo := 100%Z;
     parseURL := fun _ _ =>
       Ok [{| fe_title := Some (lit "Raspberry Pi 5");
              fe_link := Some (lit "http://r/9");
              fe_date := Some 500%Z; fe_snippet := lit "is great";
              fe_content := [] |}];
     httpGet := fun _ => Ok [];
     formatDistanceToNow := fun _ => lit "1 day ago" |}.

Definition post : Item :=
  {| source := Reddit; title := Some (lit "Raspberry Pi 5");
     link := Some (lit "http://r/9"); date := Some 500%Z;
     snippet := lit "is great"; rawContent := [] |}.

End SampleFlight.

(** ** Command lines as they are typed *)

(** A word without white space that does not begin with a quote. *)
Definition isBareWord (t : str) : bool :=
  match t with
  | [] => false
  | c :: _ =>
    negb (Ascii.eqb c dquote) && negb (Ascii.eqb c squote)
    && forallb (fun d => negb (isWhiteSpace d)) t
  end.

(** What is typed for one argument: a bare word, or a phrase between
    double quotes that is not empty and holds no double quote. *)
Inductive Written : str -> Prop :=
| Written_bare t : isBareWord t = true -> Written t
| Written_quoted k : k <> [] -> ~ In dquote k -> Written (quoted k).

(** The action and the arguments, one space before each argument. *)
Definition typedLine (action : str) (written : list str) : str :=
  action ++ flat_map (fun t => lit " " ++ t) written.

Definition quoteFree (k : str) : Prop := ~ In dquote k /\ ~ In squote k.

(** ** What the files keep *)

(** [f'] is [f] but for the content of the default settings file. *)
Definition sameButSettings (f f' : FileSystem) : Prop :=
  forall name, name <> DEFAULT_SETTINGS_FILE -> readFile f' name = readFile f name.

(** Every file of [f] is a file of [f']. *)
Definition keepsFiles (f f' : FileSystem) : Prop :=
  forall name, readFile f name <> None -> readFile f' name <> None.

(** The configuration: what is saved of a state. *)
Definition config (s : State) : Keywords * Limits * Z * Z :=
  (keywords s, limits s, globalResultLimit s, fetchIntervalMinutes s).

(** [Number.isSafeInteger]: the integers a number of the program holds
    exactly.  Beyond them [parseInt] rounds, and [JSON.stringify] writes
    an infinite number as [null]. *)
Definition MAX_SAFE_INTEGER : Z := 9007199254740991%Z.

Definition isSafeInteger (n : Z) : bool := (Z.abs n <=? MAX_SAFE_INTEGER)%Z.

(** Every number of the configuration is one the program holds exactly. *)
Definition safeNumbers (s : State) : Prop :=
  isSafeInteger (globalResultLimit s) = true
  /\ isSafeInteger (fetchIntervalMinutes s) = true
  /\ forall k n, limGet (limits s) k = Some n -> isSafeInteger n = true.

(** Every file of the directory is known under a plain name, so that
    [readdir] lists the names the files are read and written under. *)
Definition flat (f : FileSystem) : Prop :=
  forall name, In name (map fst (entries f)) -> isPlainName name = true.

(** A new process in a directory with the files [f]. *)
Definition bootWorld (f : FileSystem) : World := withFs Sample.freshWorld f.

(** ** The subreddit of a Reddit item *)

(** The text begins with [r/] and a word character. *)
Definition startsSubreddit (s : str) : bool :=
  match s with
  | c :: d :: x :: _ =>
    (if ascii_dec c "r"%char then true else false)
    && (if ascii_dec d "/"%char then true else false)
    && isWordChar x
  | _ => false
  end.

Module SampleSave.

Definition saveWork : str := lit "save work.json".
Definition loadWork : str := lit "load work.json".

(** [pi] is searched on Reddit and the configuration is saved. *)
Definition saved : World := worldOf (handleCommand saveWork Sample.piWorld).

(** The keyword is removed afterwards. *)
Definition changed : World := worldOf (handleCommand Sample.removeRedditPi saved).

End SampleSave.
(** * Properties *)

(** ** Sets *)

Lemma str_eqb_eq a b : str_eqb a b = true <-> a = b.
Proof. unfold str_eqb; destruct (list_eq_dec ascii_dec a b); split; congruence. Qed.

Lemma str_eqb_refl a : str_eqb a a = true.
Proof. now apply str_eqb_eq. Qed.

Lemma str_eqb_neq a b : str_eqb a b = false <-> a <> b.
Proof. unfold str_eqb; destruct (list_eq_dec ascii_dec a b); split; congruence. Qed.

Lemma set_has_In s k : set_has s k = true <-> In k s.
Proof.
  unfold set_has; rewrite existsb_exists; split.
  - intros [x [Hx He]]; apply str_eqb_eq in He; now subst.
  - intros H; exists k; split; [assumption | apply str_eqb_refl].
Qed.

Lemma set_has_false s k : set_has s k = false <-> ~ In k s.
Proof.
  rewrite <- set_has_In; destruct (set_has s k); split; congruence.
Qed.

Lemma set_add_In s k x : In x (set_add s k) <-> In x s \/ x = k.
Proof.
  unfold set_add; destruct (set_has s k) eqn:E.
  - apply set_has_In in E; split; [now left | intros [H | ->]; assumption].
  - rewrite in_app_iff; simpl; intuition.
Qed.

Lemma set_delete_In s k x : In x (set_delete s k) <-> In x s /\ x <> k.
Proof.
  unfold set_delete; rewrite filter_In; split; intros [H1 H2]; split; trivial.
  - intros ->; now rewrite str_eqb_refl in H2.
  - destruct (str_eqb k x) eqn:E; trivial.
    apply str_eqb_eq in E; congruence.
Qed.

Lemma set_delete_absent s k : ~ In k s -> set_delete s k = s.
Proof.
  unfold set_delete; induction s as [| x s IH]; simpl; intros H; trivial.
  destruct (str_eqb k x) eqn:E.
  - apply str_eqb_eq in E; subst; tauto.
  - simpl; f_equal; apply IH; tauto.
Qed.

Lemma set_delete_app s t k : set_delete (s ++ t) k = set_delete s k ++ set_delete t k.
Proof. unfold set_delete; apply filter_app. Qed.

Lemma set_add_NoDup s k : NoDup s -> NoDup (set_add s k).
Proof.
  unfold set_add; intros H; destruct (set_has s k) eqn:E; trivial.
  apply set_has_false in E.
  apply NoDup_app; [assumption | constructor; [easy | constructor] |].
  intros x Hx [<- | []]; contradiction.
Qed.

Lemma fold_set_add_In l : forall acc x,
  In x (fold_left set_add l acc) <-> In x acc \/ In x l.
Proof.
  induction l as [| k l IH]; simpl; intros acc x; [tauto |].
  rewrite IH, set_add_In; intuition.
Qed.

Lemma fold_set_add_NoDup l : forall acc, NoDup acc -> NoDup (fold_left set_add l acc).
Proof.
  induction l as [| k l IH]; simpl; intros acc H; trivial.
  now apply IH, set_add_NoDup.
Qed.

Lemma set_from_In l x : In x (set_from l) <-> In x l.
Proof. unfold set_from; rewrite fold_set_add_In; simpl; tauto. Qed.

Lemma set_from_NoDup l : NoDup (set_from l).
Proof. apply fold_set_add_NoDup; constructor. Qed.

Lemma fold_set_add_fresh l : forall acc,
  NoDup l -> (forall x, In x l -> ~ In x acc) ->
  fold_left set_add l acc = acc ++ l.
Proof.
  induction l as [| k l IH]; simpl; intros acc Hnd Hfresh.
  - now rewrite app_nil_r.
  - inversion Hnd as [| ? ? Hk Hl]; subst.
    assert (E : set_add acc k = acc ++ [k]).
    { unfold set_add.
      destruct (set_has acc k) eqn:Eh; trivial.
      apply set_has_In in Eh; exfalso; apply (Hfresh k); auto. }
    rewrite E, IH; trivial.
    + now rewrite <- app_assoc.
    + intros x Hx Hin; apply in_app_iff in Hin as [Hin | [<- | []]].
      * apply (Hfresh x); auto.
      * contradiction.
Qed.

(** A set that is spread into an array and made a set again is itself. *)
Lemma set_from_NoDup_id l : NoDup l -> set_from l = l.
Proof.
  intros H; unfold set_from; rewrite fold_set_add_fresh; trivial.
  intros x _ [].
Qed.

(** ** The keyword pattern *)

Lemma isSyntaxChar_backslash : isSyntaxChar backslash = true.
Proof. reflexivity. Qed.

Lemma parsePattern_more n : forall src p m,
  parsePattern n src = Some p -> n <= m -> parsePattern m src = Some p.
Proof.
  induction n as [| n IH]; intros src p m H Hle; [discriminate H |].
  destruct m as [| m]; [lia |].
  assert (Hm : n <= m) by lia.
  simpl in *.
  destruct src as [| c rest]; trivial.
  destruct (ascii_dec c backslash).
  - destruct rest as [| d rest']; trivial.
    destruct (ascii_dec d "b").
    + destruct (parsePattern n rest') eqn:E; [| discriminate H].
      now rewrite (IH _ _ m E Hm).
    + destruct (isSyntaxChar d); trivial.
      destruct (parsePattern n rest') eqn:E; [| discriminate H].
      now rewrite (IH _ _ m E Hm).
  - destruct (isSyntaxChar c); trivial.
    destruct (parsePattern n rest) eqn:E; [| discriminate H].
    now rewrite (IH _ _ m E Hm).
Qed.

Lemma parsePattern_escaped kw : forall rest p n,
  parsePattern n rest = Some p ->
  parsePattern (length kw + n) (escapeRegExp kw ++ rest) = Some (map Chr kw ++ p).
Proof.
  induction kw as [| c kw IH]; intros rest p n H; trivial.
  specialize (IH rest p n H).
  unfold escapeRegExp in *; cbn [flat_map length Nat.add].
  destruct (isSyntaxChar c) eqn:Es.
  - cbn [app parsePattern].
    destruct (ascii_dec backslash backslash) as [_ | N]; [| congruence].
    destruct (ascii_dec c "b") as [-> | _]; [discriminate Es |].
    now rewrite Es, IH.
  - cbn [app parsePattern].
    destruct (ascii_dec c backslash) as [-> | _]; [discriminate Es |].
    now rewrite Es, IH.
Qed.

(** The pattern source built from a keyword denotes the keyword between
    two word boundaries, whatever characters the keyword holds. *)
Lemma length_escapeRegExp kw : length kw <= length (escapeRegExp kw).
Proof.
  unfold escapeRegExp; induction kw as [| c kw IH]; simpl; trivial.
  destruct (isSyntaxChar c); simpl; lia.
Qed.

Lemma parsePattern_boundary n rest :
  parsePattern (S n) (backslash :: "b"%char :: rest)
  = option_map (cons WordBoundary) (parsePattern n rest).
Proof. reflexivity. Qed.

Lemma compile_keyword kw : compile (keywordSource kw) = Some (keywordPattern kw).
Proof.
  unfold compile, keywordSource, keywordPattern.
  assert (H : parsePattern (length kw + 2) (escapeRegExp kw ++ lit "\b")
              = Some (map Chr kw ++ [WordBoundary])).
  { now apply parsePattern_escaped. }
  change (lit "\b" ++ escapeRegExp kw ++ lit "\b")
    with (backslash :: "b"%char :: escapeRegExp kw ++ lit "\b").
  remember (escapeRegExp kw ++ lit "\b") as rest eqn:Er.
  assert (Hlen : length kw + 2 <= length (backslash :: "b"%char :: rest)).
  { subst rest; simpl; rewrite length_app; pose proof (length_escapeRegExp kw); simpl; lia. }
  rewrite parsePattern_boundary.
  now rewrite (parsePattern_more _ H Hlen).
Qed.

(** One turn of the highlighting loop, with the pattern of the keyword. *)
Lemma highlightStep_keyword text acc kw :
  highlightStep text acc kw
  = if test (keywordPattern kw) text
    then (set_add (fst acc) kw, replaceAll (keywordPattern kw) (snd acc))
    else acc.
Proof. unfold highlightStep; now rewrite compile_keyword. Qed.

(** ** Matching *)

Lemma exec_found p s : forall prev,
  exec p prev s <> None
  <-> exists pre rest, s = pre ++ rest /\ matchHere p (lastOr prev pre) rest <> None.
Proof.
  induction s as [| c s IH]; intros prev; simpl.
  - destruct (matchHere p prev []) eqn:E; split.
    + intros _; exists [], []; simpl; split; congruence.
    + congruence.
    + congruence.
    + intros [pre [rest [Hs Hm]]].
      symmetry in Hs; apply app_eq_nil in Hs as [-> ->]; simpl in Hm; congruence.
  - destruct (matchHere p prev (c :: s)) eqn:E; split.
    + intros _; exists [], (c :: s); simpl; split; congruence.
    + congruence.
    + intros H.
      assert (H' : exec p (Some c) s <> None).
      { destruct (exec p (Some c) s) as [[i n] |]; congruence. }
      apply IH in H' as [pre [rest [-> Hm]]].
      exists (c :: pre), rest; split; trivial.
    + intros [pre [rest [Hs Hm]]].
      destruct pre as [| c' pre]; simpl in *.
      * subst rest; congruence.
      * injection Hs as <- ->.
        assert (H' : exec p (Some c) (pre ++ rest) <> None) by (apply IH; eauto).
        destruct (exec p (Some c) (pre ++ rest)) as [[i n] |]; congruence.
Qed.

Lemma test_true p text :
  test p text = true
  <-> exists pre rest, text = pre ++ rest /\ matchHere p (lastOr None pre) rest <> None.
Proof.
  rewrite <- exec_found; unfold test.
  destruct (exec p None text); split; congruence.
Qed.

(** A run of literal characters followed by the rest of a pattern. *)
Lemma matchHere_chars kw q : forall prev s n,
  matchHere (map Chr kw ++ q) prev s = Some n
  <-> exists mid rest m,
        s = mid ++ rest /\ sameIgnoringCase kw mid
        /\ matchHere q (lastOr prev mid) rest = Some m /\ n = length kw + m.
Proof.
  induction kw as [| c kw IH]; intros prev s n; simpl.
  - split.
    + intros H; exists [], s, n; repeat split; trivial; constructor.
    + intros [mid [rest [m [-> [Hf [Hm ->]]]]]].
      inversion Hf; subst; assumption.
  - destruct s as [| d s].
    + split; [discriminate |].
      intros [mid [rest [m [Hs [Hf _]]]]].
      inversion Hf; subst; discriminate Hs.
    + unfold eqc; destruct (canonicalize c =? canonicalize d)%N eqn:E.
      * apply N.eqb_eq in E.
        destruct (matchHere (map Chr kw ++ q) (Some d) s) as [k |] eqn:Ek; simpl; split.
        -- intros H; injection H as <-.
           apply IH in Ek as [mid [rest [m [-> [Hf [Hm ->]]]]]].
           exists (d :: mid), rest, m; repeat split; trivial.
           now constructor.
        -- intros [mid [rest [m [Hs [Hf [Hm ->]]]]]].
           inversion Hf as [| ? d' ? mid' _ Hf']; subst.
           injection Hs as <- ->.
           assert (Ek' : matchHere (map Chr kw ++ q) (Some d) (mid' ++ rest)
                         = Some (length kw + m)).
           { apply IH; exists mid', rest, m; repeat split; trivial. }
           congruence.
        -- discriminate.
        -- intros [mid [rest [m [Hs [Hf [Hm ->]]]]]].
           inversion Hf as [| ? d' ? mid' _ Hf']; subst.
           injection Hs as <- ->.
           assert (Ek' : matchHere (map Chr kw ++ q) (Some d) (mid' ++ rest)
                         = Some (length kw + m)).
           { apply IH; exists mid', rest, m; repeat split; trivial. }
           congruence.
      * apply N.eqb_neq in E; split; [discriminate |].
        intros [mid [rest [m [Hs [Hf _]]]]].
        inversion Hf as [| ? d' ? mid' Hc _]; subst.
        injection Hs as <- _; contradiction.
Qed.

(** A match of the keyword pattern: a word boundary, the keyword up to
    case, a word boundary. *)
Lemma matchHere_keyword kw prev s :
  matchHere (keywordPattern kw) prev s <> None
  <-> boundary prev s = true
      /\ exists mid rest,
           s = mid ++ rest /\ sameIgnoringCase kw mid
           /\ boundary (lastOr prev mid) rest = true.
Proof.
  unfold keywordPattern; cbn [matchHere].
  destruct (boundary prev s); [| split; [congruence | intros [H _]; discriminate H]].
  split.
  - intros H; split; trivial.
    destruct (matchHere (map Chr kw ++ [WordBoundary]) prev s) as [n |] eqn:E;
      [| congruence].
    apply matchHere_chars in E as [mid [rest [m [-> [Hf [Hm _]]]]]].
    exists mid, rest; repeat split; trivial.
    simpl in Hm; destruct (boundary (lastOr prev mid) rest); [reflexivity | discriminate].
  - intros [_ [mid [rest [-> [Hf Hb]]]]].
    assert (E : matchHere (map Chr kw ++ [WordBoundary]) prev (mid ++ rest)
                = Some (length kw + 0)).
    { apply matchHere_chars; exists mid, rest, 0; repeat split; trivial.
      simpl; now rewrite Hb. }
    congruence.
Qed.

(** ** Whole words *)

Lemma isWordChar_canonical a : isWordChar a = wordCode (canonicalize a).
Proof. destruct a as [[] [] [] [] [] [] [] []]; reflexivity. Qed.

Lemma same_canonical_word a b :
  canonicalize a = canonicalize b -> isWordChar a = isWordChar b.
Proof. intros H; now rewrite !isWordChar_canonical, H. Qed.

Lemma sameIgnoringCase_head kw mid :
  sameIgnoringCase kw mid -> wordish (hd_error kw) = wordish (hd_error mid).
Proof.
  intros [| c d kw' mid' H _]; trivial.
  simpl; now apply same_canonical_word.
Qed.

Lemma sameIgnoringCase_last kw mid :
  sameIgnoringCase kw mid ->
  forall p q, wordish p = wordish q ->
              wordish (lastOr p kw) = wordish (lastOr q mid).
Proof.
  induction 1 as [| c d kw' mid' H _ IH]; intros p q Hpq; simpl; trivial.
  apply IH; simpl; now apply same_canonical_word.
Qed.

Lemma sameIgnoringCase_nonempty kw mid :
  sameIgnoringCase kw mid -> kw <> [] -> mid <> [].
Proof. intros [| c d kw' mid' Hc Hr] Hne; congruence. Qed.

Lemma lastOr_nonempty p q s : s <> [] -> lastOr p s = lastOr q s.
Proof. destruct s; [congruence | reflexivity]. Qed.

Lemma hd_error_app_nonempty (s t : str) : s <> [] -> hd_error (s ++ t) = hd_error s.
Proof. destruct s; [congruence | reflexivity]. Qed.

Lemma wordEdged_nonempty kw : wordEdged kw -> kw <> [].
Proof. intros [H _] ->; discriminate H. Qed.

(** For a keyword with word characters at both ends, the word boundaries of
    the pattern say that no word character is next to the occurrence. *)
Lemma test_whole_word kw text :
  wordEdged kw ->
  test (keywordPattern kw) text = true <-> wholeWordOccurrence kw text.
Proof.
  intros Hedge; pose proof (wordEdged_nonempty Hedge) as Hne.
  destruct Hedge as [Hhd Hlast].
  rewrite test_true; split.
  - intros [pre [rest [-> Hm]]].
    apply matchHere_keyword in Hm as [Hb1 [mid [post [-> [Hs Hb2]]]]].
    pose proof (sameIgnoringCase_nonempty Hs Hne) as Hmid.
    exists pre, mid, post; repeat split; trivial.
    + unfold boundary in Hb1.
      rewrite hd_error_app_nonempty, <- (sameIgnoringCase_head Hs), Hhd in Hb1 by assumption.
      destruct (wordish (lastOr None pre)); [discriminate Hb1 | reflexivity].
    + unfold boundary in Hb2.
      rewrite (lastOr_nonempty _ None Hmid) in Hb2.
      rewrite <- (sameIgnoringCase_last Hs None None eq_refl), Hlast in Hb2.
      destruct (wordish (hd_error post)); [discriminate Hb2 | reflexivity].
  - intros [pre [mid [post [-> [Hs [Hp Hq]]]]]].
    pose proof (sameIgnoringCase_nonempty Hs Hne) as Hmid.
    exists pre, (mid ++ post); split; trivial.
    apply matchHere_keyword; split.
    + unfold boundary.
      now rewrite hd_error_app_nonempty, <- (sameIgnoringCase_head Hs), Hhd, Hp by assumption.
    + exists mid, post; repeat split; trivial.
      unfold boundary.
      rewrite (lastOr_nonempty _ None Hmid).
      now rewrite <- (sameIgnoringCase_last Hs None None eq_refl), Hlast, Hq.
Qed.

(** The keywords that the loop records: those of the list that the test
    finds in the text. *)
Lemma recorded_fold text kws : forall acc kw,
  In kw (fst (fold_left (highlightStep text) kws acc))
  <-> In kw (fst acc) \/ (In kw kws /\ test (keywordPattern kw) text = true).
Proof.
  induction kws as [| k kws IH]; intros acc kw; simpl; [tauto |].
  rewrite IH, highlightStep_keyword.
  destruct (test (keywordPattern k) text) eqn:E; simpl.
  - rewrite set_add_In; split.
    + intros [[H | ->] | [H1 H2]]; auto.
    + intros [H | [[<- | H1] H2]]; auto.
  - split.
    + intros [H | [H1 H2]]; auto.
    + intros [H | [[<- | H1] H2]]; auto; congruence.
Qed.

Lemma matchedKeywords_In text kws kw :
  In kw (matchedKeywords (findAndHighlightKeywords text kws))
  <-> In kw kws /\ test (keywordPattern kw) text = true.
Proof.
  unfold findAndHighlightKeywords; cbn [matchedKeywords].
  rewrite recorded_fold; simpl; tauto.
Qed.

Lemma allKeywords_In s kw :
  In kw (allKeywords s)
  <-> In kw (kw_reddit (keywords s)) \/ In kw (kw_hn (keywords s))
      \/ In kw (kw_ddg (keywords s)).
Proof. unfold allKeywords; now rewrite set_from_In, !in_app_iff. Qed.

(** C2, corrected.  For every item that is scanned and every keyword that
    begins and ends with a word character (a letter, a digit or the
    underscore), the keyword is recorded as matched if and only if it is
    one of the keywords of some source and it occurs in the title, a
    space and the snippet as a whole word up to case: with no word
    character next to the occurrence, so never as a part of a longer
    word. *)
Theorem keyword_recorded_iff_whole_word (s : State) (it : Item) (kw : str) :
  wordEdged kw ->
  In kw (matchedKeywords (findAndHighlightKeywords (scannedText it) (allKeywords s)))
  <-> (In kw (kw_reddit (keywords s)) \/ In kw (kw_hn (keywords s))
       \/ In kw (kw_ddg (keywords s)))
      /\ wholeWordOccurrence kw (orUndefined (title it) ++ lit " " ++ snippet it).
Proof.
  intros Hedge.
  now rewrite matchedKeywords_In, allKeywords_In, (test_whole_word _ Hedge).
Qed.

Lemma keyword_recorded_iff_whole_word_witness :
  wordEdged (lit "pi")
  /\ (In (lit "pi")
         (matchedKeywords
            (findAndHighlightKeywords (scannedText SampleText.raspberry)
                                      (allKeywords SampleItems.piState)))
      <-> (In (lit "pi") (kw_reddit (keywords SampleItems.piState))
           \/ In (lit "pi") (kw_hn (keywords SampleItems.piState))
           \/ In (lit "pi") (kw_ddg (keywords SampleItems.piState)))
          /\ wholeWordOccurrence (lit "pi") (lit "Raspberry Pi 5 is great")).
Proof.
  assert (H : wordEdged (lit "pi")) by (split; reflexivity).
  split; [exact H |].
  exact (@keyword_recorded_iff_whole_word SampleItems.piState SampleText.raspberry
           (lit "pi") H).
Defined.

(** The two texts of the specification: the keyword [pi] is found in the
    first and not in the second. *)
Example pi_matches_raspberry_not_piano :
  matchedKeywords (findAndHighlightKeywords (lit "Raspberry Pi 5 is great") [lit "pi"])
  = [lit "pi"]
  /\ wholeWordOccurrence (lit "pi") (lit "Raspberry Pi 5 is great")
  /\ matchedKeywords (findAndHighlightKeywords (lit "piano") [lit "pi"]) = []
  /\ ~ wholeWordOccurrence (lit "pi") (lit "piano")
  /\ finalResults [lit "pi"] [SampleText.piano] = Done [].
Proof.
  assert (H : wordEdged (lit "pi")) by (split; reflexivity).
  split; [reflexivity | split; [| split; [reflexivity | split; [| reflexivity]]]].
  - apply (test_whole_word _ H); reflexivity.
  - intros Hw; apply (test_whole_word _ H) in Hw; discriminate Hw.
Qed.

(** The claim C2 as it is written fails for a keyword that ends with a
    character that is not a word character: [c++] stands as a whole word
    at the head of the text, and it is not recorded, because the pattern
    asks for a word boundary after the last [+]. *)
Lemma punctuated_keyword_is_missed :
  In (lit "c++") (allKeywords SampleText.cppState)
  /\ scannedText SampleText.cpp = lit "c++ rocks"
  /\ wholeWordOccurrence (lit "c++") (scannedText SampleText.cpp)
  /\ ~ In (lit "c++")
          (matchedKeywords (findAndHighlightKeywords (scannedText SampleText.cpp)
                                                     (allKeywords SampleText.cppState)))
  /\ finalResults (allKeywords SampleText.cppState) [SampleText.cpp] = Done [].
Proof.
  split; [now left | split; [reflexivity | split; [| split]]].
  - exists [], (lit "c++"), (lit " rocks"); repeat split.
    repeat constructor.
  - intros [].
  - reflexivity.
Qed.

(** ** Markers and the cut of the snippet *)

Lemma Marked_trans a b c : Marked a b -> Marked b c -> Marked a c.
Proof.
  intros Hab Hbc; induction Hbc as [| u v m _ IH Hm]; trivial.
  now apply Marked_insert.
Qed.

Lemma Marked_keep c s h : Marked s h -> Marked (c :: s) (c :: h).
Proof.
  induction 1 as [| u v m _ IH Hm]; [constructor |].
  change (c :: u ++ m ++ v) with ((c :: u) ++ m ++ v).
  now apply Marked_insert.
Qed.

Lemma Marked_open s h : Marked s h -> Marked s (boldOpen ++ h).
Proof. intros H; apply (@Marked_insert s [] h boldOpen); auto. Qed.

Lemma Marked_close s h : Marked s h -> Marked s (boldClose ++ h).
Proof. intros H; apply (@Marked_insert s [] h boldClose); auto. Qed.

Lemma Marked_prefix a h : Marked [] h -> Marked a (a ++ h).
Proof.
  induction a as [| c a IH]; intros H; simpl; trivial.
  now apply Marked_keep, IH.
Qed.

Lemma Marked_app a a' b b' : Marked a a' -> Marked b b' -> Marked (a ++ b) (a' ++ b').
Proof.
  intros Ha Hb.
  apply Marked_trans with (a ++ b').
  - clear Ha; induction a as [| c a IH]; simpl; trivial.
    now apply Marked_keep.
  - clear Hb; induction Ha as [| u v m _ IH Hm]; [constructor |].
    rewrite <- !app_assoc; apply Marked_insert; trivial.
    now rewrite app_assoc.
Qed.

Lemma length_marker m : m = boldOpen \/ m = boldClose -> 6 <= length m.
Proof. intros [-> | ->]; simpl; lia. Qed.

Lemma Marked_length s h : Marked s h -> h = s \/ length s + 6 <= length h.
Proof.
  induction 1 as [| u v m _ IH Hm]; [now left | right].
  pose proof (length_marker Hm).
  rewrite !length_app in *.
  destruct IH as [<- | IH]; rewrite ?length_app in *; lia.
Qed.

Lemma Marked_length_le s h : Marked s h -> length s <= length h.
Proof. intros H; destruct (Marked_length H) as [-> | ?]; lia. Qed.

Lemma replaceLoop_S fuel p prev s :
  replaceLoop (S fuel) p prev s =
  match matchHere p prev s with
  | Some (S n) =>
    boldOpen ++ firstn (S n) s ++ boldClose
      ++ replaceLoop fuel p (hd_error (rev (firstn (S n) s))) (skipn (S n) s)
  | Some O =>
    boldOpen ++ boldClose ++
      match s with
      | [] => []
      | c :: s' => c :: replaceLoop fuel p (Some c) s'
      end
  | None =>
    match s with
    | [] => []
    | c :: s' => c :: replaceLoop fuel p (Some c) s'
    end
  end.
Proof. reflexivity. Qed.

(** A pass of the replacement only inserts markers. *)
Lemma replaceLoop_Marked p fuel : forall prev s, Marked s (replaceLoop fuel p prev s).
Proof.
  induction fuel as [| fuel IH]; intros prev s; [constructor |].
  rewrite replaceLoop_S.
  destruct (matchHere p prev s) as [[| n] |].
  - apply Marked_open, Marked_close.
    destruct s; [constructor | apply Marked_keep, IH].
  - apply Marked_open.
    rewrite <- (firstn_skipn (S n) s) at 1.
    apply Marked_app; [constructor |].
    apply Marked_close, IH.
  - destruct s; [constructor | apply Marked_keep, IH].
Qed.

Lemma matchHere_length p : forall prev s n, matchHere p prev s = Some n -> n <= length s.
Proof.
  induction p as [| [| c] p IH]; intros prev s n H; simpl in H.
  - injection H as <-; lia.
  - destruct (boundary prev s); [eauto | discriminate].
  - destruct s as [| d s]; [discriminate |].
    destruct (eqc c d); [| discriminate].
    destruct (matchHere p (Some d) s) as [k |] eqn:E; [| discriminate].
    injection H as <-; apply IH in E; simpl; lia.
Qed.

(** A match that ends before the last code unit of [u ++ [x]] does not
    depend on what follows [x]. *)
Lemma matchHere_prefix p : forall prev u x r r' n,
  matchHere p prev (u ++ x :: r) = Some n -> n <= length u ->
  matchHere p prev (u ++ x :: r') = Some n.
Proof.
  induction p as [| [| c] p IH]; intros prev u x r r' n H Hn; simpl in *; trivial.
  - assert (E : boundary prev (u ++ x :: r') = boundary prev (u ++ x :: r))
      by (unfold boundary; destruct u; reflexivity).
    rewrite E; destruct (boundary prev (u ++ x :: r)); [eauto | discriminate].
  - destruct u as [| d u]; simpl in *.
    + destruct (eqc c x); [| discriminate].
      destruct (matchHere p (Some x) r); [injection H as <-; lia | discriminate].
    + destruct (eqc c d); [| discriminate].
      destruct (matchHere p (Some d) (u ++ x :: r)) as [k |] eqn:E; [| discriminate].
      injection H as <-.
      rewrite (IH _ _ _ _ r' _ E); [reflexivity | lia].
Qed.

(** A pass of the replacement over a text cut at one of its code units:
    the markers go to either side of the code unit, and the side before
    it gets longer when the pattern matches at a place of that side. *)
Lemma replaceLoop_split p fuel : forall prev a c b,
  length (a ++ c :: b) < fuel ->
  exists a' b',
    replaceLoop fuel p prev (a ++ c :: b) = a' ++ c :: b'
    /\ Marked a a' /\ Marked b b'
    /\ ((exists pre rest,
           a = pre ++ rest /\ matchHere p (lastOr prev pre) (rest ++ c :: b) <> None)
        -> length a < length a').
Proof.
  induction fuel as [| fuel IH]; intros prev a c b Hfuel; [lia |].
  rewrite replaceLoop_S.
  destruct (matchHere p prev (a ++ c :: b)) as [[| n] |] eqn:E.
  - (* an empty match at the head *)
    destruct a as [| x a]; cbn [app] in *.
    + exists (boldOpen ++ boldClose), (replaceLoop fuel p (Some c) b).
      rewrite <- !app_assoc; split; [reflexivity | split; [| split]].
      * rewrite <- (app_nil_r boldClose); apply Marked_open, Marked_close; constructor.
      * apply replaceLoop_Marked.
      * intros _; rewrite length_app; simpl; lia.
    + destruct (IH (Some x) a c b) as [a' [b' [Eq [Ma [Mb _]]]]];
        [cbn [length] in Hfuel; lia |].
      exists (boldOpen ++ boldClose ++ x :: a'), b'.
      rewrite Eq, <- !app_assoc; split; [reflexivity | split; [| split]]; trivial.
      * apply Marked_open, Marked_close, Marked_keep, Ma.
      * intros _; pose proof (Marked_length_le Ma).
        rewrite !length_app; simpl; lia.
  - (* a match of one code unit or more at the head *)
    pose proof (matchHere_length _ _ _ E) as Hlen.
    remember (hd_error (rev (firstn (S n) (a ++ c :: b)))) as pv eqn:Epv; clear Epv.
    rewrite firstn_app, skipn_app.
    destruct (Nat.le_gt_cases (S n) (length a)) as [Hin | Hout].
    + replace (S n - length a) with 0 by lia.
      change (firstn 0 (c :: b)) with (@nil ascii).
      change (skipn 0 (c :: b)) with (c :: b).
      rewrite app_nil_r.
      destruct (IH pv (skipn (S n) a) c b) as [a' [b' [Eq [Ma [Mb _]]]]].
      { rewrite length_app in *; rewrite length_skipn; cbn [length] in *; lia. }
      exists (boldOpen ++ firstn (S n) a ++ boldClose ++ a'), b'.
      rewrite Eq, <- !app_assoc; split; [reflexivity | split; [| split]]; trivial.
      * rewrite <- (firstn_skipn (S n) a) at 1.
        apply Marked_open, Marked_app; [constructor | now apply Marked_close].
      * intros _; pose proof (Marked_length_le Ma) as Hle.
        rewrite length_skipn in Hle.
        rewrite !length_app, length_firstn, Nat.min_l by lia.
        change (length boldOpen) with 6; lia.
    + rewrite firstn_all2, skipn_all2 by lia.
      destruct (S n - length a) as [| k] eqn:Ek; [lia |].
      change (firstn (S k) (c :: b)) with (c :: firstn k b).
      change (skipn (S k) (c :: b)) with (skipn k b).
      exists (boldOpen ++ a), (firstn k b ++ boldClose ++ replaceLoop fuel p pv (skipn k b)).
      rewrite <- !app_assoc; cbn [app]; rewrite <- ?app_assoc.
      split; [reflexivity | split; [| split]].
      * apply Marked_open; constructor.
      * rewrite <- (firstn_skipn k b) at 1.
        apply Marked_app; [constructor | apply Marked_close, replaceLoop_Marked].
      * intros _; rewrite length_app; simpl; lia.
  - (* no match at the head *)
    destruct a as [| x a]; cbn [app] in *.
    + exists [], (replaceLoop fuel p (Some c) b).
      split; [reflexivity | split; [constructor | split; [apply replaceLoop_Marked |]]].
      intros [pre [rest [Epre Hm]]].
      symmetry in Epre; apply app_eq_nil in Epre as [-> ->].
      cbn in Hm; congruence.
    + destruct (IH (Some x) a c b) as [a' [b' [Eq [Ma [Mb Hgrow]]]]];
        [cbn [length] in Hfuel; lia |].
      exists (x :: a'), b'.
      rewrite Eq; split; [reflexivity | split; [now apply Marked_keep | split; trivial]].
      intros [pre [rest [Epre Hm]]].
      destruct pre as [| y pre]; cbn [app lastOr] in *.
      * subst rest; cbn [app] in Hm; congruence.
      * injection Epre as <- ->.
        assert (length (pre ++ rest) < length a'); [| simpl; lia].
        apply Hgrow; eauto.
Qed.

Lemma replaceAll_split p a c b :
  exists a' b',
    replaceAll p (a ++ c :: b) = a' ++ c :: b'
    /\ Marked a a' /\ Marked b b'
    /\ ((exists pre rest,
           a = pre ++ rest /\ matchHere p (lastOr None pre) (rest ++ c :: b) <> None)
        -> length a < length a').
Proof. unfold replaceAll; apply replaceLoop_split; lia. Qed.

(** The loop over the keywords keeps the cut: whatever it inserts lies on
    one side of the separator or on the other. *)
Lemma highlight_fold_cut (text t : str) (c : ascii) (sn : str) kws : forall acc (P S : str),
  snd acc = P ++ c :: S -> Marked t P -> Marked sn S ->
  exists P' S',
    snd (fold_left (highlightStep text) kws acc) = P' ++ c :: S'
    /\ Marked t P' /\ Marked sn S' /\ length P <= length P'.
Proof.
  induction kws as [| k kws IH]; intros acc P S Hacc HP HS; cbn [fold_left].
  - exists P, S; auto.
  - rewrite highlightStep_keyword.
    destruct (test (keywordPattern k) text).
    + destruct (replaceAll_split (keywordPattern k) P c S) as [P1 [S1 [E1 [M1 [M2 _]]]]].
      destruct (IH (set_add (fst acc) k, replaceAll (keywordPattern k) (snd acc)) P1 S1)
        as [P' [S' [E' [MP [MS Hle]]]]].
      * cbn [snd]; now rewrite Hacc.
      * now apply Marked_trans with P.
      * now apply Marked_trans with S.
      * exists P', S'; repeat split; trivial.
        pose proof (Marked_length_le M1); lia.
    + now apply (IH acc P S).
Qed.

(** When a keyword of the list matches inside the title, the side of the
    title has grown at the end of the loop. *)
Lemma highlight_fold_grows (t : str) (c : ascii) (sn kw pre rest : str) n kws :
  t = pre ++ rest ->
  matchHere (keywordPattern kw) (lastOr None pre) (rest ++ c :: sn) = Some n ->
  n <= length rest ->
  In kw kws ->
  forall acc (P S : str),
    snd acc = P ++ c :: S -> Marked t P -> Marked sn S ->
    exists P' S' : str,
      snd (fold_left (highlightStep (t ++ c :: sn)) kws acc) = P' ++ c :: S'
      /\ Marked t P' /\ Marked sn S' /\ length t < length P'.
Proof.
  intros Et Hm Hn.
  assert (Htest : test (keywordPattern kw) (t ++ c :: sn) = true).
  { apply test_true; exists pre, (rest ++ c :: sn); split.
    - now rewrite Et, <- app_assoc.
    - congruence. }
  induction kws as [| k kws IH]; intros Hin acc P S Hacc HP HS; [destruct Hin |].
  cbn [fold_left].
  destruct (list_eq_dec ascii_dec k kw) as [-> | Hneq].
  - rewrite highlightStep_keyword, Htest.
    destruct (replaceAll_split (keywordPattern kw) P c S) as [P1 [S1 [E1 [M1 [M2 Hgrow]]]]].
    assert (Hlt : length t < length P1).
    { destruct (Marked_length HP) as [-> | Hlong].
      - apply Hgrow; exists pre, rest; split; trivial.
        rewrite (matchHere_prefix _ _ _ _ _ S Hm Hn); congruence.
      - pose proof (Marked_length_le M1); lia. }
    destruct (@highlight_fold_cut (t ++ c :: sn) t c sn kws
                (set_add (fst acc) kw, replaceAll (keywordPattern kw) (snd acc)) P1 S1)
      as [P' [S' [E' [MP [MS Hle]]]]].
    + cbn [snd]; now rewrite Hacc.
    + now apply Marked_trans with P.
    + now apply Marked_trans with S.
    + exists P', S'; repeat split; trivial; lia.
  - destruct Hin as [Hk | Hin]; [contradiction |].
    rewrite highlightStep_keyword.
    destruct (test (keywordPattern k) (t ++ c :: sn)).
    + destruct (replaceAll_split (keywordPattern k) P c S) as [P1 [S1 [E1 [M1 [M2 _]]]]].
      apply (IH Hin _ P1 S1).
      * cbn [snd]; rewrite <- E1; f_equal; exact Hacc.
      * now apply Marked_trans with P.
      * now apply Marked_trans with S.
    + now apply (IH Hin _ P S).
Qed.

Lemma matchItem_Done kws it pushed :
  matchItem kws it = Done pushed ->
  forall r, In r pushed ->
    pushed = [r]
    /\ res_item r = it
    /\ res_matchedKeywords r
       = matchedKeywords (findAndHighlightKeywords (scannedText it) kws)
    /\ res_matchedKeywords r <> []
    /\ exists t,
         title it = Some t
         /\ res_highlightedSnippet r
            = substring (length t + 1)
                (highlightedText (findAndHighlightKeywords (scannedText it) kws)).
Proof.
  unfold matchItem.
  destruct (matchedKeywords (findAndHighlightKeywords (scannedText it) kws)) eqn:E.
  - intros H; injection H as <-; intros r [].
  - destruct (title it) as [t |] eqn:Et; [| discriminate].
    intros H; injection H as <-; intros r [<- | []].
    cbn [res_item res_matchedKeywords res_highlightedSnippet].
    repeat split; trivial; [discriminate | eauto].
Qed.

Lemma finalResults_cons kws it rest final :
  finalResults kws (it :: rest) = Done final <->
  exists pushed more,
    matchItem kws it = Done pushed /\ finalResults kws rest = Done more
    /\ final = pushed ++ more.
Proof.
  cbn [finalResults].
  destruct (matchItem kws it) as [pushed | m].
  - destruct (finalResults kws rest) as [more | m].
    + split.
      * intros H; injection H as <-; eauto.
      * intros [p [q [Hp [Hq ->]]]]; injection Hp as <-; injection Hq as <-; reflexivity.
    + split; [discriminate |].
      intros [p [q [_ [Hq _]]]]; discriminate Hq.
  - split; [discriminate |].
    intros [p [q [Hp _]]]; discriminate Hp.
Qed.

Lemma finalResults_In kws unique : forall final r,
  finalResults kws unique = Done final ->
  In r final ->
  In (res_item r) unique
  /\ res_matchedKeywords r
     = matchedKeywords (findAndHighlightKeywords (scannedText (res_item r)) kws)
  /\ res_matchedKeywords r <> []
  /\ exists t,
       title (res_item r) = Some t
       /\ res_highlightedSnippet r
          = substring (length t + 1)
              (highlightedText
                 (findAndHighlightKeywords (scannedText (res_item r)) kws)).
Proof.
  induction unique as [| it rest IH]; intros final r Hf Hr.
  - injection Hf as <-; destruct Hr.
  - apply finalResults_cons in Hf as [pushed [more [Hp [Hm ->]]]].
    apply in_app_iff in Hr as [Hr | Hr].
    + destruct (@matchItem_Done kws it pushed Hp r Hr) as [_ [Ei [Ek [Hne Ht]]]].
      rewrite Ei; split; [now left | auto].
    + destruct (IH more r Hm Hr) as [Hin Hrest]; split; [now right | exact Hrest].
Qed.

(** C10.  For every matched item, [highlightedSnippet] is the highlighted
    form of the whole scanned text (title, space, snippet) without its
    first [title.length + 1] code units.  When a keyword matches inside the
    title, the markers inserted before the separating space move that
    space to the right: the highlighted text is the marked title, the
    space and the marked snippet, the marked title is at least six code
    units longer than the title, and the snippet field begins with what is
    left of the marked title (five code units at least, title text or
    markup) and the space, before the marked snippet.  A matched item has
    a title: the loop that makes the matched items throws on an item that
    matches without one. *)
Theorem snippet_cut_keeps_title_markup
        (kws : list str) (unique : list Item) (final : list Result) (r : Result) :
  finalResults kws unique = Done final ->
  In r final ->
  let it := res_item r in
  exists t,
    title it = Some t
    /\ let h := findAndHighlightKeywords (t ++ lit " " ++ snippet it) kws in
       res_highlightedSnippet r = substring (length t + 1) (highlightedText h)
       /\ (matchesInTitle kws it ->
           exists P S leftover,
             highlightedText h = P ++ lit " " ++ S
             /\ Marked t P
             /\ Marked (snippet it) S
             /\ length t + 6 <= length P
             /\ leftover = skipn (length t + 1) P
             /\ 5 <= length leftover
             /\ res_highlightedSnippet r = leftover ++ lit " " ++ S).
Proof.
  intros Hf Hr; cbv zeta.
  destruct (@finalResults_In kws unique final r Hf Hr) as [_ [_ [_ [t [Et Hsnip]]]]].
  exists t; split; [exact Et |].
  assert (Etext : scannedText (res_item r) = t ++ lit " " ++ snippet (res_item r))
    by (unfold scannedText; now rewrite Et).
  rewrite Etext in Hsnip.
  split; [exact Hsnip |].
  intros [kw [pre [rest [n [Hin [Ett [Hm Hn]]]]]]].
  assert (Et' : t = pre ++ rest) by congruence.
  destruct (@highlight_fold_grows t " "%char (snippet (res_item r))
              kw pre rest n kws Et' Hm Hn Hin
              ([], t ++ lit " " ++ snippet (res_item r))
              t (snippet (res_item r)))
    as [P [S [E [MP [MS Hlt]]]]]; try constructor.
  assert (Hlong : length t + 6 <= length P).
  { destruct (Marked_length MP) as [-> | ?]; lia. }
  assert (EH : highlightedText
                 (findAndHighlightKeywords (t ++ lit " " ++ snippet (res_item r)) kws)
               = P ++ lit " " ++ S) by exact E.
  exists P, S, (skipn (length t + 1) P).
  rewrite Hsnip, EH.
  repeat split; trivial.
  - rewrite length_skipn; lia.
  - unfold substring; rewrite skipn_app.
    replace (length t + 1 - length P) with 0 by lia.
    reflexivity.
Qed.

Lemma snippet_cut_keeps_title_markup_witness :
  finalResults [lit "pi"] [SampleText.raspberry] = Done [SampleText.raspberryResult]
  /\ In SampleText.raspberryResult [SampleText.raspberryResult]
  /\ matchesInTitle [lit "pi"] SampleText.raspberry
  /\ exists t,
       title SampleText.raspberry = Some t
       /\ res_highlightedSnippet SampleText.raspberryResult
          = substring (length t + 1)
              (highlightedText
                 (findAndHighlightKeywords (t ++ lit " " ++ snippet SampleText.raspberry)
                                           [lit "pi"]))
       /\ (matchesInTitle [lit "pi"] SampleText.raspberry ->
           exists P S leftover,
             highlightedText
               (findAndHighlightKeywords (t ++ lit " " ++ snippet SampleText.raspberry)
                                         [lit "pi"])
             = P ++ lit " " ++ S
             /\ Marked t P
             /\ Marked (snippet SampleText.raspberry) S
             /\ length t + 6 <= length P
             /\ leftover = skipn (length t + 1) P
             /\ 5 <= length leftover
             /\ res_highlightedSnippet SampleText.raspberryResult
                = leftover ++ lit " " ++ S).
Proof.
  assert (Hf : finalResults [lit "pi"] [SampleText.raspberry]
               = Done [SampleText.raspberryResult]) by reflexivity.
  assert (Hin : In SampleText.raspberryResult [SampleText.raspberryResult])
    by (left; reflexivity).
  assert (Hm : matchesInTitle [lit "pi"] SampleText.raspberry).
  { exists (lit "pi"), (lit "Raspberry "), (lit "Pi 5"), 2.
    split; [now left | split; [reflexivity | split; [reflexivity | simpl; lia]]]. }
  split; [exact Hf | split; [exact Hin | split; [exact Hm |]]].
  exact (@snippet_cut_keeps_title_markup [lit "pi"] [SampleText.raspberry]
           [SampleText.raspberryResult] SampleText.raspberryResult Hf Hin).
Defined.

(** The sample in full: the title is marked, and the snippet field begins
    with the end of the marked title. *)
Example raspberry_snippet :
  highlightedText (findAndHighlightKeywords (scannedText SampleText.raspberry) [lit "pi"])
  = lit "Raspberry {bold}Pi{/bold} 5" ++ lit " " ++ lit "is great"
  /\ finalResults [lit "pi"] [SampleText.raspberry] = Done [SampleText.raspberryResult]
  /\ res_highlightedSnippet SampleText.raspberryResult
     = lit "}Pi{/bold} 5" ++ lit " " ++ lit "is great".
Proof. repeat split. Qed.

(** ** The loops with fuel never run out of it *)

Lemma replaceLoop_enough p f1 : forall f2 prev s,
  length s < f1 -> length s < f2 ->
  replaceLoop f1 p prev s = replaceLoop f2 p prev s.
Proof.
  induction f1 as [| f1 IH]; intros f2 prev s H1 H2; [lia |].
  destruct f2 as [| f2]; [lia |].
  rewrite !replaceLoop_S.
  destruct (matchHere p prev s) as [[| n] |] eqn:E.
  - destruct s as [| c s]; trivial.
    simpl in H1, H2; do 3 f_equal; apply IH; lia.
  - pose proof (matchHere_length _ _ _ E).
    do 3 f_equal; apply IH; rewrite length_skipn; lia.
  - destruct s as [| c s]; trivial.
    simpl in H1, H2; f_equal; apply IH; lia.
Qed.

Lemma takeWhile_length {A} (f : A -> bool) l : length (takeWhile f l) <= length l.
Proof. induction l as [| x l IH]; simpl; [lia | destruct (f x); simpl; lia]. Qed.

Lemma quotedToken_length q s n : quotedToken q s = Some n -> 1 <= n <= length s.
Proof.
  unfold quotedToken; destruct s as [| c s]; [discriminate |].
  destruct (ascii_dec c q); [| discriminate].
  destruct (takeWhile _ s) as [| b body] eqn:Eb; [discriminate |].
  destruct (skipn (length (b :: body)) s) as [| d r] eqn:Es; [discriminate |].
  intros H; injection H as <-.
  assert (Hl : length (skipn (length (b :: body)) s) = S (length r)) by now rewrite Es.
  rewrite length_skipn in Hl; simpl in *; lia.
Qed.

Lemma bareToken_length s n : bareToken s = Some n -> 1 <= n <= length s.
Proof.
  unfold bareToken.
  pose proof (takeWhile_length (fun c => negb (isWhiteSpace c)) s) as Hl.
  destruct (takeWhile _ s) as [| b run]; [discriminate |].
  intros H; injection H as <-; simpl in *; lia.
Qed.

Lemma tokenAt_length s n : tokenAt s = Some n -> 1 <= n <= length s.
Proof.
  unfold tokenAt.
  destruct (quotedToken dquote s) eqn:E1.
  - intros H; injection H as <-; eapply quotedToken_length; eassumption.
  - destruct (quotedToken squote s) eqn:E2.
    + intros H; injection H as <-; eapply quotedToken_length; eassumption.
    + apply bareToken_length.
Qed.

Lemma matchAll_enough f1 : forall f2 s,
  length s <= f1 -> length s <= f2 -> matchAll f1 s = matchAll f2 s.
Proof.
  induction f1 as [| f1 IH]; intros f2 s H1 H2.
  - destruct s; [| simpl in H1; lia]; destruct f2; reflexivity.
  - destruct f2 as [| f2]; [destruct s; [reflexivity | simpl in H2; lia] |].
    simpl; destruct s as [| c s]; trivial.
    destruct (tokenAt (c :: s)) as [n |] eqn:E.
    + apply tokenAt_length in E.
      f_equal; apply IH; rewrite length_skipn; cbn [length] in *; lia.
    + apply IH; cbn [length] in *; lia.
Qed.

(** ** Deduplication *)

Lemma truthy_Some l : truthy (Some l) = true <-> l <> [].
Proof. destruct l; simpl; split; congruence. Qed.

Lemma dedupStep_falsy m it : truthy (link it) = false -> dedupStep m it = m.
Proof.
  unfold dedupStep; intros H; destruct (link it); trivial.
  now rewrite H.
Qed.

Lemma dedup_fold_links items : forall m,
  (forall e, In e m -> link (snd e) = Some (fst e) /\ truthy (link (snd e)) = true) ->
  forall e, In e (fold_left dedupStep items m) ->
            link (snd e) = Some (fst e) /\ truthy (link (snd e)) = true.
Proof.
  induction items as [| it items IH]; simpl; intros m Hm e He; [now apply Hm |].
  apply IH in He; trivial.
  intros e' He'; unfold dedupStep in He'.
  destruct (link it) as [l |] eqn:El; [| now apply Hm].
  destruct (truthy (Some l) && negb (mapHas m l)) eqn:Ec; [| now apply Hm].
  apply in_app_iff in He' as [He' | [<- | []]]; [now apply Hm |].
  simpl; rewrite El; split; trivial.
  now apply andb_prop in Ec.
Qed.

(** Every item that leaves the dedup step has a link that is truthy. *)
Lemma uniqueValues_truthy items it :
  In it (uniqueValues items) -> truthy (link it) = true.
Proof.
  unfold uniqueValues, uniqueResults; intros H.
  apply in_map_iff in H as [e [<- He]].
  apply dedup_fold_links in He; [tauto | intros ? []].
Qed.

(** C1, corrected.  An item whose link is absent (or the empty string) is
    not treated as unique by deduplication: the guard [item.link && ...]
    leaves it out of [uniqueResults], so it never reaches the matching
    stage and no result of the cycle carries it.  It is not merged with
    any other item either: what deduplication keeps is the same with the
    item and without it. *)
Theorem dedup_discards_linkless (it : Item) (s : State) (before after : list Item) :
  truthy (link it) = false ->
  ~ In it (uniqueValues (before ++ it :: after))
  /\ uniqueResults (before ++ it :: after) = uniqueResults (before ++ after)
  /\ cycleResults s (before ++ it :: after) = cycleResults s (before ++ after).
Proof.
  intros H.
  assert (E : uniqueResults (before ++ it :: after) = uniqueResults (before ++ after)).
  { unfold uniqueResults; rewrite !fold_left_app; simpl.
    now rewrite dedupStep_falsy. }
  split; [| split; trivial].
  - intros Hin; apply uniqueValues_truthy in Hin; congruence.
  - unfold cycleResults, uniqueValues; now rewrite E.
Qed.

Lemma dedup_discards_linkless_witness :
  truthy (link SampleItems.linklessPost) = false
  /\ ~ In SampleItems.linklessPost
          (uniqueValues ([SampleItems.linkedPost] ++ SampleItems.linklessPost :: []))
  /\ uniqueResults ([SampleItems.linkedPost] ++ SampleItems.linklessPost :: [])
     = uniqueResults ([SampleItems.linkedPost] ++ [])
  /\ cycleResults SampleItems.piState
       ([SampleItems.linkedPost] ++ SampleItems.linklessPost :: [])
     = cycleResults SampleItems.piState ([SampleItems.linkedPost] ++ []).
Proof.
  split; [reflexivity |].
  apply (@dedup_discards_linkless SampleItems.linklessPost SampleItems.piState
           [SampleItems.linkedPost] []).
  reflexivity.
Defined.

(** The claim C1 as it is written fails: the only item of a cycle has no
    link and a text that holds the keyword, and the dedup step discards
    it, so that nothing is displayed. *)
Lemma linkless_item_is_discarded :
  link SampleItems.linklessPost = None
  /\ In SampleItems.linklessPost [SampleItems.linklessPost]
  /\ ~ In SampleItems.linklessPost (uniqueValues [SampleItems.linklessPost])
  /\ matchedKeywords (findAndHighlightKeywords (scannedText SampleItems.linklessPost)
                        (allKeywords SampleItems.piState)) = [lit "pi"]
  /\ cycleResults SampleItems.piState [SampleItems.linklessPost] = Done [].
Proof.
  repeat split; try reflexivity.
  - now left.
  - intros [].
Qed.

(** ** The limiter and ranker *)

Lemma limitedResults_fold final : forall acc n,
  fold_left pushResult final acc n = acc n ++ Spec.group final n.
Proof.
  induction final as [| r final IH]; simpl; intros acc n.
  - now rewrite app_nil_r.
  - rewrite IH; unfold pushResult at 1.
    destruct (source (res_item r)), n; simpl; rewrite <- ?app_assoc; reflexivity.
Qed.

Lemma limitedResults_group final n : limitedResults final n = Spec.group final n.
Proof. unfold limitedResults; now rewrite limitedResults_fold. Qed.

Lemma slice0_nonneg {A} (l : list A) n : (0 <= n)%Z -> slice0 l n = firstn (Z.to_nat n) l.
Proof.
  intros H; unfold slice0.
  destruct (n <? 0)%Z eqn:E; trivial.
  apply Z.ltb_lt in E; lia.
Qed.

Lemma limitFor_effectiveLimit s n : limitFor s n = Spec.effectiveLimit s n.
Proof. destruct n; reflexivity. Qed.

Lemma gatherResults_truncated s final :
  (forall n, 0 <= limitFor s n)%Z ->
  gatherResults s final = Spec.truncated s final.
Proof.
  intros H; unfold gatherResults, Spec.truncated.
  rewrite flat_map_concat_map; f_equal.
  apply map_ext; intros n.
  rewrite slice0_nonneg, limitedResults_group, limitFor_effectiveLimit by apply H.
  reflexivity.
Qed.

Lemma sortInsert_In x l z : In z (sortInsert byDateDesc x l) <-> z = x \/ In z l.
Proof.
  induction l as [| y l IH]; simpl; [intuition |].
  destruct (byDateDesc x y <=? 0)%Z; simpl; rewrite ?IH; intuition.
Qed.

Lemma sortInsert_sorted x l :
  StronglySorted (fun a b => (Spec.timestamp b <= Spec.timestamp a)%Z) l ->
  StronglySorted (fun a b => (Spec.timestamp b <= Spec.timestamp a)%Z)
                 (sortInsert byDateDesc x l).
Proof.
  induction 1 as [| y l Hs IH Hy]; simpl.
  - repeat constructor.
  - destruct (byDateDesc x y <=? 0)%Z eqn:E.
    + apply Z.leb_le in E; unfold byDateDesc in E.
      constructor; [now constructor |].
      constructor; [change (dateOrZero y <= dateOrZero x)%Z; lia |].
      rewrite Forall_forall in *; intros z Hz; specialize (Hy z Hz).
      change (dateOrZero z <= dateOrZero x)%Z.
      change (dateOrZero z <= dateOrZero y)%Z in Hy; lia.
    + apply Z.leb_gt in E; unfold byDateDesc in E.
      constructor; trivial.
      rewrite Forall_forall in *; intros z Hz.
      apply sortInsert_In in Hz as [-> | Hz]; [| now apply Hy].
      change (dateOrZero x <= dateOrZero y)%Z; lia.
Qed.

Lemma sortInsert_filter t x l :
  filter (Spec.hasTimestamp t) (sortInsert byDateDesc x l)
  = filter (Spec.hasTimestamp t) (x :: l).
Proof.
  induction l as [| y l IH]; trivial.
  cbn [sortInsert].
  destruct (byDateDesc x y <=? 0)%Z eqn:E; trivial.
  apply Z.leb_gt in E; unfold byDateDesc in E.
  cbn [filter]; rewrite IH; cbn [filter].
  destruct (Spec.hasTimestamp t y) eqn:Ey, (Spec.hasTimestamp t x) eqn:Ex; trivial.
  unfold Spec.hasTimestamp in Ey, Ex; apply Z.eqb_eq in Ey, Ex.
  change (Spec.timestamp y) with (dateOrZero y) in Ey.
  change (Spec.timestamp x) with (dateOrZero x) in Ex.
  lia.
Qed.

(** The sort of the program ranks its argument. *)
Lemma sort_ranked l : Spec.ranked l (sort byDateDesc l).
Proof.
  split.
  - induction l as [| x l IH]; simpl; [constructor | now apply sortInsert_sorted].
  - intros t; induction l as [| x l IH]; trivial.
    cbn [sort fold_right]; rewrite sortInsert_filter.
    cbn [filter]; fold (sort byDateDesc l); now rewrite IH.
Qed.

Lemma filter_nil_all {A} (f : A -> bool) l :
  filter f l = [] -> forall x, In x l -> f x = false.
Proof.
  intros H x Hx; destruct (f x) eqn:E; trivial.
  assert (Hin : In x (filter f l)) by (apply filter_In; auto).
  rewrite H in Hin; destruct Hin.
Qed.

Lemma hasTimestamp_self r : Spec.hasTimestamp (Spec.timestamp r) r = true.
Proof. apply Z.eqb_refl. Qed.

Lemma hasTimestamp_eq a b :
  Spec.timestamp b = Spec.timestamp a -> Spec.hasTimestamp (Spec.timestamp a) b = true.
Proof. intros H; now apply Z.eqb_eq. Qed.

(** There is one ranking of a list. *)
Lemma ranked_unique l out1 out2 :
  Spec.ranked l out1 -> Spec.ranked l out2 -> out1 = out2.
Proof.
  intros [S1 F1] [S2 F2].
  assert (F : forall t, filter (Spec.hasTimestamp t) out1 = filter (Spec.hasTimestamp t) out2)
    by (intros t; now rewrite F1, F2).
  clear F1 F2 l; revert out2 S2 F.
  induction S1 as [| a l1 S1 IH Ha]; intros out2 S2 F.
  - destruct out2 as [| b l2]; trivial.
    specialize (F (Spec.timestamp b)); cbn [filter] in F.
    rewrite hasTimestamp_self in F; discriminate F.
  - destruct out2 as [| b l2].
    + specialize (F (Spec.timestamp a)); cbn [filter] in F.
      rewrite hasTimestamp_self in F; discriminate F.
    + inversion S2 as [| ? ? S2' Hb]; subst.
      assert (Hle1 : (Spec.timestamp b <= Spec.timestamp a)%Z).
      { assert (Hin : In b (filter (Spec.hasTimestamp (Spec.timestamp b)) (a :: l1))).
        { rewrite F; cbn [filter]; rewrite hasTimestamp_self; now left. }
        apply filter_In in Hin as [[<- | Hin] _]; [lia |].
        rewrite Forall_forall in Ha; now apply Ha. }
      assert (Hle2 : (Spec.timestamp a <= Spec.timestamp b)%Z).
      { assert (Hin : In a (filter (Spec.hasTimestamp (Spec.timestamp a)) (b :: l2))).
        { rewrite <- F; cbn [filter]; rewrite hasTimestamp_self; now left. }
        apply filter_In in Hin as [[<- | Hin] _]; [lia |].
        rewrite Forall_forall in Hb; now apply Hb. }
      assert (Eab : a = b).
      { specialize (F (Spec.timestamp a)); cbn [filter] in F.
        rewrite hasTimestamp_self, hasTimestamp_eq in F by lia.
        now injection F. }
      subst b; f_equal; apply IH; trivial.
      intros t; specialize (F t); cbn [filter] in F.
      destruct (Spec.hasTimestamp t a); [now injection F | assumption].
Qed.

Lemma ranked_Permutation l out : Spec.ranked l out -> Permutation l out.
Proof.
  intros H.
  assert (E : out = sort byDateDesc l) by (eapply ranked_unique; [eassumption | apply sort_ranked]).
  subst out; clear H.
  induction l as [| x l IH]; simpl; [constructor |].
  fold (sort byDateDesc l).
  transitivity (x :: sort byDateDesc l); [now constructor |].
  generalize (sort byDateDesc l); intros m; clear.
  induction m as [| y m IH]; simpl; [reflexivity |].
  destruct (byDateDesc x y <=? 0)%Z; [reflexivity |].
  transitivity (y :: x :: m); [apply perm_swap | now constructor].
Qed.

(** C3.  With limits that are not negative, the list that is displayed
    is the one list that ranks the truncated groups: the matched items are
    grouped by source in their arrival order, each group is cut to the head
    of its effective limit (the per-source override when one is set, else
    the global limit), the groups are concatenated, and only then is the
    concatenation sorted by publish timestamp, latest first, an item
    without a timestamp counting as the epoch.  So the display is a
    permutation of the truncated items, and no item with a timestamp after
    the epoch comes after an item without a timestamp. *)
Theorem display_truncates_then_ranks (s : State) (final : list Result) :
  (forall n, 0 <= limitFor s n)%Z ->
  (forall out, Spec.ranked (Spec.truncated s final) out <-> out = displayResults s final)
  /\ Permutation (Spec.truncated s final) (displayResults s final)
  /\ (forall before a after b,
        displayResults s final = before ++ a :: after ->
        date (res_item a) = None -> In b after ->
        (Spec.timestamp b <= 0)%Z).
Proof.
  intros Hlim.
  assert (R : Spec.ranked (Spec.truncated s final) (displayResults s final)).
  { unfold displayResults; rewrite gatherResults_truncated by assumption.
    apply sort_ranked. }
  split; [| split].
  - intros out; split.
    + intros H; eapply ranked_unique; eassumption.
    + now intros ->.
  - now apply ranked_Permutation.
  - intros before a after b E Ha Hb.
    destruct R as [S _]; rewrite E in S.
    assert (S' : StronglySorted (fun x y => (Spec.timestamp y <= Spec.timestamp x)%Z)
                                (a :: after)).
    { clear - S; induction before as [| x before IH]; simpl in S; trivial.
      inversion S; auto. }
    inversion S' as [| ? ? _ Hall]; subst.
    rewrite Forall_forall in Hall; specialize (Hall b Hb).
    unfold Spec.timestamp at 2 in Hall; now rewrite Ha in Hall.
Qed.

Lemma display_truncates_then_ranks_witness :
  (forall n, 0 <= limitFor SampleCycle.twoFromReddit n)%Z
  /\ (forall out,
        Spec.ranked (Spec.truncated SampleCycle.twoFromReddit SampleCycle.matched) out
        <-> out = displayResults SampleCycle.twoFromReddit SampleCycle.matched)
  /\ Permutation (Spec.truncated SampleCycle.twoFromReddit SampleCycle.matched)
                 (displayResults SampleCycle.twoFromReddit SampleCycle.matched)
  /\ (forall before a after b,
        displayResults SampleCycle.twoFromReddit SampleCycle.matched
        = before ++ a :: after ->
        date (res_item a) = None -> In b after ->
        (Spec.timestamp b <= 0)%Z).
Proof.
  assert (H : (forall n, 0 <= limitFor SampleCycle.twoFromReddit n)%Z)
    by (intros []; vm_compute; discriminate).
  split; [exact H |].
  exact (@display_truncates_then_ranks SampleCycle.twoFromReddit SampleCycle.matched H).
Defined.

(** Five matched items, two at most from Reddit: the head of the Reddit
    group is kept, then the four items are ordered by time, the one
    without a timestamp last. *)
Example display_sample :
  Spec.truncated SampleCycle.twoFromReddit SampleCycle.matched
  = [SampleCycle.r1; SampleCycle.r2; SampleCycle.h1; SampleCycle.d1]
  /\ displayResults SampleCycle.twoFromReddit SampleCycle.matched
     = [SampleCycle.r2; SampleCycle.h1; SampleCycle.r1; SampleCycle.d1].
Proof. split; reflexivity. Qed.

(** ** Partial failure of a fetch cycle *)

Lemma appendLines_nil w : appendLines [] w = w.
Proof. destruct w; unfold appendLines; simpl; now rewrite app_nil_r. Qed.

Lemma appendLines_app l1 l2 w : appendLines l2 (appendLines l1 w) = appendLines (l1 ++ l2) w.
Proof. unfold appendLines; simpl; now rewrite app_assoc. Qed.

Lemma log_appendLines t w : log t w = appendLines [t] w.
Proof. reflexivity. Qed.

Lemma runTask_lines env t w :
  runTask env t w = (appendLines (errorLines env t) w, settledItems env t).
Proof.
  unfold errorLines, settledItems.
  destruct t as [src kw | kw]; simpl; unfold fetchRss, scrapeDuckDuckGo.
  - destruct (parseURL env src kw); simpl; now rewrite ?appendLines_nil.
  - destruct (httpGet env kw); simpl; now rewrite ?appendLines_nil.
Qed.

Lemma settledItems_failed env t : taskFails env t = true -> settledItems env t = [].
Proof.
  unfold settledItems.
  destruct t as [src kw | kw]; simpl; unfold fetchRss, scrapeDuckDuckGo.
  - destruct (parseURL env src kw); [discriminate | reflexivity].
  - destruct (httpGet env kw); [discriminate | reflexivity].
Qed.

Lemma settledItems_soften env t : settledItems (soften env) t = settledItems env t.
Proof.
  unfold settledItems.
  destruct t as [src kw | kw]; simpl; unfold fetchRss, scrapeDuckDuckGo; simpl.
  - destruct (parseURL env src kw); reflexivity.
  - destruct (httpGet env kw); reflexivity.
Qed.

Lemma flat_map_skip_failed env tasks :
  flat_map (settledItems env) tasks
  = flat_map (settledItems env) (filter (fun t => negb (taskFails env t)) tasks).
Proof.
  induction tasks as [| t tasks IH]; simpl; trivial.
  destruct (taskFails env t) eqn:E; simpl; rewrite IH; trivial.
  now rewrite settledItems_failed.
Qed.

Lemma renderResult_lines env r w :
  renderResult env r w
  = appendLines (outputLines (renderResult env r (clearOutput Sample.freshWorld))) w.
Proof.
  unfold renderResult.
  destruct (source (res_item r)), (res_matchedKeywords r);
    unfold log, appendLines; simpl; rewrite <- ?app_assoc; reflexivity.
Qed.

Lemma fold_render_lines env results : forall w,
  fold_left (fun w result => renderResult env result w) results w
  = appendLines
      (outputLines (fold_left (fun w result => renderResult env result w) results
                              (clearOutput Sample.freshWorld))) w.
Proof.
  induction results as [| r results IH]; simpl; intros w.
  - now rewrite appendLines_nil.
  - rewrite IH, (IH (renderResult _ _ (clearOutput _))).
    rewrite (renderResult_lines env r w), appendLines_app.
    rewrite (renderResult_lines env r (clearOutput _)); reflexivity.
Qed.

Lemma renderResults_lines env results w :
  renderResults env results w = appendLines (renderedLines env results) w.
Proof.
  unfold renderedLines, renderResults.
  rewrite fold_render_lines, (fold_render_lines _ _ (match results with [] => _ | _ => _ end)).
  destruct results; [reflexivity |].
  rewrite log_appendLines, appendLines_app; reflexivity.
Qed.

Lemma cycleResults_ext s1 s2 items :
  keywords s1 = keywords s2 -> limits s1 = limits s2 ->
  globalResultLimit s1 = globalResultLimit s2 ->
  cycleResults s1 items = cycleResults s2 items.
Proof.
  intros K L G.
  unfold cycleResults, displayResults, gatherResults, allKeywords, limitFor.
  now rewrite K, L, G.
Qed.

(** *** The answers to the requests of a cycle *)

Lemma fetchFinish_Done env header items w results :
  cycleResults (state w) items = Done results ->
  fetchFinish env header items w
  = Returned (updateStatusBar
                (setFetching false
                   (appendLines (headerLines header ++ renderedLines env results) w))).
Proof.
  intros E; unfold fetchFinish; rewrite E.
  rewrite renderResults_lines.
  destruct header; [reflexivity |].
  rewrite log_appendLines, appendLines_app; reflexivity.
Qed.

Lemma fetchFinish_Thrown env header items w message :
  cycleResults (state w) items = Thrown message ->
  fetchFinish env header items w = Threw message w.
Proof. intros E; unfold fetchFinish; now rewrite E. Qed.

Lemma answer_pending env n w flight t :
  inFlight w = Some flight ->
  nth_error (fl_requests flight) n = Some (t, None) ->
  answer env n w
  = match allSettled (settleNth n (settledItems env t) (fl_requests flight)) with
    | Some allResultsRaw =>
      fetchFinish env (fl_header flight) allResultsRaw
                  (withInFlight (appendLines (errorLines env t) w) None)
    | None =>
      Returned (withInFlight (appendLines (errorLines env t) w)
                  (Some {| fl_header := fl_header flight;
                           fl_requests :=
                             settleNth n (settledItems env t) (fl_requests flight) |}))
    end.
Proof.
  intros E1 E2; unfold answer; rewrite E1, E2, runTask_lines; reflexivity.
Qed.

Lemma allSettled_None requests :
  allSettled requests = None <-> hasPending requests = true.
Proof.
  unfold hasPending; induction requests as [| [t [items |]] rest IH]; cbn.
  - split; discriminate.
  - destruct (allSettled rest); [| exact IH].
    split; [discriminate |].
    intros H; apply IH in H; discriminate H.
  - split; trivial.
Qed.

Lemma appendLines_withInFlight l1 l2 w p :
  appendLines l2 (withInFlight (appendLines l1 w) p)
  = withInFlight (appendLines (l1 ++ l2) w) p.
Proof. unfold appendLines, withInFlight; simpl; now rewrite app_assoc. Qed.

(** What the answer to a request does to the world. *)
Lemma answer_cases env n w :
  answer env n w = Returned w
  \/ (exists l flight,
        answer env n w = Returned (withInFlight (appendLines l w) (Some flight))
        /\ inFlight w <> None /\ hasPending (fl_requests flight) = true)
  \/ (exists l,
        answer env n w
        = Returned (updateStatusBar
                      (setFetching false (withInFlight (appendLines l w) None)))
        /\ inFlight w <> None)
  \/ (exists l message,
        answer env n w = Threw message (withInFlight (appendLines l w) None)
        /\ inFlight w <> None).
Proof.
  destruct (inFlight w) as [flight |] eqn:E1; [| left; unfold answer; now rewrite E1].
  destruct (nth_error (fl_requests flight) n) as [[t [items |]] |] eqn:E2;
    try (left; unfold answer; now rewrite E1, E2).
  right; rewrite (answer_pending env n w E1 E2).
  destruct (allSettled _) as [items |] eqn:Es.
  - right.
    destruct (cycleResults (state (withInFlight (appendLines (errorLines env t) w) None))
                           items) as [results | message] eqn:Ec.
    + left; rewrite (fetchFinish_Done env _ _ _ Ec).
      exists (errorLines env t
                ++ headerLines (fl_header flight) ++ renderedLines env results).
      split; [| discriminate].
      now rewrite appendLines_withInFlight.
    + right; rewrite (fetchFinish_Thrown env _ _ _ Ec).
      exists (errorLines env t), message; split; [reflexivity | discriminate].
  - left; eexists _, _; split; [reflexivity | split; [discriminate |]].
    now apply allSettled_None.
Qed.

(** C4, a defect of the code.  The adapters do catch their errors: a
    request that fails is logged and counts as an empty list.  But the
    continuation of the cycle reads [item.title.length] of every item in
    which a keyword is found, and a feed item need not have a title.  In
    the cycle for [pi] on Reddit and on Hacker News in which the request to
    Reddit fails and Hacker News answers with an item without a title
    whose snippet holds [Pi], the continuation throws whatever the order
    of the answers: nothing is displayed, no header either, the error is
    caught nowhere, and the busy flag stays up, so that a [fetch] typed
    afterwards starts no cycle.  With the same answers and a title on the
    item the cycle ends and displays the item. *)
Theorem untitled_match_aborts_the_cycle :
  allFetchTasks (state SampleCycle.piEverywhere)
  = [RssTask Reddit (lit "pi"); RssTask HackerNews (lit "pi")]
  /\ isFetching (state SampleCycle.piEverywhere) = false
  /\ taskFails SampleCycle.untitledEnv (RssTask Reddit (lit "pi")) = true
  /\ parseURL SampleCycle.untitledEnv HackerNews (lit "pi")
     = Ok [SampleCycle.untitledEntry]
  /\ settledItems SampleCycle.untitledEnv (RssTask HackerNews (lit "pi"))
     = [SampleCycle.untitledItem]
  /\ fetchAllData SampleCycle.untitledEnv [0; 1] updateComplete SampleCycle.piEverywhere
     = Threw noLength SampleCycle.stuck
  /\ fetchAllData SampleCycle.untitledEnv [1; 0] updateComplete SampleCycle.piEverywhere
     = Threw noLength SampleCycle.stuck
  /\ isFetching (state SampleCycle.stuck) = true
  /\ inFlight SampleCycle.stuck = None
  /\ outputLines SampleCycle.stuck
     = [lit "{yellow-fg}Checking for new items...{/yellow-fg}";
        lit "{red-fg}Error fetching Reddit: connect ETIMEDOUT{/red-fg}"]
  /\ handleCommand (lit "fetch") SampleCycle.stuck = Returned SampleCycle.stuck
  /\ exists w,
       fetchAllData SampleCycle.flakyEnv [0; 1] updateComplete SampleCycle.piEverywhere
       = Returned w
       /\ isFetching (state w) = false
       /\ outputLines w
          = [lit "{yellow-fg}Checking for new items...{/yellow-fg}";
             lit "{red-fg}Error fetching Reddit: connect ETIMEDOUT{/red-fg}";
             lit "{bold}--- Update Complete ---{/bold}";
             lit "Displaying 1 results.";
             lit "{green-fg}{bold}[Hacker News]{/bold}";
             lit "  Raspberry Pi 5";
             lit "  Keywords: {bold}" ++ quoted (lit "pi") ++ lit "{/bold}";
             lit "  }Pi{/bold} 5 is great";
             lit "  {gray-fg}https:http://h/9{/gray-fg}";
             []].
Proof.
  repeat (split; [vm_compute; reflexivity |]).
  eexists; split; [vm_compute; reflexivity | split; vm_compute; reflexivity].
Qed.

(** ** Saving and loading the configuration *)

Lemma assoc_assocSet {B} k (v : B) l : assoc k (assocSet k v l) = Some v.
Proof.
  induction l as [| [k' v'] l IH]; simpl.
  - now rewrite str_eqb_refl.
  - destruct (str_eqb k k') eqn:E; simpl; rewrite ?str_eqb_refl, ?E; trivial.
Qed.

Lemma readFile_writeFile f name c f' :
  writeFile f name c = inl f' -> readFile f' name = Some c.
Proof.
  unfold writeFile, readFile.
  destruct (assoc name (unwritable f)); [discriminate |].
  intros E; injection E as <-; apply assoc_assocSet.
Qed.

(** C6.  Loading a file whose JSON object lacks the keyword sets, the
    limits map or the [fetchIntervalMinutes] field fails in [applyState]
    with the error of a corrupt settings file; [loadState] shows that
    error on the output and changes nothing else: the state and the files
    are those from before the load. *)
Theorem load_malformed_changes_nothing (filename : str) (d : SavedData) (w : World) :
  readFile (fs w) filename = Some (JsonText d) ->
  sd_keywords d = None \/ sd_limits d = None \/ sd_fetchIntervalMinutes d = None ->
  applyState d w = inr invalidSettings
  /\ loadState filename w = log (loadError filename invalidSettings) w
  /\ state (loadState filename w) = state w
  /\ fs (loadState filename w) = fs w
  /\ outputLines (loadState filename w)
     = outputLines w ++ [lit "{red-fg}Error loading state from " ++ filename
                           ++ lit ": Invalid or corrupt settings file.{/red-fg}"].
Proof.
  intros Hread Hmissing.
  assert (E : applyState d w = inr invalidSettings).
  { unfold applyState.
    destruct (sd_keywords d), (sd_limits d), (sd_fetchIntervalMinutes d); trivial.
    destruct Hmissing as [H | [H | H]]; discriminate H. }
  assert (L : loadState filename w = log (loadError filename invalidSettings) w).
  { unfold loadState; now rewrite Hread, E. }
  split; [assumption | split; [assumption |]].
  rewrite L; repeat split.
Qed.

Lemma load_malformed_changes_nothing_witness :
  readFile (fs SampleFiles.worldWithBroken) SampleFiles.brokenName
  = Some (JsonText SampleFiles.noInterval)
  /\ (sd_keywords SampleFiles.noInterval = None
      \/ sd_limits SampleFiles.noInterval = None
      \/ sd_fetchIntervalMinutes SampleFiles.noInterval = None)
  /\ applyState SampleFiles.noInterval SampleFiles.worldWithBroken = inr invalidSettings
  /\ loadState SampleFiles.brokenName SampleFiles.worldWithBroken
     = log (loadError SampleFiles.brokenName invalidSettings) SampleFiles.worldWithBroken
  /\ state (loadState SampleFiles.brokenName SampleFiles.worldWithBroken)
     = state SampleFiles.worldWithBroken
  /\ fs (loadState SampleFiles.brokenName SampleFiles.worldWithBroken)
     = fs SampleFiles.worldWithBroken
  /\ outputLines (loadState SampleFiles.brokenName SampleFiles.worldWithBroken)
     = outputLines SampleFiles.worldWithBroken
         ++ [lit "{red-fg}Error loading state from " ++ SampleFiles.brokenName
               ++ lit ": Invalid or corrupt settings file.{/red-fg}"].
Proof.
  split; [reflexivity | split; [right; right; reflexivity |]].
  apply (@load_malformed_changes_nothing SampleFiles.brokenName SampleFiles.noInterval
           SampleFiles.worldWithBroken).
  - reflexivity.
  - right; right; reflexivity.
Defined.

(** The configuration of a state: what a save and a load should keep. *)
Lemma save_then_load f w :
  assoc f (unwritable (fs w)) = None ->
  loadState f (fst (saveState f w))
  = log (lit "{green-fg}Successfully loaded settings from " ++ f ++ lit "{/green-fg}")
      (updateStatusBar (restartFetchInterval
         (withState (fst (saveState f w))
            {| keywords :=
                 {| kw_reddit := set_from (kw_reddit (keywords (state w)));
                    kw_hn := set_from (kw_hn (keywords (state w)));
                    kw_ddg := set_from (kw_ddg (keywords (state w))) |};
               limits := limits (state w);
               globalResultLimit := orTen (Some (globalResultLimit (state w)));
               isFetching := isFetching (state w);
               fetchIntervalId := fetchIntervalId (state w);
               fetchIntervalMinutes := fetchIntervalMinutes (state w) |}))).
Proof.
  intros Hw; unfold saveState, loadState.
  destruct (writeFile (fs w) f (JsonText (savableState (state w)))) as [f' | m] eqn:E.
  - cbn [fst fs withFs]; rewrite (readFile_writeFile _ _ _ E).
    reflexivity.
  - unfold writeFile in E; rewrite Hw in E; discriminate E.
Qed.

(** Saving and loading keeps the keyword sets, the limits and the interval
    of every configuration whose global limit is not zero. *)
Lemma save_load_roundtrip_nonzero f w :
  assoc f (unwritable (fs w)) = None ->
  NoDup (kw_reddit (keywords (state w))) ->
  NoDup (kw_hn (keywords (state w))) ->
  NoDup (kw_ddg (keywords (state w))) ->
  globalResultLimit (state w) <> 0%Z ->
  let w' := loadState f (fst (saveState f w)) in
  keywords (state w') = keywords (state w)
  /\ limits (state w') = limits (state w)
  /\ globalResultLimit (state w') = globalResultLimit (state w)
  /\ fetchIntervalMinutes (state w') = fetchIntervalMinutes (state w).
Proof.
  intros Hw Hr Hh Hd Hz; cbv zeta; rewrite save_then_load by assumption.
  cbn; rewrite !set_from_NoDup_id by assumption.
  repeat split.
  - destruct (state w) as [[r h d] ? ? ? ? ?]; reflexivity.
  - apply Z.eqb_neq in Hz; now rewrite Hz.
Qed.

(** C5, a defect of the code.  [set list 0] is accepted and makes the
    global limit zero; that configuration is saved with the limit 0, and
    loading the file gives the global limit 10, because [applyState] reads
    the field with [|| 10].  The keyword sets, the per-source limits and
    the interval do come back. *)
Theorem save_load_loses_zero_limit :
  globalResultLimit (state SampleFiles.zeroLimitWorld) = 0%Z
  /\ readFile (fs SampleFiles.savedZero) SampleFiles.workName
     = Some (JsonText (savableState (state SampleFiles.zeroLimitWorld)))
  /\ sd_globalResultLimit (savableState (state SampleFiles.zeroLimitWorld)) = Some 0%Z
  /\ globalResultLimit (state (loadState SampleFiles.workName SampleFiles.savedZero))
     = 10%Z
  /\ keywords (state (loadState SampleFiles.workName SampleFiles.savedZero))
     = keywords (state SampleFiles.zeroLimitWorld)
  /\ limits (state (loadState SampleFiles.workName SampleFiles.savedZero))
     = limits (state SampleFiles.zeroLimitWorld)
  /\ fetchIntervalMinutes (state (loadState SampleFiles.workName SampleFiles.savedZero))
     = fetchIntervalMinutes (state SampleFiles.zeroLimitWorld).
Proof. repeat split; reflexivity. Qed.

(** ** Keyword commands *)

Lemma tokenize_nil : tokenize [] = [].
Proof. reflexivity. Qed.

Lemma parseCommand_nonempty c r : parseCommand c = Some r -> c <> [].
Proof. intros H ->; discriminate H. Qed.

Lemma handleCommand_parsed c action args w :
  parseCommand c = Some (action, args) ->
  handleCommand c w = dispatch c action args w.
Proof.
  intros H; unfold handleCommand.
  destruct c; [discriminate H | now rewrite H].
Qed.

Lemma startsWith_plus scope : startsWith (lit "+" ++ scope) (lit "+") = true.
Proof. reflexivity. Qed.

Lemma startsWith_minus scope : startsWith (lit "-" ++ scope) (lit "+") = false.
Proof. reflexivity. Qed.

Lemma dispatch_plus c scope args w :
  dispatch c (lit "+" ++ scope) args w = keywordCommand (lit "+" ++ scope) args w.
Proof. unfold dispatch; now rewrite startsWith_plus. Qed.

Lemma dispatch_minus c scope args w :
  dispatch c (lit "-" ++ scope) args w = keywordCommand (lit "-" ++ scope) args w.
Proof.
  unfold dispatch; rewrite startsWith_minus.
  replace (startsWith (lit "-" ++ scope) (lit "-")) with true by reflexivity.
  reflexivity.
Qed.

Lemma state_autosaveState w : state (autosaveState w) = state w.
Proof.
  unfold autosaveState, saveState.
  destruct (writeFile _ _ _); reflexivity.
Qed.

Lemma keywords_fetchStart h w : keywords (state (fetchStart h w)) = keywords (state w).
Proof.
  unfold fetchStart.
  destruct (isFetching (state w)); trivial.
  destruct (allFetchTasks _); reflexivity.
Qed.

Lemma outputLines_autosaveState w :
  exists more, outputLines (autosaveState w) = outputLines w ++ more.
Proof.
  unfold autosaveState, saveState.
  destruct (writeFile _ _ _); simpl.
  - exists []; now rewrite app_nil_r.
  - eexists; reflexivity.
Qed.

Lemma outputLines_fetchStart h w :
  exists more, outputLines (fetchStart h w) = outputLines w ++ more.
Proof.
  unfold fetchStart.
  destruct (isFetching (state w)).
  - exists []; now rewrite app_nil_r.
  - destruct (allFetchTasks _); simpl; rewrite <- ?app_assoc; eexists; reflexivity.
Qed.

(** What a keyword command does to the keyword sets and to the output. *)
Lemma keywordCommand_spec action args w :
  exists w',
    keywordCommand action args w = Returned w'
    /\ keywords (state w') =
       updateKeywords (startsWith action (lit "+")) (targetSourcesOf (substring 1 action))
                      args (keywords (state w))
    /\ exists more,
         outputLines w' =
         outputLines w ++ lit "{green-fg}Keywords updated.{/green-fg}" :: more.
Proof.
  unfold keywordCommand, finishCommand.
  eexists; split; [reflexivity | split].
  - cbn [state updateStatusBar]; rewrite state_autosaveState, keywords_fetchStart.
    reflexivity.
  - cbn [outputLines updateStatusBar].
    match goal with |- context [autosaveState ?x] =>
      destruct (outputLines_autosaveState x) as [m1 ->] end.
    match goal with |- context [fetchStart ?h ?x] =>
      destruct (outputLines_fetchStart h x) as [m2 ->] end.
    cbn [outputLines log withState]; rewrite <- !app_assoc; simpl.
    eexists; reflexivity.
Qed.

Lemma kwGet_kwSet k s v s' :
  kwGet (kwSet k s v) s' = if SourceKey_eqb s s' then v else kwGet k s'.
Proof. destruct s, s'; reflexivity. Qed.

Lemma kwSet_kwGet k s : kwSet k s (kwGet k s) = k.
Proof. destruct k, s; reflexivity. Qed.

Lemma kwSet_kwSet k s v v' : kwSet (kwSet k s v) s v' = kwSet k s v'.
Proof. destruct s; reflexivity. Qed.

Lemma set_add_then_delete l k : ~ In k l -> set_delete (set_add l k) k = l.
Proof.
  intros H; unfold set_add.
  destruct (set_has l k) eqn:E; [apply set_has_In in E; contradiction |].
  rewrite set_delete_app, set_delete_absent; trivial.
  unfold set_delete; simpl; rewrite str_eqb_refl; simpl; apply app_nil_r.
Qed.

Lemma targetSourcesOf_cases scope :
  (exists s, targetSourcesOf scope = [s]) \/ targetSourcesOf scope = sources.
Proof.
  unfold targetSourcesOf; destruct (sourceOfName scope); eauto.
Qed.

(** Adding a keyword that the sets of the scope do not hold, then removing
    it, gives back the keyword sets. *)
Lemma add_then_delete_keywords targets k K :
  (exists s, targets = [s]) \/ targets = sources ->
  (forall s, In s targets -> ~ In k (kwGet K s)) ->
  updateKeywords false targets [k] (updateKeywords true targets [k] K) = K.
Proof.
  intros [[s ->] | ->] H; unfold updateKeywords, updateKeyword; simpl.
  - rewrite kwGet_kwSet.
    replace (SourceKey_eqb s s) with true by (destruct s; reflexivity).
    rewrite kwSet_kwSet, set_add_then_delete by (apply H; simpl; auto).
    apply kwSet_kwGet.
  - destruct K as [r h d]; unfold kwSet, kwGet; simpl.
    rewrite !set_add_then_delete; trivial.
    + apply (H ddg); simpl; auto.
    + apply (H hn); simpl; auto.
    + apply (H reddit); simpl; auto.
Qed.

(** C7, corrected.  For every keyword [k] and every source scope (a source
    name, or anything else for all sources) such that no keyword set of
    the scope holds [k] yet, the command that adds [k] to the scope
    followed by the command that removes it leaves every keyword set
    exactly as it was before the add. *)
Theorem add_then_remove_restores (scope k addCmd removeCmd : str) (w : World) :
  parseCommand addCmd = Some (lit "+" ++ scope, [k]) ->
  parseCommand removeCmd = Some (lit "-" ++ scope, [k]) ->
  (forall s, In s (targetSourcesOf scope) -> ~ In k (kwGet (keywords (state w)) s)) ->
  keywords (state (worldOf (handleCommand removeCmd (worldOf (handleCommand addCmd w)))))
  = keywords (state w).
Proof.
  intros Ha Hr Hfresh.
  rewrite (@handleCommand_parsed addCmd _ _ w Ha), dispatch_plus.
  destruct (keywordCommand_spec (lit "+" ++ scope) [k] w) as [w1 [E1 [K1 _]]].
  rewrite E1; cbn [worldOf].
  rewrite (@handleCommand_parsed removeCmd _ _ w1 Hr), dispatch_minus.
  destruct (keywordCommand_spec (lit "-" ++ scope) [k] w1) as [w2 [E2 [K2 _]]].
  rewrite E2; cbn [worldOf].
  rewrite K2, K1, startsWith_plus, startsWith_minus.
  change (substring 1 (lit "+" ++ scope)) with scope.
  change (substring 1 (lit "-" ++ scope)) with scope.
  apply add_then_delete_keywords; [apply targetSourcesOf_cases | assumption].
Qed.

Lemma add_then_remove_restores_witness :
  parseCommand Sample.addRedditPi = Some (lit "+" ++ lit "reddit", [lit "pi"])
  /\ parseCommand Sample.removeRedditPi = Some (lit "-" ++ lit "reddit", [lit "pi"])
  /\ keywords (state (worldOf (handleCommand Sample.removeRedditPi
                        (worldOf (handleCommand Sample.addRedditPi Sample.freshWorld)))))
     = keywords (state Sample.freshWorld).
Proof.
  split; [reflexivity | split; [reflexivity |]].
  apply (@add_then_remove_restores (lit "reddit") (lit "pi")); try reflexivity.
  intros s [<- | []]; simpl; tauto.
Defined.

(** The claim C7 as it is written fails when the set already holds the
    keyword: the add changes nothing and the remove deletes it. *)
Lemma add_then_remove_loses_present_keyword :
  kw_reddit (keywords (state Sample.piWorld)) = [lit "pi"]
  /\ kw_reddit (keywords (state
        (worldOf (handleCommand Sample.removeRedditPi
                    (worldOf (handleCommand Sample.addRedditPi Sample.piWorld)))))) = []
  /\ keywords (state
        (worldOf (handleCommand Sample.removeRedditPi
                    (worldOf (handleCommand Sample.addRedditPi Sample.piWorld)))))
     <> keywords (state Sample.piWorld).
Proof.
  split; [reflexivity | split; [reflexivity | discriminate]].
Qed.

(** C8, a defect of the code.  The command [+foo kw] names an unknown
    source; the keyword branch takes every token that is not a source name
    for the scope of all sources.  Run on the world at startup it reports
    no error: it adds the keyword to the three keyword sets, logs that the
    keywords were updated, starts a fetch cycle and writes the settings
    file.  The limit command [~foo 3] is the sibling that does reject the
    unknown source and changes nothing. *)
Theorem unknown_source_add_mutates_and_saves :
  parseCommand Sample.addFooKw = Some (lit "+foo", [lit "kw"])
  /\ sourceOfName (lit "foo") = None
  /\ keywords (state Sample.freshWorld)
     = {| kw_reddit := []; kw_hn := []; kw_ddg := [] |}
  /\ keywords (state (worldOf (handleCommand Sample.addFooKw Sample.freshWorld)))
     = {| kw_reddit := [lit "kw"]; kw_hn := [lit "kw"]; kw_ddg := [lit "kw"] |}
  /\ outputLines (worldOf (handleCommand Sample.addFooKw Sample.freshWorld))
     = [lit "{green-fg}Keywords updated.{/green-fg}";
        lit "{yellow-fg}Checking for new items...{/yellow-fg}"]
  /\ readFile (fs Sample.freshWorld) DEFAULT_SETTINGS_FILE = None
  /\ readFile (fs (worldOf (handleCommand Sample.addFooKw Sample.freshWorld)))
              DEFAULT_SETTINGS_FILE
     = Some (JsonText (savableState
               (state (worldOf (handleCommand Sample.addFooKw Sample.freshWorld)))))
  /\ handleCommand (lit "~foo 3") Sample.freshWorld
     = Returned (log (lit "{red-fg}Invalid source: foo{/red-fg}") Sample.freshWorld).
Proof. repeat split; reflexivity. Qed.

Lemma updateKeyword_true_In targets K k :
  forall s, In s targets -> In k (kwGet (updateKeyword true targets K k) s).
Proof.
  unfold updateKeyword.
  revert K; induction targets as [| t targets IH]; intros K s Hs; [destruct Hs |].
  simpl.
  assert (Hmono : forall ts K0 s0, In k (kwGet K0 s0) ->
            In k (kwGet (fold_left (fun k0 s1 => kwSet k0 s1 (set_add (kwGet k0 s1) k)) ts K0) s0)).
  { induction ts as [| t1 ts IHts]; simpl; intros K0 s0 H0; trivial.
    apply IHts; rewrite kwGet_kwSet.
    destruct (SourceKey_eqb t1 s0); [apply set_add_In; auto | assumption]. }
  destruct Hs as [-> | Hs].
  - apply Hmono; rewrite kwGet_kwSet.
    replace (SourceKey_eqb s s) with true by (destruct s; reflexivity).
    apply set_add_In; auto.
  - now apply IH.
Qed.

Lemma updateKeyword_true_keeps targets k x : forall K s,
  In x (kwGet K s) -> In x (kwGet (updateKeyword true targets K k) s).
Proof.
  unfold updateKeyword; induction targets as [| t targets IH]; simpl; intros K s H; trivial.
  apply IH; rewrite kwGet_kwSet.
  destruct (SourceKey_eqb t s) eqn:E; trivial.
  destruct t, s; try discriminate E; apply set_add_In; auto.
Qed.

Lemma updateKeywords_true_In targets args k : forall K s,
  In k args -> In s targets ->
  In k (kwGet (updateKeywords true targets args K) s).
Proof.
  unfold updateKeywords; induction args as [| a args IH]; simpl; intros K s Hk Hs;
    [destruct Hk |].
  destruct Hk as [-> | Hk]; [| now apply IH].
  assert (Hkeep : forall l K0, In k (kwGet K0 s) ->
            In k (kwGet (fold_left (updateKeyword true targets) l K0) s)).
  { induction l as [| b l IHl]; simpl; intros K0 H0; trivial.
    now apply IHl, updateKeyword_true_keeps. }
  now apply Hkeep, updateKeyword_true_In.
Qed.

Lemma set_add_present s k : In k s -> set_add s k = s.
Proof. intros H; unfold set_add; apply set_has_In in H; now rewrite H. Qed.

Lemma set_add_idem s k : set_add (set_add s k) k = set_add s k.
Proof. apply set_add_present, set_add_In; now right. Qed.

Lemma fold_set_add_fixed args : forall s,
  fold_left set_add args s = s <-> forall k, In k args -> In k s.
Proof.
  intros s; split.
  - intros E k Hk; rewrite <- E; apply fold_set_add_In; now right.
  - revert s; induction args as [| a args IH]; intros s H; [reflexivity |].
    cbn [fold_left]; rewrite set_add_present by (apply H; now left).
    apply IH; intros k Hk; apply H; now right.
Qed.

Lemma inScope_In s targets : existsb (SourceKey_eqb s) targets = true <-> In s targets.
Proof.
  rewrite existsb_exists; split.
  - intros [x [Hx E]]; destruct s, x; try discriminate E; exact Hx.
  - intros H; exists s; split; [exact H | destruct s; reflexivity].
Qed.

Lemma updateKeyword_true_get targets k s : forall K,
  kwGet (updateKeyword true targets K k) s
  = if existsb (SourceKey_eqb s) targets then set_add (kwGet K s) k else kwGet K s.
Proof.
  unfold updateKeyword; induction targets as [| t targets IH]; intros K; [reflexivity |].
  cbn [fold_left existsb]; rewrite IH, kwGet_kwSet.
  destruct (SourceKey_eqb t s) eqn:E.
  - assert (t = s) by (destruct t, s; try discriminate E; reflexivity); subst t.
    replace (SourceKey_eqb s s) with true by (destruct s; reflexivity).
    cbn [orb]; destruct (existsb _ targets); [apply set_add_idem | reflexivity].
  - replace (SourceKey_eqb s t) with false by (destruct t, s; try discriminate E; reflexivity).
    reflexivity.
Qed.

Lemma updateKeywords_true_get targets args s : forall K,
  kwGet (updateKeywords true targets args K) s
  = if existsb (SourceKey_eqb s) targets then fold_left set_add args (kwGet K s)
    else kwGet K s.
Proof.
  unfold updateKeywords; induction args as [| a args IH]; intros K; cbn [fold_left].
  - now destruct (existsb _ targets).
  - rewrite IH, updateKeyword_true_get.
    now destruct (existsb _ targets).
Qed.

(** C9, corrected.  An add command neither trims nor rejects a keyword
    argument, be it empty or white space only: it returns normally and
    reports that the keywords were updated.  Afterwards every keyword set
    of its scope holds what it held before and, added behind in their
    order, the arguments it did not hold, each as [handleCommand] reads
    it: the token without its quote characters.  The sets outside the
    scope are as they were.  So a keyword set stays as it was exactly
    when it is outside the scope or held every argument already; no set
    changes when the command has no argument. *)
Theorem add_keeps_every_argument (scope addCmd : str) (args : list str) (w : World) :
  parseCommand addCmd = Some (lit "+" ++ scope, args) ->
  exists w',
    handleCommand addCmd w = Returned w'
    /\ (forall k s, In k args -> In s (targetSourcesOf scope) ->
                    In k (kwGet (keywords (state w')) s))
    /\ (args = [] -> keywords (state w') = keywords (state w))
    /\ (forall s,
          kwGet (keywords (state w')) s
          = if existsb (SourceKey_eqb s) (targetSourcesOf scope)
            then fold_left set_add args (kwGet (keywords (state w)) s)
            else kwGet (keywords (state w)) s)
    /\ (forall s x,
          In x (kwGet (keywords (state w')) s)
          <-> In x (kwGet (keywords (state w)) s)
              \/ (In s (targetSourcesOf scope) /\ In x args))
    /\ (forall s,
          kwGet (keywords (state w')) s = kwGet (keywords (state w)) s
          <-> (In s (targetSourcesOf scope) ->
               forall k, In k args -> In k (kwGet (keywords (state w)) s)))
    /\ exists more,
         outputLines w' =
         outputLines w ++ lit "{green-fg}Keywords updated.{/green-fg}" :: more.
Proof.
  intros Hp.
  rewrite (@handleCommand_parsed addCmd _ _ w Hp), dispatch_plus.
  destruct (keywordCommand_spec (lit "+" ++ scope) args w) as [w' [E [K L]]].
  rewrite startsWith_plus in K.
  change (substring 1 (lit "+" ++ scope)) with scope in K.
  assert (G : forall s,
            kwGet (keywords (state w')) s
            = if existsb (SourceKey_eqb s) (targetSourcesOf scope)
              then fold_left set_add args (kwGet (keywords (state w)) s)
              else kwGet (keywords (state w)) s)
    by (intros s; rewrite K; apply updateKeywords_true_get).
  exists w'; split; [assumption |].
  split; [| split; [| split; [exact G | split; [| split; [| assumption]]]]].
  - intros k s Hk Hs; rewrite K; now apply updateKeywords_true_In.
  - intros ->; rewrite K; reflexivity.
  - intros s x; rewrite G.
    destruct (existsb (SourceKey_eqb s) (targetSourcesOf scope)) eqn:Es.
    + apply inScope_In in Es; rewrite fold_set_add_In; tauto.
    + assert (Hn : ~ In s (targetSourcesOf scope))
        by (intros H; apply inScope_In in H; congruence).
      tauto.
  - intros s; rewrite G.
    destruct (existsb (SourceKey_eqb s) (targetSourcesOf scope)) eqn:Es.
    + apply inScope_In in Es; rewrite fold_set_add_fixed; tauto.
    + assert (Hn : ~ In s (targetSourcesOf scope))
        by (intros H; apply inScope_In in H; congruence).
      tauto.
Qed.

Lemma add_keeps_every_argument_witness :
  parseCommand Sample.addBlank = Some (lit "+" ++ [], [lit " "])
  /\ exists w',
       handleCommand Sample.addBlank Sample.freshWorld = Returned w'
       /\ (forall k s, In k [lit " "] -> In s (targetSourcesOf []) ->
                       In k (kwGet (keywords (state w')) s))
       /\ ([lit " "] = [] -> keywords (state w') = keywords (state Sample.freshWorld))
       /\ (forall s,
             kwGet (keywords (state w')) s
             = if existsb (SourceKey_eqb s) (targetSourcesOf [])
               then fold_left set_add [lit " "]
                      (kwGet (keywords (state Sample.freshWorld)) s)
               else kwGet (keywords (state Sample.freshWorld)) s)
       /\ (forall s x,
             In x (kwGet (keywords (state w')) s)
             <-> In x (kwGet (keywords (state Sample.freshWorld)) s)
                 \/ (In s (targetSourcesOf []) /\ In x [lit " "]))
       /\ (forall s,
             kwGet (keywords (state w')) s
             = kwGet (keywords (state Sample.freshWorld)) s
             <-> (In s (targetSourcesOf []) ->
                  forall k, In k [lit " "] ->
                            In k (kwGet (keywords (state Sample.freshWorld)) s)))
       /\ exists more,
            outputLines w' =
            outputLines Sample.freshWorld
              ++ lit "{green-fg}Keywords updated.{/green-fg}" :: more.
Proof.
  split; [reflexivity |].
  apply (@add_keeps_every_argument [] Sample.addBlank [lit " "] Sample.freshWorld).
  reflexivity.
Defined.

(** An argument that its set holds already changes nothing, and a quote
    inside an argument is not kept. *)
Example add_samples :
  keywords (state (worldOf (handleCommand Sample.addRedditPi Sample.piWorld)))
  = keywords (state Sample.piWorld)
  /\ parseCommand (lit "+reddit it's") = Some (lit "+reddit", [lit "its"])
  /\ kw_reddit (keywords (state (worldOf (handleCommand (lit "+reddit it's")
                                                        Sample.freshWorld))))
     = [lit "its"].
Proof. repeat split; vm_compute; reflexivity. Qed.

(** The claim C9 as it is written fails: a keyword of one space, and the
    empty keyword, are added to the three keyword sets. *)
Lemma blank_keyword_is_added :
  isBlank (lit " ") = true
  /\ parseCommand Sample.addBlank = Some (lit "+", [lit " "])
  /\ keywords (state Sample.freshWorld)
     = {| kw_reddit := []; kw_hn := []; kw_ddg := [] |}
  /\ keywords (state (worldOf (handleCommand Sample.addBlank Sample.freshWorld)))
     = {| kw_reddit := [lit " "]; kw_hn := [lit " "]; kw_ddg := [lit " "] |}
  /\ isBlank [] = true
  /\ parseCommand Sample.addEmpty = Some (lit "+", [[]])
  /\ keywords (state (worldOf (handleCommand Sample.addEmpty Sample.freshWorld)))
     = {| kw_reddit := [[]]; kw_hn := [[]]; kw_ddg := [[]] |}.
Proof. repeat split; reflexivity. Qed.

(** ** Well-formed configurations are kept *)

Lemma assoc_In {B} k (v : B) l : assoc k l = Some v -> In (k, v) l.
Proof.
  induction l as [| [k' v'] l IH]; simpl; [discriminate |].
  destruct (str_eqb k k') eqn:E.
  - apply str_eqb_eq in E; subst; intros H; injection H as ->; now left.
  - auto.
Qed.

Lemma assocSet_In {B} k (v : B) l e :
  In e (assocSet k v l) -> e = (k, v) \/ In e l.
Proof.
  induction l as [| [k' v'] l IH]; simpl.
  - intros [<- | []]; now left.
  - destruct (str_eqb k k'); simpl; intros [<- | H]; auto.
    destruct (IH H); auto.
Qed.

Lemma filesOk_writeFile f name c f' :
  filesOk f -> (forall d, c = JsonText d -> dataOk d) ->
  writeFile f name c = inl f' -> filesOk f'.
Proof.
  unfold writeFile; intros Hf Hc.
  destruct (assoc name (unwritable f)); [discriminate |].
  intros E; injection E as <-; intros n d Hin; simpl in Hin.
  apply assocSet_In in Hin as [E | Hin]; [| eauto].
  injection E as _ E; now apply Hc.
Qed.

Lemma orTen_nonneg o : (forall g, o = Some g -> 0 <= g)%Z -> (0 <= orTen o)%Z.
Proof.
  intros H; unfold orTen; destruct o as [g |]; [| lia].
  destruct (g =? 0)%Z; [lia | now apply H].
Qed.

Lemma dataOk_savableState s : stateOk s -> dataOk (savableState s).
Proof.
  intros [[Hg Hl] _] l E; simpl in E; injection E as <-.
  split; trivial.
  simpl; destruct (globalResultLimit s =? 0)%Z; lia.
Qed.

Lemma worldOk_log t w : worldOk w -> worldOk (log t w).
Proof. auto. Qed.

Lemma worldOk_updateStatusBar w : worldOk w -> worldOk (updateStatusBar w).
Proof. auto. Qed.

Lemma worldOk_saveState name w : worldOk w -> worldOk (fst (saveState name w)).
Proof.
  intros [Hs Hf]; unfold saveState.
  destruct (writeFile (fs w) name (JsonText (savableState (state w)))) as [f' | m] eqn:E;
    simpl; split; trivial.
  eapply filesOk_writeFile; [exact Hf | | exact E].
  intros d Ed; injection Ed as <-; now apply dataOk_savableState.
Qed.

Lemma worldOk_autosaveState w : worldOk w -> worldOk (autosaveState w).
Proof. apply worldOk_saveState. Qed.

Lemma worldOk_applyState d w w' :
  worldOk w -> dataOk d -> applyState d w = inl w' -> worldOk w'.
Proof.
  intros [Hs Hf] Hd; unfold applyState.
  destruct (sd_keywords d) as [kws |]; [| discriminate].
  destruct (sd_limits d) as [lims |] eqn:El; [| discriminate].
  destruct (sd_fetchIntervalMinutes d); [| discriminate].
  intros E; injection E as <-; split; trivial.
  split; simpl.
  - now apply Hd.
  - repeat split; apply set_from_NoDup.
Qed.

Lemma worldOk_loadState name w : worldOk w -> worldOk (loadState name w).
Proof.
  intros Hw; unfold loadState, readFile.
  destruct (assoc name (entries (fs w))) as [[d | m] |] eqn:E; try now apply worldOk_log.
  destruct (applyState d w) as [w' | m] eqn:Ea; apply worldOk_log; trivial.
  eapply worldOk_applyState; [exact Hw | | exact Ea].
  destruct Hw as [_ Hf]; apply (Hf name), assoc_In, E.
Qed.

Lemma worldOk_fetchStart h w : worldOk w -> worldOk (fetchStart h w).
Proof.
  intros Hw; unfold fetchStart.
  destruct (isFetching (state w)); trivial.
  destruct (allFetchTasks _); exact Hw.
Qed.

Lemma worldOk_finishCommand b w : worldOk w -> worldOk (worldOf (finishCommand b w)).
Proof.
  intros Hw; unfold finishCommand; simpl.
  destruct b; [now apply worldOk_autosaveState | assumption].
Qed.

Lemma set_delete_NoDup s k : NoDup s -> NoDup (set_delete s k).
Proof. apply NoDup_filter. Qed.

Lemma setsOk_kwSet k s v : setsOk k -> NoDup v -> setsOk (kwSet k s v).
Proof. intros [Hr [Hh Hd]] Hv; destruct s; repeat split; assumption. Qed.

Lemma setsOk_kwGet k s : setsOk k -> NoDup (kwGet k s).
Proof. intros [Hr [Hh Hd]]; destruct s; assumption. Qed.

Lemma setsOk_updateKeywords plus targets args : forall k,
  setsOk k -> setsOk (updateKeywords plus targets args k).
Proof.
  unfold updateKeywords; induction args as [| a args IH]; simpl; intros k Hk; trivial.
  apply IH; unfold updateKeyword; clear IH.
  revert k Hk; induction targets as [| t targets IHt]; simpl; intros k Hk; trivial.
  apply IHt, setsOk_kwSet; trivial.
  destruct plus; [apply set_add_NoDup | apply set_delete_NoDup]; now apply setsOk_kwGet.
Qed.

Lemma worldOk_keywordCommand action args w :
  worldOk w -> worldOk (worldOf (keywordCommand action args w)).
Proof.
  intros [[Hl Hs] Hf]; unfold keywordCommand.
  apply worldOk_finishCommand, worldOk_fetchStart, worldOk_log.
  split; [split |]; simpl; trivial.
  now apply setsOk_updateKeywords.
Qed.

Lemma limGet_limSet l s v s' :
  limGet (limSet l s v) s' = if SourceKey_eqb s s' then v else limGet l s'.
Proof. destruct s, s'; reflexivity. Qed.

Lemma limitsOk_limSet l g s v :
  limitsOk l g -> (forall n, v = Some n -> 0 <= n)%Z -> limitsOk (limSet l s v) g.
Proof.
  intros [Hg Hl] Hv; split; trivial.
  intros k n; rewrite limGet_limSet.
  destruct (SourceKey_eqb s k); [apply Hv | apply Hl].
Qed.

Lemma fold_left_step {A B} (f : A -> B -> A) x l a :
  fold_left f (x :: l) a = fold_left f l (f a x).
Proof. reflexivity. Qed.

Lemma listSettings_log w : exists lines, listSettings w = appendLines lines w.
Proof.
  unfold listSettings.
  assert (Hk : forall kws v, exists lines,
             fold_left (fun w kw => log (lit "  - " ++ quoted kw) w) kws v
             = appendLines lines v).
  { induction kws as [| k kws IH]; intros v.
    - exists []; simpl; now rewrite appendLines_nil.
    - rewrite fold_left_step.
      destruct (IH (log (lit "  - " ++ quoted k) v)) as [l ->].
      rewrite log_appendLines, appendLines_app; eauto. }
  cbv zeta.
  match goal with
  | |- context [fold_left ?f sources ?v0] =>
    assert (Hs : forall srcs v, exists lines, fold_left f srcs v = appendLines lines v)
  end.
  { induction srcs as [| s srcs IH]; intros v.
    - exists []; simpl; now rewrite appendLines_nil.
    - rewrite fold_left_step.
      destruct (kwGet (keywords (state v)) s) as [| k kws] eqn:E; [apply IH |].
      destruct (Hk (k :: kws)
                   (log (lit "{green-fg}{bold}[" ++ upperName s ++ lit "]{/bold}") v))
        as [l1 E1].
      rewrite E1.
      destruct (IH (appendLines l1
                      (log (lit "{green-fg}{bold}[" ++ upperName s ++ lit "]{/bold}") v)))
        as [l2 ->].
      rewrite !log_appendLines, !appendLines_app; eauto. }
  destruct (Hs sources (log (lit "{bold}--- Current Keyword Settings ---{/bold}") w))
    as [l ->].
  rewrite !log_appendLines, !appendLines_app; eauto.
Qed.

Lemma worldOk_appendLines l w : worldOk w -> worldOk (appendLines l w).
Proof. auto. Qed.

Lemma worldOk_listSettings w : worldOk w -> worldOk (listSettings w).
Proof.
  intros Hw; destruct (listSettings_log w) as [l ->]; now apply worldOk_appendLines.
Qed.

Lemma worldOk_limitCommand action args w :
  worldOk w -> worldOk (worldOf (limitCommand action args w)).
Proof.
  intros Hw; unfold limitCommand.
  destruct (sourceOfName (substring 1 action)) as [src |]; [| now apply worldOk_log].
  destruct (negb (truthy (hd_error args)));
    [now apply worldOk_finishCommand, worldOk_listSettings |].
  pose proof Hw as [[Hl Hs] Hf].
  destruct (str_eqb (toLowerCase (hd [] args)) (lit "default")).
  - apply worldOk_finishCommand, worldOk_log.
    split; [split |]; simpl; trivial.
    apply limitsOk_limSet; [assumption | discriminate].
  - destruct (parseInt (hd_error args)) as [limit |];
      [| now apply worldOk_finishCommand, worldOk_log].
    destruct (0 <=? limit)%Z eqn:E;
      [| now apply worldOk_finishCommand, worldOk_log].
    apply worldOk_finishCommand, worldOk_log.
    split; [split |]; simpl; trivial.
    apply limitsOk_limSet; [assumption |].
    intros n Hn; injection Hn as <-; now apply Z.leb_le.
Qed.

Lemma worldOk_copyFile w from to f' :
  worldOk w -> copyFile (fs w) from to = inl f' -> worldOk (withFs w f').
Proof.
  intros [Hs Hf]; unfold copyFile, readFile.
  destruct (assoc from (entries (fs w))) as [c |] eqn:E; [| discriminate].
  intros Hw; split; trivial; simpl.
  eapply filesOk_writeFile; [exact Hf | | exact Hw].
  intros d ->; apply (Hf from), assoc_In, E.
Qed.

Lemma worldOk_setCommand args w :
  worldOk w -> worldOk (worldOf (setCommand args w)).
Proof.
  intros Hw; unfold setCommand.
  destruct (str_eqb _ (lit "list")).
  { destruct (parseInt (nth_error args 1)) as [value |];
      [| now apply worldOk_finishCommand, worldOk_log].
    destruct (0 <=? value)%Z eqn:E; [| now apply worldOk_finishCommand, worldOk_log].
    apply worldOk_finishCommand, worldOk_log.
    destruct Hw as [[[Hg Hl] Hs] Hf].
    split; [split; [split |] |]; simpl; trivial.
    now apply Z.leb_le. }
  destruct (str_eqb _ (lit "interval")).
  { destruct (parseInt (nth_error args 1)) as [value |];
      [| now apply worldOk_finishCommand, worldOk_log].
    destruct (0 <? value)%Z; [| now apply worldOk_finishCommand, worldOk_log].
    apply worldOk_finishCommand, worldOk_log.
    destruct Hw as [[Hl Hs] Hf]; split; [split |]; simpl; trivial. }
  destruct (str_eqb _ (lit "default")); [| now apply worldOk_finishCommand, worldOk_log].
  destruct (negb (truthy (nth_error args 1)));
    [now apply worldOk_finishCommand, worldOk_log |].
  destruct (copyFile _ _ _) as [f' | m] eqn:E;
    apply worldOk_finishCommand, worldOk_log; trivial.
  eapply worldOk_copyFile; eassumption.
Qed.

Lemma worldOk_saveCommand args w :
  worldOk w -> worldOk (worldOf (saveCommand args w)).
Proof.
  intros Hw; unfold saveCommand.
  destruct (negb (truthy (hd_error args)));
    [now apply worldOk_finishCommand, worldOk_log |].
  pose proof (worldOk_saveState (hd [] args) Hw) as Hsave.
  destruct (saveState (hd [] args) w) as [w' ok]; simpl in Hsave.
  apply worldOk_finishCommand; destruct ok; trivial.
Qed.

Lemma worldOk_loadCommand args w :
  worldOk w -> worldOk (worldOf (loadCommand args w)).
Proof.
  intros Hw; unfold loadCommand.
  destruct (negb (truthy (hd_error args)));
    [now apply worldOk_finishCommand, worldOk_log |].
  destruct (find _ _); apply worldOk_finishCommand;
    [now apply worldOk_loadState | now apply worldOk_log].
Qed.

Lemma worldOk_displayHelp w : worldOk w -> worldOk (displayHelp w).
Proof. auto. Qed.

(** Every command keeps a well-formed world well-formed: no limit gets
    negative and the keyword sets stay sets. *)
Lemma worldOk_handleCommand command w :
  worldOk w -> worldOk (worldOf (handleCommand command w)).
Proof.
  intros Hw; unfold handleCommand.
  destruct command as [| c command]; trivial.
  destruct (parseCommand (c :: command)) as [[action args] |]; trivial.
  unfold dispatch.
  destruct (_ || _); [now apply worldOk_keywordCommand |].
  destruct (startsWith action (lit "~")); [now apply worldOk_limitCommand |].
  destruct (str_eqb action (lit "list"));
    [now apply worldOk_finishCommand, worldOk_listSettings |].
  destruct (str_eqb action (lit "set")); [now apply worldOk_setCommand |].
  destruct (str_eqb action (lit "save")); [now apply worldOk_saveCommand |].
  destruct (str_eqb action (lit "load")); [now apply worldOk_loadCommand |].
  destruct (str_eqb _ (lit "help")); [now apply worldOk_finishCommand, worldOk_displayHelp |].
  destruct (str_eqb _ (lit "fetch")); [now apply worldOk_finishCommand, worldOk_fetchStart |].
  destruct (str_eqb _ (lit "clear")); [now apply worldOk_finishCommand |].
  destruct (str_eqb _ (lit "exit")); trivial.
Qed.

Lemma worldOk_answer env n w : worldOk w -> worldOk (worldOf (answer env n w)).
Proof.
  intros Hw.
  destruct (answer_cases env n w)
    as [-> | [[l [flight [-> _]]] | [[l [-> _]] | [l [message [-> _]]]]]];
    exact Hw.
Qed.

Lemma worldOk_freshWorld : worldOk Sample.freshWorld.
Proof.
  split; [split; [split |] |].
  - simpl; lia.
  - intros [] n H; discriminate H.
  - repeat split; constructor.
  - intros name d [].
Qed.

(** In a well-formed world no effective limit is negative. *)
Lemma worldOk_limitFor w n : worldOk w -> (0 <= limitFor (state w) n)%Z.
Proof.
  intros [[[Hg Hl] _] _]; unfold limitFor.
  destruct (limGet (limits (state w)) (sourceKeyMap n)) eqn:E; [eapply Hl; eassumption | assumption].
Qed.

(** * Further properties of the program *)

(** ** Deduplication keeps the first item of each link *)

Lemma mapHas_In m l : mapHas m l = true <-> In l (map fst m).
Proof.
  unfold mapHas; rewrite existsb_exists, in_map_iff; split.
  - intros [e [He Hl]]; apply str_eqb_eq in Hl; subst; eauto.
  - intros [e [<- He]]; exists e; split; [assumption | apply str_eqb_refl].
Qed.

Lemma dedupStep_cases m it :
  dedupStep m it = m
  \/ exists l, link it = Some l /\ truthy (link it) = true
               /\ ~ In l (map fst m) /\ dedupStep m it = m ++ [(l, it)].
Proof.
  unfold dedupStep; destruct (link it) as [l |] eqn:El; [| now left].
  destruct (truthy (Some l)) eqn:Et; simpl; [| now left].
  destruct (mapHas m l) eqn:Eh; simpl; [now left | right].
  exists l; repeat split; trivial.
  intros Hin; apply mapHas_In in Hin; congruence.
Qed.

Lemma dedup_fold_grows items : forall m,
  exists more, fold_left dedupStep items m = m ++ more.
Proof.
  induction items as [| it items IH]; intros m; simpl.
  - exists []; now rewrite app_nil_r.
  - destruct (IH (dedupStep m it)) as [more ->].
    destruct (dedupStep_cases m it) as [-> | [l [_ [_ [_ ->]]]]]; [eauto |].
    rewrite <- app_assoc; eauto.
Qed.

Lemma dedup_fold_NoDup items : forall m,
  NoDup (map fst m) -> NoDup (map fst (fold_left dedupStep items m)).
Proof.
  induction items as [| it items IH]; intros m Hm; simpl; trivial.
  apply IH.
  destruct (dedupStep_cases m it) as [-> | [l [_ [_ [Hl ->]]]]]; trivial.
  rewrite map_app; simpl; apply NoDup_app; trivial.
  - constructor; [easy | constructor].
  - intros x Hx [<- | []]; contradiction.
Qed.

Lemma dedup_fold_from items : forall m e,
  In e (fold_left dedupStep items m) -> In e m \/ In (snd e) items.
Proof.
  induction items as [| it items IH]; intros m e He; simpl in *; [now left |].
  apply IH in He as [He | He]; [| now right; right].
  destruct (dedupStep_cases m it) as [E | [l [_ [_ [_ E]]]]]; rewrite E in He;
    [now left |].
  apply in_app_iff in He as [He | [<- | []]]; [now left | right; now left].
Qed.

Lemma dedup_fold_covers items : forall m it,
  In it items -> truthy (link it) = true ->
  exists l, link it = Some l /\ In l (map fst (fold_left dedupStep items m)).
Proof.
  induction items as [| x items IH]; intros m it Hin Ht; [destruct Hin |].
  simpl; destruct Hin as [-> | Hin]; [| now apply IH].
  destruct (dedup_fold_grows items (dedupStep m it)) as [more ->].
  unfold dedupStep; destruct (link it) as [l |] eqn:El; [| discriminate Ht].
  exists l; split; trivial; rewrite Ht; simpl.
  rewrite map_app, in_app_iff; left.
  destruct (mapHas m l) eqn:Eh; simpl.
  - now apply mapHas_In.
  - rewrite map_app, in_app_iff; right; now left.
Qed.

Lemma NoDup_map_Some {A} (l : list A) : NoDup l -> NoDup (map Some l).
Proof.
  induction 1 as [| x l Hx _ IH]; simpl; constructor; trivial.
  intros Hin; apply in_map_iff in Hin as [y [E Hy]]; injection E as ->; contradiction.
Qed.

(** X1.  Deduplication keeps one item for each link: the links of the
    items it keeps are pairwise distinct, every item it keeps is an item of
    the input, every link of the input that is not empty is the link of an
    item that is kept, and an item with a link that no earlier item has is
    itself the one that is kept. *)
Theorem dedup_keeps_first_of_each_link (items : list Item) :
  NoDup (map link (uniqueValues items))
  /\ (forall it, In it (uniqueValues items) -> In it items)
  /\ (forall it, In it items -> truthy (link it) = true ->
        exists kept, In kept (uniqueValues items) /\ link kept = link it)
  /\ (forall before it after,
        items = before ++ it :: after -> truthy (link it) = true ->
        (forall p, In p before -> link p <> link it) ->
        In it (uniqueValues items)).
Proof.
  assert (Hlinks : forall e, In e (uniqueResults items) -> link (snd e) = Some (fst e)).
  { intros e He; apply dedup_fold_links in He; [tauto | intros ? []]. }
  split; [| split; [| split]].
  - unfold uniqueValues.
    assert (E : map link (map snd (uniqueResults items))
                = map Some (map fst (uniqueResults items))).
    { rewrite !map_map; apply map_ext_in; exact Hlinks. }
    rewrite E; apply NoDup_map_Some, dedup_fold_NoDup; constructor.
  - intros it Hit; apply in_map_iff in Hit as [e [<- He]].
    apply dedup_fold_from in He as [[] | He]; assumption.
  - intros it Hin Ht.
    destruct (dedup_fold_covers items [] it Hin Ht) as [l [El Hl]].
    apply in_map_iff in Hl as [e [<- He]].
    exists (snd e); split; [now apply in_map | rewrite El; now apply Hlinks].
  - intros before it after -> Ht Hfresh.
    unfold uniqueValues, uniqueResults; rewrite fold_left_app; simpl.
    set (m := fold_left dedupStep before []).
    destruct (dedup_fold_grows after (dedupStep m it)) as [more ->].
    rewrite map_app, in_app_iff; left.
    destruct (dedupStep_cases m it) as [E | [l [_ [_ [_ ->]]]]].
    + exfalso; unfold dedupStep in E.
      destruct (link it) as [l |] eqn:El; [| discriminate Ht].
      rewrite Ht in E; simpl in E.
      destruct (mapHas m l) eqn:Eh.
      * apply mapHas_In, in_map_iff in Eh as [e [<- He]].
        pose proof He as He'.
        apply dedup_fold_links in He'; [| intros ? []].
        apply dedup_fold_from in He as [[] | He].
        apply (Hfresh (snd e) He); tauto.
      * simpl in E.
        assert (Hlen : length (m ++ [(l, it)]) = length m) by now rewrite E.
        rewrite length_app in Hlen; simpl in Hlen; lia.
    + rewrite map_app, in_app_iff; right; now left.
Qed.

(** ** Matching keeps the items that hold a keyword *)

Lemma recorded_fold_filter text kws : forall acc,
  fst (fold_left (highlightStep text) kws acc)
  = fold_left set_add (filter (fun kw => test (keywordPattern kw) text) kws) (fst acc).
Proof.
  induction kws as [| k kws IH]; intros acc; simpl; trivial.
  rewrite IH, highlightStep_keyword.
  destruct (test (keywordPattern k) text); reflexivity.
Qed.

Lemma fold_set_add_nil l : forall acc, fold_left set_add l acc = [] -> l = [] /\ acc = [].
Proof.
  induction l as [| k l IH]; simpl; intros acc H; [auto |].
  apply IH in H as [_ H]; unfold set_add in H.
  destruct (set_has acc k) eqn:E.
  - subst acc; discriminate E.
  - destruct acc; discriminate H.
Qed.

Lemma filter_nil_existsb {A} (f : A -> bool) l : filter f l = [] <-> existsb f l = false.
Proof.
  induction l as [| x l IH]; simpl; [tauto |].
  destruct (f x); simpl; [split; discriminate | exact IH].
Qed.

Lemma matchItem_cases kws it :
  (hasMatch kws it = false /\ matchItem kws it = Done [])
  \/ (hasMatch kws it = true /\ title it = None /\ matchItem kws it = Thrown noLength)
  \/ (hasMatch kws it = true
      /\ exists t r, title it = Some t /\ matchItem kws it = Done [r] /\ res_item r = it
                     /\ res_matchedKeywords r = set_from (filter (keywordHits it) kws)
                     /\ res_matchedKeywords r <> []).
Proof.
  unfold matchItem.
  assert (E : matchedKeywords (findAndHighlightKeywords (scannedText it) kws)
              = set_from (filter (keywordHits it) kws)).
  { unfold findAndHighlightKeywords; cbn [matchedKeywords].
    now rewrite recorded_fold_filter. }
  rewrite E.
  destruct (set_from (filter (keywordHits it) kws)) as [| k ks] eqn:Es.
  - left; split; trivial.
    apply fold_set_add_nil in Es as [Es _].
    now apply filter_nil_existsb.
  - right.
    assert (Hm : hasMatch kws it = true).
    { destruct (hasMatch kws it) eqn:Eh; trivial.
      apply filter_nil_existsb in Eh; rewrite Eh in Es; discriminate Es. }
    destruct (title it) as [t |]; [right | left; auto].
    split; trivial.
    eexists _, _; split; [reflexivity | split; [reflexivity |]].
    cbn; repeat split; trivial; discriminate.
Qed.

Lemma finalResults_Thrown kws unique :
  (exists message, finalResults kws unique = Thrown message)
  <-> exists it, In it unique /\ hasMatch kws it = true /\ title it = None.
Proof.
  induction unique as [| it rest IH]; cbn [finalResults].
  - split; [intros [m H]; discriminate H | intros [it [[] _]]].
  - destruct (matchItem_cases kws it)
      as [[Hn ->] | [[Hm [Ht ->]] | [Hm [t [r [Ht [-> _]]]]]]].
    + destruct (finalResults kws rest) as [more | m].
      * split; [intros [m H]; discriminate H |].
        intros [x [[<- | Hx] [Hxm Hxt]]]; [congruence |].
        assert (Hex : exists y, In y rest /\ hasMatch kws y = true /\ title y = None)
          by eauto.
        apply IH in Hex as [m Hm']; discriminate Hm'.
      * split; [| eauto].
        intros _; destruct (proj1 IH) as [x [Hx Hrest]]; eauto.
        exists x; split; [now right | exact Hrest].
    + split; [| eauto].
      intros _; exists it; split; [now left | auto].
    + destruct (finalResults kws rest) as [more | m].
      * split; [intros [m H]; discriminate H |].
        intros [x [[<- | Hx] [Hxm Hxt]]]; [congruence |].
        assert (Hex : exists y, In y rest /\ hasMatch kws y = true /\ title y = None)
          by eauto.
        apply IH in Hex as [m Hm']; discriminate Hm'.
      * split; [| eauto].
        intros _; destruct (proj1 IH) as [x [Hx Hrest]]; eauto.
        exists x; split; [now right | exact Hrest].
Qed.

Lemma finalResults_items kws unique : forall final,
  finalResults kws unique = Done final ->
  map res_item final = filter (hasMatch kws) unique.
Proof.
  induction unique as [| it rest IH]; intros final Hf.
  - injection Hf as <-; reflexivity.
  - apply finalResults_cons in Hf as [pushed [more [Hp [Hm ->]]]].
    rewrite map_app, (IH more Hm); cbn [filter].
    destruct (matchItem_cases kws it)
      as [[Hn E] | [[Hh [Ht E]] | [Hh [t [r [Ht [E [Ei _]]]]]]]];
      rewrite E in Hp; [| discriminate Hp |]; injection Hp as <-.
    + now rewrite Hn.
    + rewrite Hh; cbn; now rewrite Ei.
Qed.

(** X2.  When the loop over the deduplicated items ends, the matched items
    are the deduplicated items in which some keyword is found, in their
    order; the item without a match is dropped.  The keywords recorded for
    an item are the keywords found in its text, in the order of the
    keyword list and each once; there is one at least.  The loop does not
    end, but throws, exactly when a keyword is found in an item that has
    no title. *)
Theorem results_are_the_items_with_a_match (kws : list str) (unique : list Item) :
  (forall final,
     finalResults kws unique = Done final ->
     map res_item final = filter (hasMatch kws) unique
     /\ forall r, In r final ->
          res_matchedKeywords r = set_from (filter (keywordHits (res_item r)) kws)
          /\ res_matchedKeywords r <> []
          /\ NoDup (res_matchedKeywords r)
          /\ forall kw, In kw (res_matchedKeywords r)
                        <-> In kw kws /\ keywordHits (res_item r) kw = true)
  /\ ((exists message, finalResults kws unique = Thrown message)
      <-> exists it, In it unique /\ hasMatch kws it = true /\ title it = None).
Proof.
  split; [| apply finalResults_Thrown].
  intros final Hf; split; [now apply finalResults_items |].
  intros r Hr.
  destruct (@finalResults_In kws unique final r Hf Hr) as [_ [Ek [Hne _]]].
  assert (Em : res_matchedKeywords r = set_from (filter (keywordHits (res_item r)) kws)).
  { rewrite Ek; unfold findAndHighlightKeywords; cbn [matchedKeywords].
    now rewrite recorded_fold_filter. }
  split; [assumption | split; [assumption | split]].
  - rewrite Em; apply set_from_NoDup.
  - intros kw; rewrite Em, set_from_In, filter_In; tauto.
Qed.

(** ** Matching is literal and ignores case *)

(** X3.  Whatever characters a keyword holds, the pattern source built
    from it compiles, and to the keyword as a literal between two word
    boundaries: a match has the length of the keyword and is the keyword up
    to the case of its letters.  No character of a keyword acts as an
    operator of the pattern. *)
Theorem keyword_is_matched_literally (kw : str) :
  compile (keywordSource kw) = Some (keywordPattern kw)
  /\ forall prev s n,
       matchHere (keywordPattern kw) prev s = Some n ->
       n = length kw /\ sameIgnoringCase kw (firstn n s)
       /\ boundary prev s = true /\ boundary (lastOr prev (firstn n s)) (skipn n s) = true.
Proof.
  split; [apply compile_keyword |].
  intros prev s n H.
  assert (Hne : matchHere (keywordPattern kw) prev s <> None) by congruence.
  apply matchHere_keyword in Hne as [Hb _].
  unfold keywordPattern in H; cbn [matchHere] in H; rewrite Hb in H.
  apply matchHere_chars in H as [mid [rest [m [-> [Hs [Hm ->]]]]]].
  simpl in Hm.
  destruct (boundary (lastOr prev mid) rest) eqn:Hb2; [| discriminate Hm].
  injection Hm as <-.
  assert (Hlen : length mid = length kw) by (symmetry; eapply Forall2_length; eassumption).
  rewrite Nat.add_0_r, <- Hlen, firstn_app, Nat.sub_diag, firstn_all, skipn_app,
    Nat.sub_diag, skipn_all; simpl; rewrite app_nil_r.
  auto.
Qed.




Lemma wordish_same o o' :
  match o, o' with
  | Some c, Some c' => canonicalize c = canonicalize c'
  | None, None => True
  | _, _ => False
  end -> wordish o = wordish o'.
Proof.
  destruct o, o'; simpl; try tauto; apply same_canonical_word.
Qed.






(** ** Highlighting only inserts markers *)

Lemma highlight_fold_Marked text kws : forall acc,
  Marked (snd acc) (snd (fold_left (highlightStep text) kws acc)).
Proof.
  induction kws as [| k kws IH]; intros acc; simpl; [constructor |].
  eapply Marked_trans; [| apply IH].
  rewrite highlightStep_keyword.
  destruct (test (keywordPattern k) text); [apply replaceLoop_Marked | constructor].
Qed.

Lemma highlight_fold_none text kws : forall acc,
  filter (fun kw => test (keywordPattern kw) text) kws = [] ->
  fold_left (highlightStep text) kws acc = acc.
Proof.
  induction kws as [| k kws IH]; intros acc H; simpl in *; trivial.
  rewrite highlightStep_keyword.
  destruct (test (keywordPattern k) text); [discriminate H | now apply IH].
Qed.

Lemma replaceLoop_longer p fuel : forall prev s,
  length s < fuel -> exec p prev s <> None ->
  length s + 13 <= length (replaceLoop fuel p prev s).
Proof.
  induction fuel as [| fuel IH]; intros prev s Hfuel Hex; [lia |].
  rewrite replaceLoop_S.
  destruct (matchHere p prev s) as [[| n] |] eqn:E.
  - rewrite !length_app.
    change (length boldOpen) with 6; change (length boldClose) with 7.
    destruct s as [| c s]; [simpl; lia |].
    pose proof (Marked_length_le (replaceLoop_Marked p fuel (Some c) s)).
    simpl; lia.
  - rewrite !length_app.
    change (length boldOpen) with 6; change (length boldClose) with 7.
    pose proof (Marked_length_le
                  (replaceLoop_Marked p fuel (hd_error (rev (firstn (S n) s)))
                     (skipn (S n) s))) as Hle.
    pose proof (matchHere_length _ _ _ E).
    rewrite length_skipn in Hle; rewrite length_firstn, Nat.min_l by lia; lia.
  - destruct s as [| c s]; simpl in Hex; rewrite E in Hex; [congruence |].
    assert (Hex' : exec p (Some c) s <> None)
      by (destruct (exec p (Some c) s) as [[i k] |]; congruence).
    cbn [length] in *.
    assert (Hlt : length s < fuel) by lia.
    specialize (IH (Some c) s Hlt Hex'); lia.
Qed.

Lemma highlight_fold_longer text kws : forall acc,
  snd acc = text ->
  filter (fun kw => test (keywordPattern kw) text) kws <> [] ->
  length text + 13 <= length (snd (fold_left (highlightStep text) kws acc)).
Proof.
  induction kws as [| k kws IH]; intros acc Hacc Hne; simpl in *; [now elim Hne |].
  rewrite highlightStep_keyword.
  destruct (test (keywordPattern k) text) eqn:Et; [| now apply IH].
  pose proof (Marked_length_le
                (highlight_fold_Marked text kws
                   (set_add (fst acc) k, replaceAll (keywordPattern k) (snd acc)))) as Hle.
  cbn [snd] in Hle; rewrite Hacc in Hle.
  assert (Hgrow : length text + 13 <= length (replaceAll (keywordPattern k) text)).
  { unfold replaceAll; apply replaceLoop_longer; [lia |].
    unfold test in Et; destruct (exec _ None text); congruence. }
  rewrite Hacc; lia.
Qed.

(** X5.  Highlighting never removes nor changes a character of the text:
    the highlighted text is the text with bold markers inserted.  When no
    keyword is found the text comes back as it is, and when one is found
    the highlighted text is longer by a pair of markers at least. *)
Theorem highlighting_only_inserts_markers (text : str) (kws : list str) :
  Marked text (highlightedText (findAndHighlightKeywords text kws))
  /\ (matchedKeywords (findAndHighlightKeywords text kws) = [] ->
      highlightedText (findAndHighlightKeywords text kws) = text)
  /\ (matchedKeywords (findAndHighlightKeywords text kws) <> [] ->
      length text + 13 <= length (highlightedText (findAndHighlightKeywords text kws))).
Proof.
  unfold findAndHighlightKeywords; cbn [matchedKeywords highlightedText].
  split; [apply (highlight_fold_Marked text kws ([], text)) | split].
  - rewrite recorded_fold_filter; intros H.
    apply fold_set_add_nil in H as [H _].
    now rewrite highlight_fold_none.
  - rewrite recorded_fold_filter; intros H.
    apply highlight_fold_longer; trivial.
    intros E; rewrite E in H; now elim H.
Qed.

(** ** The cap of each source *)

Lemma slice0_firstn {A} (l : list A) k : exists j, slice0 l k = firstn j l.
Proof. unfold slice0; destruct (k <? 0)%Z; eauto. Qed.

Lemma slice0_In {A} (l : list A) k x : In x (slice0 l k) -> In x l.
Proof.
  destruct (slice0_firstn l k) as [j ->]; intros H.
  rewrite <- (firstn_skipn j l); apply in_app_iff; now left.
Qed.

Lemma filter_all {A} (f : A -> bool) l : (forall x, In x l -> f x = true) -> filter f l = l.
Proof.
  induction l as [| x l IH]; simpl; intros H; trivial.
  rewrite (H x) by now left.
  f_equal; apply IH; auto.
Qed.

Lemma filter_none {A} (f : A -> bool) l : (forall x, In x l -> f x = false) -> filter f l = [].
Proof.
  induction l as [| x l IH]; simpl; intros H; trivial.
  rewrite (H x) by now left.
  apply IH; auto.
Qed.

Lemma group_In final n r :
  In r (Spec.group final n) <-> In r final /\ source (res_item r) = n.
Proof.
  unfold Spec.group; rewrite filter_In.
  destruct (source (res_item r)), n; simpl; intuition congruence.
Qed.

Lemma group_of_slice final m k n :
  Spec.group (slice0 (limitedResults final m) k) n
  = if SourceName_eqb m n then slice0 (limitedResults final m) k else [].
Proof.
  rewrite limitedResults_group.
  destruct (SourceName_eqb m n) eqn:E.
  - apply filter_all; intros r Hr.
    apply slice0_In, group_In in Hr as [_ ->]; exact E.
  - apply filter_none; intros r Hr.
    apply slice0_In, group_In in Hr as [_ ->]; exact E.
Qed.

Lemma group_gatherResults s final n :
  Spec.group (gatherResults s final) n = slice0 (Spec.group final n) (limitFor s n).
Proof.
  unfold gatherResults, sourceNames; cbn [flat_map].
  unfold Spec.group at 1; rewrite !filter_app; fold (Spec.group).
  change (filter (fun r => SourceName_eqb (source (res_item r)) n))
    with (fun l => Spec.group l n).
  cbv beta; rewrite !group_of_slice, <- !limitedResults_group.
  destruct n; simpl; rewrite ?app_nil_r; reflexivity.
Qed.

Lemma filter_Permutation {A} (f : A -> bool) l l' :
  Permutation l l' -> Permutation (filter f l) (filter f l').
Proof.
  induction 1 as [| x l l' _ IH | x y l | l l' l'' _ IH1 _ IH2]; simpl.
  - constructor.
  - destruct (f x); [now constructor | assumption].
  - destruct (f x), (f y); try reflexivity; apply perm_swap.
  - now transitivity (filter f l').
Qed.

(** X6.  A source whose effective limit is not negative never shows more
    items than its limit: of the matched items of the source, the display
    holds the first ones in arrival order, as many as the limit allows, and
    none when the limit is zero. *)
Theorem display_caps_each_source (s : State) (final : list Result) (n : SourceName) :
  (0 <= limitFor s n)%Z ->
  Permutation (Spec.group (displayResults s final) n)
              (firstn (Z.to_nat (limitFor s n)) (Spec.group final n))
  /\ length (Spec.group (displayResults s final) n)
     = Nat.min (Z.to_nat (limitFor s n)) (length (Spec.group final n))
  /\ (limitFor s n = 0%Z -> Spec.group (displayResults s final) n = []).
Proof.
  intros Hlim.
  assert (P : Permutation (Spec.group (displayResults s final) n)
                          (firstn (Z.to_nat (limitFor s n)) (Spec.group final n))).
  { rewrite <- (slice0_nonneg _ Hlim), <- group_gatherResults.
    apply filter_Permutation; symmetry.
    apply ranked_Permutation, sort_ranked. }
  split; [exact P | split].
  - rewrite (Permutation_length P); apply length_firstn.
  - intros E; rewrite E in P; simpl in P.
    now apply Permutation_nil; symmetry.
Qed.

Lemma display_caps_each_source_witness :
  (0 <= limitFor SampleCycle.twoFromReddit Reddit)%Z
  /\ Permutation
       (Spec.group (displayResults SampleCycle.twoFromReddit SampleCycle.matched) Reddit)
       (firstn (Z.to_nat (limitFor SampleCycle.twoFromReddit Reddit))
               (Spec.group SampleCycle.matched Reddit))
  /\ length (Spec.group (displayResults SampleCycle.twoFromReddit SampleCycle.matched)
                        Reddit)
     = Nat.min (Z.to_nat (limitFor SampleCycle.twoFromReddit Reddit))
               (length (Spec.group SampleCycle.matched Reddit))
  /\ (limitFor SampleCycle.twoFromReddit Reddit = 0%Z ->
      Spec.group (displayResults SampleCycle.twoFromReddit SampleCycle.matched) Reddit
      = []).
Proof.
  assert (H : (0 <= limitFor SampleCycle.twoFromReddit Reddit)%Z)
    by (vm_compute; discriminate).
  split; [exact H |].
  exact (@display_caps_each_source SampleCycle.twoFromReddit SampleCycle.matched
           Reddit H).
Defined.

(** ** What is displayed *)

Lemma settledItems_ok env t it : In it (settledItems env t) -> adapterItemOk env t it.
Proof.
  unfold settledItems; destruct t as [src kw | kw]; simpl.
  - unfold fetchRss; destruct (parseURL env src kw) as [feed | m]; simpl; [| tauto].
    intros H; apply filter_In in H as [H Hrec].
    apply in_map_iff in H as [e [<- _]]; simpl; split; trivial.
    unfold isRecent in Hrec; simpl in Hrec.
    destruct (fe_date e) as [d |]; [| discriminate].
    exists d; split; trivial; now apply Z.ltb_lt.
  - unfold scrapeDuckDuckGo; destruct (httpGet env kw) as [page | m]; simpl; [| tauto].
    intros H; apply in_flat_map in H as [r [_ H]].
    destruct r as [rt rl rs]; cbn [sc_title sc_link sc_snippet] in H.
    destruct rt as [| c t]; [destruct H |].
    destruct (truthy rl) eqn:El; [| destruct H].
    destruct H as [<- | []]; simpl.
    split; [reflexivity | split; [reflexivity | split; [| split; trivial]]].
    eexists; split; [reflexivity | discriminate].
Qed.

Lemma sort_In l r : In r (sort byDateDesc l) <-> In r l.
Proof.
  induction l as [| x l IH]; simpl; [tauto |].
  fold (sort byDateDesc l); rewrite sortInsert_In, IH; intuition.
Qed.

Lemma displayResults_In s final r : In r (displayResults s final) -> In r final.
Proof.
  unfold displayResults; rewrite sort_In; unfold gatherResults.
  rewrite in_flat_map; intros [n [_ H]].
  apply slice0_In in H; rewrite limitedResults_group in H.
  now apply group_In in H.
Qed.

Lemma cycleResults_Done s raw results :
  cycleResults s raw = Done results <->
  exists final,
    finalResults (allKeywords s) (uniqueValues raw) = Done final
    /\ results = displayResults s final.
Proof.
  unfold cycleResults.
  destruct (finalResults (allKeywords s) (uniqueValues raw)) as [final | m].
  - split.
    + intros H; injection H as <-; eauto.
    + intros [f [Hf ->]]; injection Hf as <-; reflexivity.
  - split; [discriminate | intros [f [Hf _]]; discriminate Hf].
Qed.

Lemma uniqueValues_from items it : In it (uniqueValues items) -> In it items.
Proof.
  unfold uniqueValues, uniqueResults; intros H.
  apply in_map_iff in H as [e [Ee He]].
  apply dedup_fold_from in He as [[] | He]; now rewrite Ee in He.
Qed.

(** X7.  Every result that a cycle displays comes from an item that an
    adapter call of the cycle returned; it has a title, a link that is not
    empty and a matched keyword at least; its snippet field is the cut of
    its highlighted text; and it keeps what its adapter promises: the name
    of its feed and a date within the recency window, or, from the web
    search, a title and no date. *)
Theorem displayed_results_come_from_the_adapters
        (env : Env) (s : State) (tasks : list Task) (results : list Result)
        (r : Result) :
  cycleResults s (flat_map (settledItems env) tasks) = Done results ->
  In r results ->
  truthy (link (res_item r)) = true
  /\ res_matchedKeywords r <> []
  /\ (exists t,
        title (res_item r) = Some t
        /\ res_highlightedSnippet r
           = substring (length t + 1)
               (highlightedText
                  (findAndHighlightKeywords (scannedText (res_item r))
                                            (allKeywords s))))
  /\ exists t, In t tasks /\ In (res_item r) (settledItems env t)
               /\ adapterItemOk env t (res_item r).
Proof.
  intros Hc Hr.
  apply cycleResults_Done in Hc as [final [Hf ->]].
  apply displayResults_In in Hr.
  destruct (@finalResults_In _ _ final r Hf Hr) as [Hu [_ [Hne Hsnip]]].
  split; [eapply uniqueValues_truthy; eassumption | split; [assumption | split]];
    [assumption |].
  apply uniqueValues_from, in_flat_map in Hu as [t [Ht Hit]].
  exists t; repeat split; trivial; now apply settledItems_ok.
Qed.

Lemma displayed_results_come_from_the_adapters_witness :
  cycleResults (state SampleCycle.piEverywhere)
    (flat_map (settledItems SampleCycle.flakyEnv) SampleShown.tasks)
  = Done [SampleShown.post]
  /\ In SampleShown.post [SampleShown.post]
  /\ truthy (link (res_item SampleShown.post)) = true
  /\ res_matchedKeywords SampleShown.post <> []
  /\ (exists t,
        title (res_item SampleShown.post) = Some t
        /\ res_highlightedSnippet SampleShown.post
           = substring (length t + 1)
               (highlightedText
                  (findAndHighlightKeywords (scannedText (res_item SampleShown.post))
                     (allKeywords (state SampleCycle.piEverywhere)))))
  /\ exists t, In t SampleShown.tasks
               /\ In (res_item SampleShown.post) (settledItems SampleCycle.flakyEnv t)
               /\ adapterItemOk SampleCycle.flakyEnv t (res_item SampleShown.post).
Proof.
  assert (Hc : cycleResults (state SampleCycle.piEverywhere)
                 (flat_map (settledItems SampleCycle.flakyEnv) SampleShown.tasks)
               = Done [SampleShown.post]) by (vm_compute; reflexivity).
  assert (H : In SampleShown.post [SampleShown.post]) by (left; reflexivity).
  split; [exact Hc | split; [exact H |]].
  exact (@displayed_results_come_from_the_adapters SampleCycle.flakyEnv
           (state SampleCycle.piEverywhere) SampleShown.tasks [SampleShown.post]
           SampleShown.post Hc H).
Defined.

Lemma sorted_split l :
  StronglySorted (fun a b => (Spec.timestamp b <= Spec.timestamp a)%Z) l ->
  exists l1 l2,
    l = l1 ++ l2
    /\ (forall r, In r l1 -> (0 < Spec.timestamp r)%Z)
    /\ (forall r, In r l2 -> (Spec.timestamp r <= 0)%Z).
Proof.
  induction 1 as [| a l Hs IH Ha].
  - exists [], []; repeat split; intros ? [].
  - destruct (Z_lt_le_dec 0 (Spec.timestamp a)) as [Hpos | Hle].
    + destruct IH as [l1 [l2 [-> [H1 H2]]]].
      exists (a :: l1), l2; repeat split; trivial.
      intros r [<- | Hr]; auto.
    + exists [], (a :: l); repeat split; [intros ? [] |].
      rewrite Forall_forall in Ha.
      intros r [<- | Hr]; [assumption | specialize (Ha r Hr); lia].
Qed.

(** X8.  When the recency window begins after the epoch, the results of
    the web search, which have no date, are displayed after all the results
    of the feeds: the display is a list of feed results followed by a list
    of web search results. *)
Theorem web_results_are_displayed_last
        (env : Env) (s : State) (tasks : list Task) (results : list Result) :
  (0 <= thirtyDaysAgo env)%Z ->
  cycleResults s (flat_map (settledItems env) tasks) = Done results ->
  exists dated undated,
    results = dated ++ undated
    /\ (forall r, In r dated -> exists d, date (res_item r) = Some d /\ (0 < d)%Z)
    /\ (forall r, In r undated ->
          date (res_item r) = None /\ source (res_item r) = DuckDuckGo).
Proof.
  intros Hwin Hc.
  apply cycleResults_Done in Hc as [final [Hf ->]].
  assert (Hinv : forall r, In r (displayResults s final) ->
            (exists d, date (res_item r) = Some d /\ (0 < d)%Z)
            \/ (date (res_item r) = None /\ source (res_item r) = DuckDuckGo)).
  { intros r Hr; apply displayResults_In in Hr.
    destruct (@finalResults_In _ _ final r Hf Hr) as [Hu _].
    apply uniqueValues_from, in_flat_map in Hu as [t [_ Hit]].
    apply settledItems_ok in Hit; destruct t as [src kw | kw]; simpl in Hit.
    - left; destruct Hit as [_ [d [Ed Hd]]]; exists d; split; [assumption | lia].
    - right; tauto. }
  destruct (sort_ranked (gatherResults s final)) as [Hsorted _].
  apply sorted_split in Hsorted as [l1 [l2 [E [H1 H2]]]].
  exists l1, l2; split; [exact E | split]; intros r Hr.
  - destruct (Hinv r) as [Hd | [Hn _]].
    + unfold displayResults; rewrite E, in_app_iff; now left.
    + assumption.
    + specialize (H1 r Hr); unfold Spec.timestamp in H1; rewrite Hn in H1; lia.
  - destruct (Hinv r) as [[d [Ed Hd]] | Hn].
    + unfold displayResults; rewrite E, in_app_iff; now right.
    + specialize (H2 r Hr); unfold Spec.timestamp in H2; rewrite Ed in H2; lia.
    + assumption.
Qed.

Lemma web_results_are_displayed_last_witness :
  (0 <= thirtyDaysAgo SampleCycle.flakyEnv)%Z
  /\ cycleResults (state SampleCycle.piEverywhere)
       (flat_map (settledItems SampleCycle.flakyEnv) SampleShown.tasks)
     = Done [SampleShown.post]
  /\ exists dated undated,
       [SampleShown.post] = dated ++ undated
       /\ (forall r, In r dated -> exists d, date (res_item r) = Some d /\ (0 < d)%Z)
       /\ (forall r, In r undated ->
             date (res_item r) = None /\ source (res_item r) = DuckDuckGo).
Proof.
  assert (H : (0 <= thirtyDaysAgo SampleCycle.flakyEnv)%Z) by (vm_compute; discriminate).
  assert (Hc : cycleResults (state SampleCycle.piEverywhere)
                 (flat_map (settledItems SampleCycle.flakyEnv) SampleShown.tasks)
               = Done [SampleShown.post]) by (vm_compute; reflexivity).
  split; [exact H | split; [exact Hc |]].
  exact (@web_results_are_displayed_last SampleCycle.flakyEnv
           (state SampleCycle.piEverywhere) SampleShown.tasks [SampleShown.post] H Hc).
Defined.

(** ** Invariants of the event loop *)

Lemma displayHelp_log w : exists lines, displayHelp w = appendLines lines w.
Proof.
  unfold displayHelp; rewrite !log_appendLines, !appendLines_app; eauto.
Qed.

Lemma applyState_steps d w w' :
  applyState d w = inl w' ->
  exists k1 k2 k3 l g m,
    let w1 := withState w (withKeywords (state w) k1) in
    let w2 := withState w1 (withKeywords (state w1) k2) in
    let w3 := withState w2 (withKeywords (state w2) k3) in
    let w4 := withState w3 (withLimits (state w3) l) in
    let w5 := withState w4 (withGlobalResultLimit (state w4) g) in
    w' = updateStatusBar
           (restartFetchInterval (withState w5 (withFetchIntervalMinutes (state w5) m))).
Proof.
  unfold applyState.
  destruct (sd_keywords d) as [kws |]; [| discriminate].
  destruct (sd_limits d) as [lims |]; [| discriminate].
  destruct (sd_fetchIntervalMinutes d) as [minutes |]; [| discriminate].
  intros E; injection E as <-.
  do 6 eexists; reflexivity.
Qed.

Section Invariant.

Variable P : World -> Prop.

Hypothesis P_lines : forall l w, P w -> P (appendLines l w).
Hypothesis P_clear : forall w, P w -> P (clearOutput w).
Hypothesis P_status : forall w, P w -> P (updateStatusBar w).
Hypothesis P_keywords : forall k w, P w -> P (withState w (withKeywords (state w) k)).
Hypothesis P_limits : forall l w, P w -> P (withState w (withLimits (state w) l)).
Hypothesis P_global :
  forall g w, P w -> P (withState w (withGlobalResultLimit (state w) g)).
Hypothesis P_interval :
  forall m w, P w ->
    P (restartFetchInterval (withState w (withFetchIntervalMinutes (state w) m))).
Hypothesis P_autosave : forall w, P w -> P (autosaveState w).
Hypothesis P_save : forall name w, P w -> P (fst (saveState name w)).
Hypothesis P_copy :
  forall from f' w, P w -> copyFile (fs w) from DEFAULT_SETTINGS_FILE = inl f' ->
    P (withFs w f').
Hypothesis P_fetchStart : forall h w, P w -> P (fetchStart h w).
Hypothesis P_answer : forall env n w, P w -> P (worldOf (answer env n w)).

Lemma inv_log t w : P w -> P (log t w).
Proof. rewrite log_appendLines; apply P_lines. Qed.

Lemma inv_finishCommand b w : P w -> P (worldOf (finishCommand b w)).
Proof.
  intros H; unfold finishCommand; cbn [worldOf].
  apply P_status; destruct b; [apply P_autosave |]; exact H.
Qed.

Lemma inv_listSettings w : P w -> P (listSettings w).
Proof. intros H; destruct (listSettings_log w) as [l ->]; now apply P_lines. Qed.

Lemma inv_displayHelp w : P w -> P (displayHelp w).
Proof. intros H; destruct (displayHelp_log w) as [l ->]; now apply P_lines. Qed.

Lemma inv_loadState name w : P w -> P (loadState name w).
Proof.
  intros H; unfold loadState.
  destruct (readFile (fs w) name) as [[d | m] |]; try now apply inv_log.
  destruct (applyState d w) as [w' | m] eqn:E; apply inv_log; trivial.
  apply applyState_steps in E as [k1 [k2 [k3 [l [g [m ->]]]]]].
  cbv zeta; apply P_status, P_interval, P_global, P_limits.
  now apply P_keywords, P_keywords, P_keywords.
Qed.

Lemma inv_keywordCommand action args w :
  P w -> P (worldOf (keywordCommand action args w)).
Proof.
  intros H; unfold keywordCommand.
  now apply inv_finishCommand, P_fetchStart, inv_log, P_keywords.
Qed.

Lemma inv_limitCommand action args w :
  P w -> P (worldOf (limitCommand action args w)).
Proof.
  intros H; unfold limitCommand.
  destruct (sourceOfName (substring 1 action)) as [src |]; [| now apply inv_log].
  destruct (negb (truthy (hd_error args)));
    [now apply inv_finishCommand, inv_listSettings |].
  destruct (str_eqb (toLowerCase (hd [] args)) (lit "default"));
    [now apply inv_finishCommand, inv_log, P_limits |].
  destruct (parseInt (hd_error args)) as [limit |];
    [| now apply inv_finishCommand, inv_log].
  destruct (0 <=? limit)%Z; [| now apply inv_finishCommand, inv_log].
  now apply inv_finishCommand, inv_log, P_limits.
Qed.

Lemma inv_setCommand args w : P w -> P (worldOf (setCommand args w)).
Proof.
  intros H; unfold setCommand.
  destruct (str_eqb _ (lit "list")).
  { destruct (parseInt (nth_error args 1)) as [value |];
      [| now apply inv_finishCommand, inv_log].
    destruct (0 <=? value)%Z; [| now apply inv_finishCommand, inv_log].
    now apply inv_finishCommand, inv_log, P_global. }
  destruct (str_eqb _ (lit "interval")).
  { destruct (parseInt (nth_error args 1)) as [value |];
      [| now apply inv_finishCommand, inv_log].
    destruct (0 <? value)%Z; [| now apply inv_finishCommand, inv_log].
    now apply inv_finishCommand, inv_log, P_interval. }
  destruct (str_eqb _ (lit "default")); [| now apply inv_finishCommand, inv_log].
  destruct (negb (truthy (nth_error args 1))); [now apply inv_finishCommand, inv_log |].
  destruct (copyFile _ _ _) as [f' | m] eqn:E; apply inv_finishCommand, inv_log; trivial.
  eapply P_copy; eassumption.
Qed.

Lemma inv_saveCommand args w : P w -> P (worldOf (saveCommand args w)).
Proof.
  intros H; unfold saveCommand.
  destruct (negb (truthy (hd_error args))); [now apply inv_finishCommand, inv_log |].
  pose proof (P_save (hd [] args) H) as Hsave.
  destruct (saveState (hd [] args) w) as [w' ok]; cbn [fst] in Hsave.
  apply inv_finishCommand; destruct ok; [now apply inv_log | assumption].
Qed.

Lemma inv_loadCommand args w : P w -> P (worldOf (loadCommand args w)).
Proof.
  intros H; unfold loadCommand.
  destruct (negb (truthy (hd_error args))); [now apply inv_finishCommand, inv_log |].
  destruct (find _ _); apply inv_finishCommand;
    [now apply inv_loadState | now apply inv_log].
Qed.

(** The commands that are neither [set], [save] nor [load]. *)
Lemma inv_dispatch_plain command action args w :
  str_eqb action (lit "set") = false ->
  str_eqb action (lit "save") = false ->
  str_eqb action (lit "load") = false ->
  P w -> P (worldOf (dispatch command action args w)).
Proof.
  intros E1 E2 E3 H; unfold dispatch; rewrite E1, E2, E3.
  destruct (_ || _); [now apply inv_keywordCommand |].
  destruct (startsWith action (lit "~")); [now apply inv_limitCommand |].
  destruct (str_eqb action (lit "list")); [now apply inv_finishCommand, inv_listSettings |].
  destruct (str_eqb _ (lit "help")); [now apply inv_finishCommand, inv_displayHelp |].
  destruct (str_eqb _ (lit "fetch")); [now apply inv_finishCommand, P_fetchStart |].
  destruct (str_eqb _ (lit "clear")); [now apply inv_finishCommand, P_clear |].
  destruct (str_eqb _ (lit "exit")); trivial.
  now apply inv_finishCommand, inv_log.
Qed.

Lemma dispatch_set command args w :
  dispatch command (lit "set") args w = setCommand args w.
Proof. reflexivity. Qed.

Lemma dispatch_save command args w :
  dispatch command (lit "save") args w = saveCommand args w.
Proof. reflexivity. Qed.

Lemma dispatch_load command args w :
  dispatch command (lit "load") args w = loadCommand args w.
Proof. reflexivity. Qed.

(** The commands other than [set] and [load]. *)
Lemma inv_dispatch_unless_timer command action args w :
  str_eqb action (lit "set") = false ->
  str_eqb action (lit "load") = false ->
  P w -> P (worldOf (dispatch command action args w)).
Proof.
  intros E1 E3 H.
  destruct (str_eqb action (lit "save")) eqn:E2;
    [apply str_eqb_eq in E2; subst action; rewrite dispatch_save;
     now apply inv_saveCommand |].
  now apply inv_dispatch_plain.
Qed.

(** The commands other than [save]. *)
Lemma inv_dispatch_unless_save command action args w :
  str_eqb action (lit "save") = false ->
  P w -> P (worldOf (dispatch command action args w)).
Proof.
  intros E2 H.
  destruct (str_eqb action (lit "set")) eqn:E1;
    [apply str_eqb_eq in E1; subst action; rewrite dispatch_set;
     now apply inv_setCommand |].
  destruct (str_eqb action (lit "load")) eqn:E3;
    [apply str_eqb_eq in E3; subst action; rewrite dispatch_load;
     now apply inv_loadCommand |].
  now apply inv_dispatch_plain.
Qed.

Lemma inv_dispatch command action args w :
  P w -> P (worldOf (dispatch command action args w)).
Proof.
  intros H.
  destruct (str_eqb action (lit "save")) eqn:E2;
    [apply str_eqb_eq in E2; subst action; rewrite dispatch_save;
     now apply inv_saveCommand |].
  now apply inv_dispatch_unless_save.
Qed.

Lemma actionIn_false names command action args name :
  actionIn names command = false ->
  parseCommand command = Some (action, args) ->
  In name names -> str_eqb action name = false.
Proof.
  unfold actionIn; intros H E Hin; rewrite E in H.
  destruct (str_eqb action name) eqn:Ea; trivial.
  assert (Hex : existsb (str_eqb action) names = true)
    by (apply existsb_exists; eauto).
  congruence.
Qed.

Lemma inv_step_unless_timer e w :
  isSubmitOf [lit "set"; lit "load"] e = false -> P w -> P (step e w).
Proof.
  intros He H; destruct e as [command | env n |]; cbn [step].
  - unfold handleCommand.
    destruct command as [| c command]; trivial.
    destruct (parseCommand (c :: command)) as [[action args] |] eqn:E; trivial.
    apply inv_dispatch_unless_timer; trivial;
      eapply actionIn_false; try eassumption; simpl; tauto.
  - now apply P_answer.
  - destruct (fetchIntervalId (state w)); [now apply P_fetchStart | assumption].
Qed.

Lemma inv_step_unless_save e w :
  isSubmitOf [lit "save"] e = false -> P w -> P (step e w).
Proof.
  intros He H; destruct e as [command | env n |]; cbn [step].
  - unfold handleCommand.
    destruct command as [| c command]; trivial.
    destruct (parseCommand (c :: command)) as [[action args] |] eqn:E; trivial.
    apply inv_dispatch_unless_save; trivial;
      eapply actionIn_false; try eassumption; simpl; tauto.
  - now apply P_answer.
  - destruct (fetchIntervalId (state w)); [now apply P_fetchStart | assumption].
Qed.

Lemma inv_run_unless_timer events : forall w,
  existsb (isSubmitOf [lit "set"; lit "load"]) events = false ->
  P w -> P (run events w).
Proof.
  unfold run; induction events as [| e events IH]; intros w He H; trivial.
  cbn [existsb] in He; apply orb_false_iff in He as [He1 He2].
  now apply IH, inv_step_unless_timer.
Qed.

Lemma inv_run_unless_save events : forall w,
  existsb (isSubmitOf [lit "save"]) events = false ->
  P w -> P (run events w).
Proof.
  unfold run; induction events as [| e events IH]; intros w He H; trivial.
  cbn [existsb] in He; apply orb_false_iff in He as [He1 He2].
  now apply IH, inv_step_unless_save.
Qed.

Lemma inv_handleCommand command w : P w -> P (worldOf (handleCommand command w)).
Proof.
  intros H; unfold handleCommand.
  destruct command as [| c command]; trivial.
  destruct (parseCommand (c :: command)) as [[action args] |]; trivial.
  now apply inv_dispatch.
Qed.

Lemma inv_step e w : P w -> P (step e w).
Proof.
  intros H; destruct e as [command | env n |]; cbn [step].
  - now apply inv_handleCommand.
  - now apply P_answer.
  - destruct (fetchIntervalId (state w)); [now apply P_fetchStart | assumption].
Qed.

Lemma inv_run events : forall w, P w -> P (run events w).
Proof.
  unfold run; induction events as [| e events IH]; intros w H; trivial.
  apply IH, inv_step, H.
Qed.

End Invariant.

Lemma saveState_cases name w :
  (exists f, fst (saveState name w) = withFs w f)
  \/ (exists t, fst (saveState name w) = log t w).
Proof.
  unfold saveState; destruct (writeFile _ _ _); simpl; eauto.
Qed.

Lemma fetchStart_cases h w :
  fetchStart h w = w
  \/ (exists l,
        fetchStart h w = updateStatusBar (setFetching false (appendLines l w))
        /\ isFetching (state w) = false)
  \/ (exists l t tasks,
        fetchStart h w
        = withInFlight (appendLines l (updateStatusBar (setFetching true w)))
            (Some {| fl_header := h;
                     fl_requests := map (fun t => (t, None)) (t :: tasks) |})
        /\ isFetching (state w) = false
        /\ allFetchTasks (state w) = t :: tasks).
Proof.
  unfold fetchStart.
  destruct (isFetching (state w)) eqn:Ef; [now left | right].
  cbn [state log updateStatusBar setFetching withState].
  replace (allFetchTasks (withIsFetching (state w) true)) with (allFetchTasks (state w))
    by reflexivity.
  destruct (allFetchTasks (state w)) as [| t tasks].
  - left; exists [lit "{yellow-fg}Checking for new items...{/yellow-fg}"; nothingToMonitor].
    split; [| reflexivity].
    unfold updateStatusBar, setFetching, log, appendLines, withState; cbn.
    now rewrite <- app_assoc.
  - right; exists [lit "{yellow-fg}Checking for new items...{/yellow-fg}"], t, tasks.
    repeat split.
Qed.

Lemma cycleCoherent_fetchStart h w : cycleCoherent w -> cycleCoherent (fetchStart h w).
Proof.
  intros H.
  destruct (fetchStart_cases h w)
    as [-> | [(l & -> & Ef) | (l' & t & tasks & -> & Ef & _)]]; [exact H | |].
  - revert H; unfold cycleCoherent; cbn.
    destruct (inFlight w); [| trivial].
    intros [H _]; rewrite Ef in H; discriminate H.
  - split; reflexivity.
Qed.

Lemma cycleCoherent_answer env n w :
  cycleCoherent w -> cycleCoherent (worldOf (answer env n w)).
Proof.
  intros H.
  destruct (answer_cases env n w)
    as [-> | [(l & flight & -> & Hin & Hp) | [(l & -> & _) | (l & m & -> & _)]]];
    [exact H | | exact I | exact I].
  revert H Hin; unfold cycleCoherent; cbn.
  destruct (inFlight w); [| now intros _ []].
  intros [H _] _; now split.
Qed.

Lemma answer_frame env n w :
  fs (worldOf (answer env n w)) = fs w
  /\ (state (worldOf (answer env n w)) = state w
      \/ state (worldOf (answer env n w)) = withIsFetching (state w) false).
Proof.
  destruct (answer_cases env n w)
    as [-> | [(l & flight & -> & _) | [(l & -> & _) | (l & m & -> & _)]]];
    cbn; auto.
Qed.

Lemma answer_idle env n w : inFlight w = None -> answer env n w = Returned w.
Proof. intros E; unfold answer; now rewrite E. Qed.

Ltac save_cases :=
  intros; unfold autosaveState;
  match goal with
  | |- context [saveState ?n ?w] =>
    destruct (saveState_cases n w) as [[? ->] | [? ->]]
  end; assumption.

Lemma cycleCoherent_run events w : cycleCoherent w -> cycleCoherent (run events w).
Proof.
  apply inv_run; clear; try (intros; assumption); try save_cases.
  - apply cycleCoherent_fetchStart.
  - apply cycleCoherent_answer.
Qed.

Lemma wedged_run events w : wedged w -> wedged (run events w).
Proof.
  apply inv_run; clear; try (intros; assumption); try save_cases.
  - intros h w [H1 H2]; unfold fetchStart; rewrite H1; now split.
  - intros env n w [H1 H2]; rewrite (answer_idle env n w H2); now split.
Qed.

(** X9.  While requests of a cycle are outstanding the busy flag is up,
    whatever commands, timer ticks and answers came before, so no second
    cycle starts beside the first.  The answer that settles the last
    request either ends the cycle with the flag down, or the continuation
    throws and leaves the flag up with no request outstanding; that state
    is never left again: every later command, tick and answer keeps the
    flag up and issues no request. *)
Theorem busy_while_requests_are_out (events : list Event) (w : World) :
  cycleCoherent w ->
  let v := run events w in
  cycleCoherent v
  /\ (forall flight, inFlight v = Some flight ->
        isFetching (state v) = true
        /\ hasPending (fl_requests flight) = true
        /\ fetchStart updateComplete v = v)
  /\ (forall env n,
        inFlight v <> None ->
        inFlight (worldOf (answer env n v)) = None ->
        (exists v', answer env n v = Returned v' /\ isFetching (state v') = false)
        \/ (exists message v',
              answer env n v = Threw message v' /\ wedged v'
              /\ forall later, wedged (run later v')
                               /\ fetchStart updateComplete (run later v')
                                  = run later v')).
Proof.
  intros H; cbv zeta.
  pose proof (@cycleCoherent_run events w H) as Hv.
  set (v := run events w) in *; clearbody v.
  split; [exact Hv | split].
  - intros flight E; unfold cycleCoherent in Hv; rewrite E in Hv.
    destruct Hv as [Hb Hp]; repeat split; trivial.
    unfold fetchStart; now rewrite Hb.
  - intros env n Hin Hout.
    assert (Hb : isFetching (state v) = true).
    { unfold cycleCoherent in Hv; destruct (inFlight v); [apply Hv | now destruct Hin]. }
    destruct (answer_cases env n v)
      as [E | [(l & flight & E & _) | [(l & E & _) | (l & m & E & _)]]];
      rewrite E in Hout |- *; cbn in Hout.
    + now destruct Hin.
    + discriminate Hout.
    + left; eexists; split; reflexivity.
    + right; eexists _, _; split; [reflexivity |].
      assert (Hw : wedged (withInFlight (appendLines l v) None)) by now split.
      split; [exact Hw |].
      intros later; pose proof (@wedged_run later _ Hw) as [H1 H2].
      split; [now split |].
      unfold fetchStart; now rewrite H1.
Qed.

Lemma busy_while_requests_are_out_witness :
  cycleCoherent Sample.freshWorld
  /\ let v := run [Submit Sample.addRedditPi] Sample.freshWorld in
     cycleCoherent v
     /\ (forall flight, inFlight v = Some flight ->
           isFetching (state v) = true
           /\ hasPending (fl_requests flight) = true
           /\ fetchStart updateComplete v = v)
     /\ (forall env n,
           inFlight v <> None ->
           inFlight (worldOf (answer env n v)) = None ->
           (exists v', answer env n v = Returned v' /\ isFetching (state v') = false)
           \/ (exists message v',
                 answer env n v = Threw message v' /\ wedged v'
                 /\ forall later, wedged (run later v')
                                  /\ fetchStart updateComplete (run later v')
                                     = run later v')).
Proof.
  assert (H : cycleCoherent Sample.freshWorld) by exact I.
  split; [exact H |].
  exact (@busy_while_requests_are_out [Submit Sample.addRedditPi]
           Sample.freshWorld H).
Defined.

(** The sample cycle of one request: it is in flight after the command
    and ends idle when the request is answered, also when the answer is a
    failure. *)
Example one_request_cycle :
  let v := run [Submit Sample.addRedditPi] Sample.freshWorld in
  inFlight v = Some SampleFlight.flight
  /\ isFetching (state v) = true
  /\ isFetching (state (run [Answer SampleCycle.flakyEnv 0] v)) = false
  /\ inFlight (run [Answer SampleCycle.flakyEnv 0] v) = None
  /\ isFetching (state (run [Answer SampleCycle.untitledEnv 0] v)) = false
  /\ skipn (length (outputLines v))
           (outputLines (run [Answer SampleCycle.untitledEnv 0] v))
     = [lit "{red-fg}Error fetching Reddit: connect ETIMEDOUT{/red-fg}";
        lit "{bold}--- Fetching for new keywords... ---{/bold}"].
Proof. repeat split; vm_compute; reflexivity. Qed.

Lemma handleCommand_ends command w :
  (exists b v, handleCommand command w = finishCommand b v)
  \/ (exists l, worldOf (handleCommand command w) = appendLines l w).
Proof.
  assert (Hsame : exists l, w = appendLines l w)
    by (exists []; now rewrite appendLines_nil).
  unfold handleCommand.
  destruct command as [| c command]; [now right |].
  destruct (parseCommand (c :: command)) as [[action args] |]; [| now right].
  unfold dispatch.
  destruct (_ || _); [left; unfold keywordCommand; eauto |].
  destruct (startsWith action (lit "~")).
  { unfold limitCommand.
    destruct (sourceOfName _); [| right; eexists; cbn [worldOf]; apply log_appendLines].
    left; destruct (negb _); [eauto |].
    destruct (str_eqb _ _); [eauto |].
    destruct (parseInt _) as [limit |]; [| eauto].
    destruct (0 <=? limit)%Z; eauto. }
  destruct (str_eqb action (lit "list")); [eauto |].
  destruct (str_eqb action (lit "set")).
  { left; unfold setCommand.
    destruct (str_eqb _ (lit "list")).
    { destruct (parseInt _) as [value |]; [| eauto].
      destruct (0 <=? value)%Z; eauto. }
    destruct (str_eqb _ (lit "interval")).
    { destruct (parseInt _) as [value |]; [| eauto].
      destruct (0 <? value)%Z; eauto. }
    destruct (str_eqb _ (lit "default")); [| eauto].
    destruct (negb _); [eauto |].
    destruct (copyFile _ _ _); eauto. }
  destruct (str_eqb action (lit "save")).
  { left; unfold saveCommand.
    destruct (negb _); [eauto |].
    destruct (saveState _ w); eauto. }
  destruct (str_eqb action (lit "load")).
  { left; unfold loadCommand.
    destruct (negb _); [eauto |].
    destruct (find _ _); eauto. }
  destruct (str_eqb _ (lit "help")); [eauto |].
  destruct (str_eqb _ (lit "fetch")); [eauto |].
  destruct (str_eqb _ (lit "clear")); [eauto |].
  destruct (str_eqb _ (lit "exit")); [now right | eauto].
Qed.

Lemma statusCurrent_step e w : statusCurrent w -> statusCurrent (step e w).
Proof.
  intros H; destruct e as [command | env n |]; cbn [step].
  - destruct (handleCommand_ends command w) as [[b [v ->]] | [l ->]];
      [reflexivity | exact H].
  - destruct (answer_cases env n w)
      as [-> | [(l & flight & -> & _) | [(l & -> & _) | (l & m & -> & _)]]];
      [exact H | exact H | reflexivity | exact H].
  - destruct (fetchIntervalId (state w)); [| exact H].
    destruct (fetchStart_cases updateComplete w)
      as [-> | [(l & -> & _) | (l' & t & tasks & -> & _)]];
      [exact H | reflexivity | reflexivity].
Qed.

(** X10.  The status bar is kept current: once it shows the keyword sets
    and the busy flag of the state, it shows them after every command,
    every timer tick and every settled cycle, whatever these change. *)
Theorem status_bar_is_kept_current (events : list Event) (w : World) :
  statusCurrent w ->
  statusBar (run events w)
  = lit " "
      ++ (if isFetching (state (run events w))
          then lit "{yellow-fg}Fetching...{/yellow-fg}"
          else lit "{green-fg}Idle{/green-fg}")
      ++ lit " | Keywords: "
      ++ join (lit " | ")
           (map (fun s => keyName s ++ lit ":["
                            ++ join (lit ",") (kwGet (keywords (state (run events w))) s)
                            ++ lit "]")
                sources).
Proof.
  intros H.
  assert (Hc : statusCurrent (run events w)).
  { revert w H; unfold run; induction events as [| e events IH]; intros w H; trivial.
    apply IH, statusCurrent_step, H. }
  exact Hc.
Qed.

Lemma status_bar_is_kept_current_witness :
  statusCurrent (updateStatusBar Sample.piWorld)
  /\ statusBar (run [Submit Sample.removeRedditPi; Tick]
                    (updateStatusBar Sample.piWorld))
     = lit " "
         ++ (if isFetching (state (run [Submit Sample.removeRedditPi; Tick]
                                       (updateStatusBar Sample.piWorld)))
             then lit "{yellow-fg}Fetching...{/yellow-fg}"
             else lit "{green-fg}Idle{/green-fg}")
         ++ lit " | Keywords: "
         ++ join (lit " | ")
              (map (fun s =>
                      keyName s ++ lit ":["
                        ++ join (lit ",")
                             (kwGet (keywords
                                       (state (run [Submit Sample.removeRedditPi; Tick]
                                                   (updateStatusBar Sample.piWorld)))) s)
                        ++ lit "]")
                   sources).
Proof.
  assert (H : statusCurrent (updateStatusBar Sample.piWorld)) by reflexivity.
  split; [exact H |].
  exact (@status_bar_is_kept_current [Submit Sample.removeRedditPi; Tick]
           (updateStatusBar Sample.piWorld) H).
Defined.

Lemma timerOk_run events w : timerOk (state w) -> timerOk (state (run events w)).
Proof.
  apply (@inv_run (fun w => timerOk (state w))); clear;
    try (intros; assumption); try save_cases.
  - intros m w _; reflexivity.
  - intros h w H.
    destruct (fetchStart_cases h w)
      as [-> | [(l & -> & _) | (l' & t & tasks & -> & _)]]; exact H.
  - intros env n w H.
    destruct (answer_frame env n w) as [_ [-> | ->]]; exact H.
Qed.

Lemma timerDelay_range ms : (1 <= timerDelay ms <= 2147483647)%Z.
Proof.
  unfold timerDelay.
  destruct (1 <=? ms)%Z eqn:E1; destruct (ms <=? 2147483647)%Z eqn:E2; cbn; lia.
Qed.

(** X11.  Once the program has started a timer, the timer that runs
    always has the period the runtime takes for the interval of the state:
    no command, load or cycle changes the interval without restarting the
    timer.  That period is the interval in milliseconds for an interval of
    1 to 35791 minutes; for a longer one, which does not fit the signed
    32 bits of a timer delay, the timer fires every millisecond. *)
Theorem timer_period_follows_the_interval (events : list Event) (w : World) :
  timerOk (state w) ->
  forall ms,
    fetchIntervalId (state (run events w)) = Some ms ->
    let minutes := fetchIntervalMinutes (state (run events w)) in
    ms = timerDelay (minutes * 60 * 1000)
    /\ (1 <= ms <= 2147483647)%Z
    /\ ((1 <= minutes <= 35791)%Z -> ms = (minutes * 60 * 1000)%Z)
    /\ ((minutes < 1 \/ 35791 < minutes)%Z -> ms = 1%Z).
Proof.
  intros H ms E; cbv zeta.
  pose proof (timerOk_run events w H) as Hr.
  unfold timerOk in Hr; rewrite E in Hr; subst ms.
  split; [reflexivity | split; [apply timerDelay_range |]].
  unfold timerDelay; split; intros Hm.
  - replace (1 <=? _)%Z with true by (symmetry; apply Z.leb_le; lia).
    replace (_ <=? 2147483647)%Z with true by (symmetry; apply Z.leb_le; lia).
    reflexivity.
  - destruct (1 <=? _)%Z eqn:E1; [| reflexivity].
    destruct (_ <=? 2147483647)%Z eqn:E2; [| reflexivity].
    apply Z.leb_le in E1, E2; lia.
Qed.

Lemma timer_period_follows_the_interval_witness :
  timerOk (state Sample.freshWorld)
  /\ fetchIntervalId (state (run [Submit (lit "set interval 40000")] Sample.freshWorld))
     = Some 1%Z
  /\ let minutes := fetchIntervalMinutes
                      (state (run [Submit (lit "set interval 40000")]
                                  Sample.freshWorld)) in
     1%Z = timerDelay (minutes * 60 * 1000)
     /\ (1 <= 1 <= 2147483647)%Z
     /\ ((1 <= minutes <= 35791)%Z -> 1%Z = (minutes * 60 * 1000)%Z)
     /\ ((minutes < 1 \/ 35791 < minutes)%Z -> 1%Z = 1%Z).
Proof.
  assert (H : timerOk (state Sample.freshWorld)) by exact I.
  assert (E : fetchIntervalId
                (state (run [Submit (lit "set interval 40000")] Sample.freshWorld))
              = Some 1%Z) by reflexivity.
  split; [exact H | split; [exact E |]].
  exact (@timer_period_follows_the_interval [Submit (lit "set interval 40000")]
           Sample.freshWorld H 1%Z E).
Defined.

(** Two minutes are two minutes; forty thousand minutes are one
    millisecond. *)
Example set_interval_periods :
  fetchIntervalId (state (run [Submit (lit "set interval 2")] Sample.freshWorld))
  = Some 120000%Z
  /\ fetchIntervalMinutes
       (state (run [Submit (lit "set interval 40000")] Sample.freshWorld)) = 40000%Z
  /\ fetchIntervalId
       (state (run [Submit (lit "set interval 40000")] Sample.freshWorld)) = Some 1%Z.
Proof. repeat split. Qed.

Lemma timer_fetchStart h w :
  fetchIntervalId (state (fetchStart h w)) = fetchIntervalId (state w)
  /\ fetchIntervalMinutes (state (fetchStart h w)) = fetchIntervalMinutes (state w).
Proof.
  destruct (fetchStart_cases h w)
    as [-> | [(l & -> & _) | (l' & t & tasks & -> & _)]]; split; reflexivity.
Qed.

Lemma timer_answer env n w :
  fetchIntervalId (state (worldOf (answer env n w))) = fetchIntervalId (state w)
  /\ fetchIntervalMinutes (state (worldOf (answer env n w)))
     = fetchIntervalMinutes (state w).
Proof.
  destruct (answer_frame env n w) as [_ [-> | ->]]; split; reflexivity.
Qed.

Lemma timer_run_unless events w :
  existsb (isSubmitOf [lit "set"; lit "load"]) events = false ->
  fetchIntervalId (state (run events w)) = fetchIntervalId (state w)
  /\ fetchIntervalMinutes (state (run events w)) = fetchIntervalMinutes (state w).
Proof.
  intros He.
  apply (@inv_run_unless_timer
           (fun v => fetchIntervalId (state v) = fetchIntervalId (state w)
                     /\ fetchIntervalMinutes (state v) = fetchIntervalMinutes (state w)));
    trivial; try (intros; assumption); try save_cases; [| | split; reflexivity].
  - intros h v [H1 H2]; destruct (timer_fetchStart h v) as [-> ->]; now split.
  - intros env n v [H1 H2]; destruct (timer_answer env n v) as [-> ->]; now split.
Qed.

(** X12.  Only [set] and [load] touch the timer.  A program that starts
    without a settings file starts no timer, and as long as neither a
    [set] nor a [load] command is typed, no command, tick or answer
    changes the timer or the interval; with no timer running a tick is
    never taken, so the program fetches on demand only. *)
Theorem timer_changes_only_by_set_or_load (events : list Event) (w : World) :
  readFile (fs w) DEFAULT_SETTINGS_FILE = None ->
  existsb (isSubmitOf [lit "set"; lit "load"]) events = false ->
  let w' := run events (start w) in
  fetchIntervalId (state w') = fetchIntervalId (state w)
  /\ fetchIntervalMinutes (state w') = fetchIntervalMinutes (state w)
  /\ (fetchIntervalId (state w) = None -> step Tick w' = w').
Proof.
  intros Hfile He; cbv zeta.
  assert (Hs : fetchIntervalId (state (start w)) = fetchIntervalId (state w)
               /\ fetchIntervalMinutes (state (start w))
                  = fetchIntervalMinutes (state w)).
  { unfold start, loadState; rewrite Hfile.
    destruct (displayHelp_log
                (log (lit "{yellow-fg}No default settings file found. Starting with a blank configuration.{/yellow-fg}") w))
      as [l ->].
    cbn [state appendLines log].
    destruct (_ ++ _); [split; reflexivity |].
    match goal with
    | |- context [fetchStart ?h ?v] =>
      destruct (timer_fetchStart h v) as [-> ->]
    end.
    split; reflexivity. }
  destruct (timer_run_unless events (start w) He) as [E1 E2].
  destruct Hs as [S1 S2].
  split; [congruence | split; [congruence |]].
  intros Hnone; cbn [step]; now rewrite E1, S1, Hnone.
Qed.

Lemma timer_changes_only_by_set_or_load_witness :
  readFile (fs Sample.freshWorld) DEFAULT_SETTINGS_FILE = None
  /\ existsb (isSubmitOf [lit "set"; lit "load"])
             [Submit Sample.addRedditPi; Answer SampleCycle.flakyEnv 0; Tick] = false
  /\ let w' := run [Submit Sample.addRedditPi; Answer SampleCycle.flakyEnv 0; Tick]
                   (start Sample.freshWorld) in
     fetchIntervalId (state w') = fetchIntervalId (state Sample.freshWorld)
     /\ fetchIntervalMinutes (state w') = fetchIntervalMinutes (state Sample.freshWorld)
     /\ (fetchIntervalId (state Sample.freshWorld) = None -> step Tick w' = w').
Proof.
  assert (H1 : readFile (fs Sample.freshWorld) DEFAULT_SETTINGS_FILE = None)
    by reflexivity.
  assert (H2 : existsb (isSubmitOf [lit "set"; lit "load"])
                 [Submit Sample.addRedditPi; Answer SampleCycle.flakyEnv 0; Tick] = false)
    by (vm_compute; reflexivity).
  split; [exact H1 | split; [exact H2 |]].
  exact (@timer_changes_only_by_set_or_load
           [Submit Sample.addRedditPi; Answer SampleCycle.flakyEnv 0; Tick]
           Sample.freshWorld H1 H2).
Defined.

Lemma worldOk_run events : forall w, worldOk w -> worldOk (run events w).
Proof.
  unfold run; induction events as [| e events IH]; intros w H; trivial.
  apply IH; destruct e as [command | env n |]; cbn [step].
  - now apply worldOk_handleCommand.
  - now apply worldOk_answer.
  - destruct (fetchIntervalId (state w)); [now apply worldOk_fetchStart | assumption].
Qed.

(** X13.  No sequence of commands, loads, ticks and cycles makes a limit
    negative or puts a keyword twice in a set: from a configuration
    without a negative limit, with settings files that hold none, the
    limit of every source stays at zero or above and the keyword sets
    stay free of duplicates. *)
Theorem limits_never_get_negative (events : list Event) (w : World) :
  worldOk w ->
  (forall n, 0 <= limitFor (state (run events w)) n)%Z
  /\ (forall src, NoDup (kwGet (keywords (state (run events w))) src))
  /\ filesOk (fs (run events w)).
Proof.
  intros H; pose proof (worldOk_run events H) as Hr.
  split; [intros n; now apply worldOk_limitFor |].
  destruct Hr as [[_ Hs] Hf]; split; [| exact Hf].
  intros src; now apply setsOk_kwGet.
Qed.

Lemma limits_never_get_negative_witness :
  worldOk Sample.freshWorld
  /\ (forall n,
        0 <= limitFor (state (run [Submit (lit "~hn 3"); Submit Sample.addRedditPi]
                                  Sample.freshWorld)) n)%Z
  /\ (forall src,
        NoDup (kwGet (keywords
                        (state (run [Submit (lit "~hn 3"); Submit Sample.addRedditPi]
                                    Sample.freshWorld))) src))
  /\ filesOk (fs (run [Submit (lit "~hn 3"); Submit Sample.addRedditPi]
                      Sample.freshWorld)).
Proof.
  assert (H : worldOk Sample.freshWorld).
  { split; [split; [split |] |].
    - simpl; lia.
    - intros [] n H; discriminate H.
    - repeat split; constructor.
    - intros name d []. }
  split; [exact H |].
  exact (@limits_never_get_negative [Submit (lit "~hn 3"); Submit Sample.addRedditPi]
           Sample.freshWorld H).
Defined.

Lemma flight_handleCommand command w p :
  inFlight w = Some p /\ isFetching (state w) = true ->
  inFlight (worldOf (handleCommand command w)) = Some p
  /\ isFetching (state (worldOf (handleCommand command w))) = true.
Proof.
  apply (@inv_handleCommand
           (fun v => inFlight v = Some p /\ isFetching (state v) = true));
    try (intros; assumption); try save_cases.
  intros h v [H1 H2]; unfold fetchStart; rewrite H2; now split.
Qed.

(** X14.  A command typed while a cycle is in flight neither cancels nor
    restarts the cycle: the same requests stay outstanding, answered or
    not as they were, and the busy flag stays up, also for [fetch] and for
    a keyword command.  What the command changes applies to that cycle:
    when the answer to the last request arrives, its error line, if it
    failed, is logged below what the command logged, and the items of the
    cycle are matched and capped with the keywords and the limits of that
    moment, not with those the requests were made for.  If that succeeds
    the results are logged and the flag goes down; if it throws, nothing
    more is logged and the flag stays up. *)
Theorem command_during_a_cycle
        (command : str) (flight : Flight) (env : Env) (n : nat) (t : Task)
        (items : list Item) (w : World) :
  inFlight w = Some flight ->
  isFetching (state w) = true ->
  let w' := worldOf (handleCommand command w) in
  inFlight w' = Some flight
  /\ isFetching (state w') = true
  /\ (nth_error (fl_requests flight) n = Some (t, None) ->
      allSettled (settleNth n (settledItems env t) (fl_requests flight)) = Some items ->
      (forall results,
         cycleResults (state w') items = Done results ->
         exists v,
           answer env n w' = Returned v
           /\ outputLines v
              = outputLines w' ++ errorLines env t ++ headerLines (fl_header flight)
                  ++ renderedLines env results
           /\ isFetching (state v) = false
           /\ inFlight v = None
           /\ keywords (state v) = keywords (state w')
           /\ limits (state v) = limits (state w')
           /\ fs v = fs w')
      /\ (forall message,
            cycleResults (state w') items = Thrown message ->
            exists v,
              answer env n w' = Threw message v
              /\ outputLines v = outputLines w' ++ errorLines env t
              /\ state v = state w'
              /\ inFlight v = None
              /\ fs v = fs w')).
Proof.
  intros Hin Hbusy; cbv zeta.
  destruct (@flight_handleCommand command w flight (conj Hin Hbusy)) as [E1 E2].
  split; [exact E1 | split; [exact E2 |]].
  intros Hn Hs.
  rewrite (answer_pending env n _ E1 Hn), Hs.
  split.
  - intros results Hc.
    rewrite (@fetchFinish_Done env (fl_header flight) items
               (withInFlight (appendLines (errorLines env t) _) None) results Hc).
    eexists; split; [reflexivity |].
    cbn [outputLines updateStatusBar setFetching withState withInFlight state
         inFlight fs appendLines].
    rewrite <- app_assoc.
    repeat split.
  - intros message Hc.
    rewrite (@fetchFinish_Thrown env (fl_header flight) items
               (withInFlight (appendLines (errorLines env t) _) None) message Hc).
    eexists; split; [reflexivity |].
    cbn [outputLines withInFlight state inFlight fs appendLines].
    repeat split.
Qed.

Lemma command_during_a_cycle_witness :
  inFlight SampleFlight.suspended = Some SampleFlight.flight
  /\ isFetching (state SampleFlight.suspended) = true
  /\ let w' := worldOf (handleCommand Sample.removeRedditPi SampleFlight.suspended) in
     inFlight w' = Some SampleFlight.flight
     /\ isFetching (state w') = true
     /\ (nth_error (fl_requests SampleFlight.flight) 0
         = Some (RssTask Reddit (lit "pi"), None) ->
         allSettled (settleNth 0 (settledItems SampleFlight.answeringEnv
                                                (RssTask Reddit (lit "pi")))
                               (fl_requests SampleFlight.flight))
         = Some [SampleFlight.post] ->
         (forall results,
            cycleResults (state w') [SampleFlight.post] = Done results ->
            exists v,
              answer SampleFlight.answeringEnv 0 w' = Returned v
              /\ outputLines v
                 = outputLines w'
                     ++ errorLines SampleFlight.answeringEnv (RssTask Reddit (lit "pi"))
                     ++ headerLines (fl_header SampleFlight.flight)
                     ++ renderedLines SampleFlight.answeringEnv results
              /\ isFetching (state v) = false
              /\ inFlight v = None
              /\ keywords (state v) = keywords (state w')
              /\ limits (state v) = limits (state w')
              /\ fs v = fs w')
         /\ (forall message,
               cycleResults (state w') [SampleFlight.post] = Thrown message ->
               exists v,
                 answer SampleFlight.answeringEnv 0 w' = Threw message v
                 /\ outputLines v
                    = outputLines w'
                        ++ errorLines SampleFlight.answeringEnv (RssTask Reddit (lit "pi"))
                 /\ state v = state w'
                 /\ inFlight v = None
                 /\ fs v = fs w')).
Proof.
  assert (H1 : inFlight SampleFlight.suspended = Some SampleFlight.flight)
    by reflexivity.
  assert (H2 : isFetching (state SampleFlight.suspended) = true) by reflexivity.
  split; [exact H1 | split; [exact H2 |]].
  exact (@command_during_a_cycle Sample.removeRedditPi SampleFlight.flight
           SampleFlight.answeringEnv 0 (RssTask Reddit (lit "pi")) [SampleFlight.post]
           SampleFlight.suspended H1 H2).
Defined.

(** The keyword is taken back while its request is out: the post that
    comes back matches nothing any more. *)
Example removed_while_in_flight :
  let w' := worldOf (handleCommand Sample.removeRedditPi SampleFlight.suspended) in
  settledItems SampleFlight.answeringEnv (RssTask Reddit (lit "pi")) = [SampleFlight.post]
  /\ cycleResults (state w') (settledItems SampleFlight.answeringEnv (RssTask Reddit (lit "pi")))
     = Done []
  /\ exists v, answer SampleFlight.answeringEnv 0 w' = Returned v
               /\ isFetching (state v) = false
               /\ skipn (length (outputLines w')) (outputLines v)
                  = [lit "{bold}--- Fetching for new keywords... ---{/bold}"].
Proof.
  cbv zeta; split; [reflexivity |].
  split; [vm_compute; reflexivity |].
  eexists; split; [vm_compute; reflexivity |].
  split; vm_compute; reflexivity.
Qed.

(** ** The command line *)

Lemma takeWhile_app_stop {A} (f : A -> bool) l y rest :
  forallb f l = true -> f y = false -> takeWhile f (l ++ y :: rest) = l.
Proof.
  intros Hl Hy; induction l as [| x l IH]; simpl in *.
  - now rewrite Hy.
  - apply andb_true_iff in Hl as [Hx Hl]; rewrite Hx; f_equal; now apply IH.
Qed.

Lemma takeWhile_all {A} (f : A -> bool) l : forallb f l = true -> takeWhile f l = l.
Proof.
  intros Hl; induction l as [| x l IH]; simpl in *; trivial.
  apply andb_true_iff in Hl as [Hx Hl]; rewrite Hx; f_equal; now apply IH.
Qed.

Lemma skipn_length_app {A} (l r : list A) : skipn (length l) (l ++ r) = r.
Proof. induction l; simpl; trivial. Qed.

Lemma firstn_length_app {A} (l r : list A) : firstn (length l) (l ++ r) = l.
Proof. induction l; simpl; [| f_equal]; trivial. Qed.

Lemma quotedToken_other q c s : c <> q -> quotedToken q (c :: s) = None.
Proof. intros H; unfold quotedToken; destruct (ascii_dec c q); [contradiction | trivial]. Qed.

Lemma not_quote_forallb q k :
  ~ In q k -> forallb (fun d => if ascii_dec d q then false else true) k = true.
Proof.
  intros H; apply forallb_forall; intros x Hx.
  destruct (ascii_dec x q) as [-> |]; [contradiction | trivial].
Qed.

Lemma quotedToken_quoted q k rest :
  k <> [] -> ~ In q k -> quotedToken q (q :: k ++ q :: rest) = Some (length k + 2).
Proof.
  intros Hne Hq; unfold quotedToken.
  destruct (ascii_dec q q) as [_ | Hn]; [| now destruct Hn].
  cbv zeta; rewrite takeWhile_app_stop;
    [| now apply not_quote_forallb
     | destruct (ascii_dec q q) as [_ | Hn]; [trivial | now destruct Hn]].
  destruct k as [| c k]; [now destruct Hne |].
  change (c :: k ++ q :: rest) with ((c :: k) ++ q :: rest).
  now rewrite skipn_length_app.
Qed.

Lemma tokenAt_written t rest :
  Written t -> rest = [] \/ (exists r, rest = " "%char :: r) ->
  tokenAt (t ++ rest) = Some (length t).
Proof.
  intros Ht Hrest; destruct Ht as [t Hb | k Hne Hq].
  - destruct t as [| c t]; [discriminate Hb |].
    cbn [isBareWord] in Hb.
    apply andb_true_iff in Hb as [Hb Hws]; apply andb_true_iff in Hb as [Hd Hs].
    apply negb_true_iff, Ascii.eqb_neq in Hd; apply negb_true_iff, Ascii.eqb_neq in Hs.
    unfold tokenAt; cbn [app].
    rewrite !quotedToken_other by assumption.
    unfold bareToken; change (c :: t ++ rest) with ((c :: t) ++ rest).
    replace (takeWhile (fun c0 => negb (isWhiteSpace c0)) ((c :: t) ++ rest))
      with (c :: t); [reflexivity |].
    destruct Hrest as [-> | [r ->]].
    + now rewrite app_nil_r, takeWhile_all.
    + now rewrite takeWhile_app_stop.
  - unfold tokenAt, quoted; cbn [app]; rewrite <- app_assoc; cbn [app].
    rewrite quotedToken_quoted by assumption.
    cbn [length]; f_equal; rewrite length_app; cbn [length]; lia.
Qed.

Lemma matchAll_token fuel s n :
  s <> [] -> tokenAt s = Some n ->
  matchAll (S fuel) s = firstn n s :: matchAll fuel (skipn n s).
Proof. intros Hs E; destruct s; [now destruct Hs |]; cbn [matchAll]; now rewrite E. Qed.

Lemma matchAll_space fuel s :
  matchAll (S fuel) (" "%char :: s) = matchAll fuel s.
Proof. reflexivity. Qed.

Lemma Written_nonempty t : Written t -> t <> [].
Proof. intros [t' H | k _ _]; [destruct t'; [discriminate H | discriminate] | discriminate]. Qed.

Lemma spaced_starts written :
  flat_map (fun t => lit " " ++ t) written = []
  \/ exists r, flat_map (fun t => lit " " ++ t) written = " "%char :: r.
Proof. destruct written; [now left | right; simpl; eauto]. Qed.

Lemma matchAll_written written : forall fuel,
  length (flat_map (fun t => lit " " ++ t) written) <= fuel ->
  Forall Written written ->
  matchAll fuel (flat_map (fun t => lit " " ++ t) written) = written.
Proof.
  induction written as [| t written IH]; intros fuel Hf Hw.
  - destruct fuel; reflexivity.
  - inversion Hw as [| ? ? Ht Hrest]; subst.
    pose proof (Written_nonempty Ht) as Hne.
    cbn [flat_map] in *.
    change (lit " " ++ t) with (" "%char :: t) in *.
    cbn [app] in *; cbn [length] in Hf; rewrite length_app in Hf.
    assert (Hlt : 1 <= length t) by (destruct t; [now destruct Hne | simpl; lia]).
    destruct fuel as [| fuel]; [lia |].
    rewrite matchAll_space.
    destruct fuel as [| fuel]; [lia |].
    rewrite (@matchAll_token fuel _ (length t));
      [| destruct t; [now destruct Hne | discriminate]
       | apply tokenAt_written; [assumption | apply spaced_starts]].
    rewrite firstn_length_app, skipn_length_app.
    f_equal; apply IH; [lia | assumption].
Qed.

Lemma stripQuotes_quoteFree k : quoteFree (stripQuotes k).
Proof.
  unfold quoteFree, stripQuotes; split; intros H; apply filter_In in H as [_ H].
  - destruct (ascii_dec dquote dquote) as [_ | Hn]; [discriminate H | now destruct Hn].
  - destruct (ascii_dec squote dquote); [discriminate H |].
    destruct (ascii_dec squote squote) as [_ | Hn]; [discriminate H | now destruct Hn].
Qed.

Lemma stripQuotes_id k : quoteFree k -> stripQuotes k = k.
Proof.
  intros [Hd Hs]; unfold stripQuotes; apply filter_all; intros x Hx.
  destruct (ascii_dec x dquote) as [-> |]; [contradiction |].
  destruct (ascii_dec x squote) as [-> |]; [contradiction | trivial].
Qed.

Lemma stripQuotes_quoted k : stripQuotes (quoted k) = stripQuotes k.
Proof.
  unfold stripQuotes, quoted; cbn [filter].
  destruct (ascii_dec dquote dquote) as [_ | Hn]; [| now destruct Hn].
  rewrite filter_app; cbn [filter].
  destruct (ascii_dec dquote dquote) as [_ | Hn]; [| now destruct Hn].
  apply app_nil_r.
Qed.

(** X15.  How a command line is read.  The first word is the action, in
    lower case; each further bare word is one argument and each phrase
    between double quotes is one argument, white space included.  Every
    quote is then removed from the arguments, those inside a word too: a
    phrase without quotes arrives as it was typed between the quotes, and
    no argument ever holds a double or a single quote. *)
Theorem command_line_is_split_into_words_and_phrases
        (action : str) (written : list str) :
  isBareWord action = true ->
  Forall Written written ->
  parseCommand (typedLine action written)
  = Some (toLowerCase action, map stripQuotes written)
  /\ Forall quoteFree (map stripQuotes written)
  /\ forall k, quoteFree k -> stripQuotes (quoted k) = k.
Proof.
  intros Ha Hw; split; [| split].
  - unfold parseCommand, tokenize, typedLine.
    assert (Wa : Written action) by now constructor.
    pose proof (Written_nonempty Wa) as Hne.
    destruct (length (action ++ flat_map (fun t => lit " " ++ t) written)) as [| fuel] eqn:El.
    { destruct action; [now destruct Hne | discriminate El]. }
    rewrite (@matchAll_token fuel _ (length action));
      [| destruct action; [now destruct Hne | discriminate]
       | apply tokenAt_written; [assumption | apply spaced_starts]].
    rewrite firstn_length_app, skipn_length_app, matchAll_written; trivial.
    rewrite length_app in El.
    destruct action; [now destruct Hne | cbn [length] in El; lia].
  - apply Forall_forall; intros a Ha'.
    apply in_map_iff in Ha' as [t [<- _]]; apply stripQuotes_quoteFree.
  - intros k Hk; rewrite stripQuotes_quoted; now apply stripQuotes_id.
Qed.

Lemma command_line_is_split_into_words_and_phrases_witness :
  isBareWord (lit "+Reddit") = true
  /\ Forall Written [quoted (lit "machine learning"); lit "don't"]
  /\ parseCommand (typedLine (lit "+Reddit")
                             [quoted (lit "machine learning"); lit "don't"])
     = Some (toLowerCase (lit "+Reddit"),
             map stripQuotes [quoted (lit "machine learning"); lit "don't"])
  /\ Forall quoteFree (map stripQuotes [quoted (lit "machine learning"); lit "don't"])
  /\ forall k, quoteFree k -> stripQuotes (quoted k) = k.
Proof.
  assert (H1 : isBareWord (lit "+Reddit") = true) by reflexivity.
  assert (H2 : Forall Written [quoted (lit "machine learning"); lit "don't"]).
  { constructor; [| constructor; [| constructor]].
    - apply Written_quoted; [discriminate |].
      intros H; vm_compute in H; repeat (destruct H as [H | H]; [discriminate H |]);
        exact H.
    - apply Written_bare; reflexivity. }
  split; [exact H1 | split; [exact H2 |]].
  exact (@command_line_is_split_into_words_and_phrases (lit "+Reddit")
           [quoted (lit "machine learning"); lit "don't"] H1 H2).
Defined.

(** ** What is written to the files *)

Lemma assoc_assocSet_other {B} k k' (v : B) l :
  k <> k' -> assoc k (assocSet k' v l) = assoc k l.
Proof.
  intros Hk; induction l as [| [k0 v0] l IH]; simpl.
  - apply str_eqb_neq in Hk; now rewrite Hk.
  - destruct (str_eqb k' k0) eqn:E; simpl.
    + apply str_eqb_eq in E; subst k0.
      apply str_eqb_neq in Hk; now rewrite Hk.
    + destruct (str_eqb k k0); trivial.
Qed.

Lemma readFile_writeFile_other f name c f' other :
  writeFile f name c = inl f' -> other <> name -> readFile f' other = readFile f other.
Proof.
  unfold writeFile, readFile.
  destruct (assoc name (unwritable f)); [discriminate |].
  intros E Hn; injection E as <-; now apply assoc_assocSet_other.
Qed.

Lemma fs_saveState name w :
  fs (fst (saveState name w)) = fs w
  \/ writeFile (fs w) name (JsonText (savableState (state w)))
     = inl (fs (fst (saveState name w))).
Proof.
  unfold saveState.
  destruct (writeFile _ _ _) as [f' | m]; [right | left]; reflexivity.
Qed.

Lemma fs_fetchStart h w : fs (fetchStart h w) = fs w.
Proof.
  destruct (fetchStart_cases h w)
    as [-> | [(l & -> & _) | (l' & t & tasks & -> & _)]]; reflexivity.
Qed.

Lemma fs_answer env n w : fs (worldOf (answer env n w)) = fs w.
Proof. apply answer_frame. Qed.

Lemma sameButSettings_run events w :
  existsb (isSubmitOf [lit "save"]) events = false ->
  sameButSettings (fs w) (fs (run events w)).
Proof.
  intros He.
  apply (@inv_run_unless_save (fun v => sameButSettings (fs w) (fs v)));
    trivial; try (intros; assumption).
  - intros v H name Hn; unfold autosaveState.
    destruct (fs_saveState DEFAULT_SETTINGS_FILE v) as [-> | E]; [now apply H |].
    rewrite (readFile_writeFile_other _ _ E Hn); now apply H.
  - intros from f' v H E name Hn; cbn [fs withFs].
    unfold copyFile in E; destruct (readFile (fs v) from); [| discriminate].
    rewrite (readFile_writeFile_other _ _ E Hn); now apply H.
  - intros h v H; now rewrite fs_fetchStart.
  - intros env n v H; now rewrite fs_answer.
  - intros name Hn; reflexivity.
Qed.

Lemma keepsFiles_writeFile f name c f' :
  writeFile f name c = inl f' -> keepsFiles f f'.
Proof.
  intros E other Ho.
  destruct (str_eqb other name) eqn:En.
  - apply str_eqb_eq in En; subst other.
    rewrite (readFile_writeFile _ _ _ E); discriminate.
  - apply str_eqb_neq in En; now rewrite (readFile_writeFile_other _ _ E En).
Qed.

Lemma keepsFiles_run events w : keepsFiles (fs w) (fs (run events w)).
Proof.
  apply (@inv_run (fun v => keepsFiles (fs w) (fs v)));
    try (intros; assumption).
  - intros v H name Hn; unfold autosaveState.
    destruct (fs_saveState DEFAULT_SETTINGS_FILE v) as [-> | E]; [now apply H |].
    eapply keepsFiles_writeFile; [exact E | now apply H].
  - intros file v H name Hn.
    destruct (fs_saveState file v) as [-> | E]; [now apply H |].
    eapply keepsFiles_writeFile; [exact E | now apply H].
  - intros from f' v H E name Hn; cbn [fs withFs].
    unfold copyFile in E; destruct (readFile (fs v) from); [| discriminate].
    eapply keepsFiles_writeFile; [exact E | now apply H].
  - intros h v H; now rewrite fs_fetchStart.
  - intros env n v H; now rewrite fs_answer.
  - intros name Hn; exact Hn.
Qed.

Lemma fs_loadState name w : fs (loadState name w) = fs w.
Proof.
  unfold loadState.
  destruct (readFile (fs w) name) as [[d | m] |]; trivial.
  destruct (applyState d w) as [w' | m] eqn:E; trivial.
  apply applyState_steps in E as [k1 [k2 [k3 [l [g [m ->]]]]]]; reflexivity.
Qed.

(** X17.  What the program writes.  No command, tick or settled cycle
    ever removes a file.  Unless a [save] command is typed, the only file
    whose content can change is the default settings file: every other
    file reads after any number of events as it did before.  A [load]
    command writes nothing at all, the default settings file included, so
    what it loads is kept for the next start only if a later command
    changes and saves the configuration. *)
Theorem only_save_writes_other_files (events : list Event) (w : World) :
  keepsFiles (fs w) (fs (run events w))
  /\ (existsb (isSubmitOf [lit "save"]) events = false ->
      sameButSettings (fs w) (fs (run events w)))
  /\ forall command args,
       parseCommand command = Some (lit "load", args) ->
       fs (worldOf (handleCommand command w)) = fs w.
Proof.
  split; [apply keepsFiles_run | split; [apply sameButSettings_run |]].
  intros command args Hp.
  rewrite (@handleCommand_parsed command _ _ w Hp), dispatch_load.
  unfold loadCommand.
  destruct (negb (truthy (hd_error args))); [reflexivity |].
  destruct (find _ _); [| reflexivity].
  unfold finishCommand; cbn [worldOf fs updateStatusBar]; apply fs_loadState.
Qed.

(** ** What a restart brings back *)

Lemma config_fetchStart h w : config (state (fetchStart h w)) = config (state w).
Proof.
  destruct (fetchStart_cases h w)
    as [-> | [(l & -> & _) | (l' & t & tasks & -> & _)]]; reflexivity.
Qed.

Lemma config_answer env n w : config (state (worldOf (answer env n w))) = config (state w).
Proof. destruct (answer_frame env n w) as [_ [-> | ->]]; reflexivity. Qed.

Lemma config_answerAll env order :
  forall w, config (state (worldOf (answerAll env order w))) = config (state w).
Proof.
  induction order as [| n order IH]; intros w; [reflexivity |].
  cbn [answerAll].
  pose proof (config_answer env n w) as H.
  destruct (answer env n w) as [v | v | m v]; cbn [worldOf] in *;
    [now rewrite IH | exact H | exact H].
Qed.

Lemma state_saveState name w : state (fst (saveState name w)) = state w.
Proof. destruct (saveState_cases name w) as [[f ->] | [t ->]]; reflexivity. Qed.

Lemma state_listSettings w : state (listSettings w) = state w.
Proof. destruct (listSettings_log w) as [l ->]; reflexivity. Qed.

Lemma state_displayHelp w : state (displayHelp w) = state w.
Proof. destruct (displayHelp_log w) as [l ->]; reflexivity. Qed.

(** A command other than [load] leaves the configuration as it is or ends
    with an autosave of the state it made. *)
Lemma command_config_or_autosave command w :
  actionIn [lit "load"] command = false ->
  config (state (worldOf (handleCommand command w))) = config (state w)
  \/ exists v,
       worldOf (handleCommand command w) = updateStatusBar (autosaveState v)
       /\ fs v = fs w.
Proof.
  intros Hload; unfold handleCommand.
  destruct command as [| c command]; [now left |].
  destruct (parseCommand (c :: command)) as [[action args] |] eqn:Ep; [| now left].
  assert (El : str_eqb action (lit "load") = false)
    by (eapply actionIn_false; try eassumption; simpl; tauto).
  unfold dispatch; rewrite El.
  destruct (_ || _).
  { right; unfold keywordCommand, finishCommand; cbn [worldOf].
    eexists; split; [reflexivity |]; now rewrite fs_fetchStart. }
  destruct (startsWith action (lit "~")).
  { unfold limitCommand.
    destruct (sourceOfName _); [| now left].
    destruct (negb (truthy (hd_error args)));
      [left; unfold finishCommand; cbn [worldOf state updateStatusBar];
       now rewrite state_listSettings |].
    destruct (str_eqb (toLowerCase (hd [] args)) (lit "default"));
      [right; unfold finishCommand; cbn [worldOf]; eexists; split; reflexivity |].
    destruct (parseInt _) as [limit |]; [| now left].
    destruct (0 <=? limit)%Z; [| now left].
    right; unfold finishCommand; cbn [worldOf]; eexists; split; reflexivity. }
  destruct (str_eqb action (lit "list")); [left; unfold finishCommand; cbn [worldOf state updateStatusBar];
      now rewrite state_listSettings |].
  destruct (str_eqb action (lit "set")).
  { unfold setCommand.
    destruct (str_eqb _ (lit "list")).
    { destruct (parseInt _) as [value |]; [| now left].
      destruct (0 <=? value)%Z; [| now left].
      right; unfold finishCommand; cbn [worldOf]; eexists; split; reflexivity. }
    destruct (str_eqb _ (lit "interval")).
    { destruct (parseInt _) as [value |]; [| now left].
      destruct (0 <? value)%Z; [| now left].
      right; unfold finishCommand; cbn [worldOf]; eexists; split; reflexivity. }
    destruct (str_eqb _ (lit "default")); [| now left].
    destruct (negb _); [now left |].
    destruct (copyFile _ _ _); now left. }
  destruct (str_eqb action (lit "save")).
  { left; unfold saveCommand.
    destruct (negb _); [reflexivity |].
    pose proof (state_saveState (hd [] args) w) as Hs.
    destruct (saveState _ w) as [w' ok]; cbn [fst] in Hs.
    destruct ok; unfold finishCommand; cbn [worldOf state updateStatusBar log];
      now rewrite Hs. }
  destruct (str_eqb _ (lit "help")); [left; unfold finishCommand; cbn [worldOf state updateStatusBar];
      now rewrite state_displayHelp |].
  destruct (str_eqb _ (lit "fetch")); [left; unfold finishCommand; cbn [worldOf state updateStatusBar];
      apply config_fetchStart |].
  destruct (str_eqb _ (lit "clear")); [now left |].
  destruct (str_eqb _ (lit "exit")); now left.
Qed.

Lemma config_start_saved f s :
  readFile f DEFAULT_SETTINGS_FILE = Some (JsonText (savableState s)) ->
  setsOk (keywords s) ->
  globalResultLimit s <> 0%Z ->
  config (state (start (bootWorld f))) = config s.
Proof.
  intros Hread [Hr [Hh Hd]] Hg.
  unfold start, loadState; cbn [fs bootWorld withFs]; rewrite Hread.
  unfold applyState; cbn [sd_keywords sd_limits sd_fetchIntervalMinutes savableState
                          sd_globalResultLimit ka_reddit ka_hn ka_ddg orEmpty].
  rewrite !set_from_NoDup_id by assumption.
  assert (Eg : orTen (Some (globalResultLimit s)) = globalResultLimit s)
    by (unfold orTen; apply Z.eqb_neq in Hg; now rewrite Hg).
  rewrite Eg.
  match goal with
  | |- context [displayHelp ?v] => destruct (displayHelp_log v) as [l ->]
  end.
  cbn [state appendLines log updateStatusBar restartFetchInterval withState keywords
       withFetchIntervalId withFetchIntervalMinutes withGlobalResultLimit withLimits
       withKeywords kwSet kw_reddit kw_hn kw_ddg limits globalResultLimit
       fetchIntervalMinutes].
  destruct (_ ++ _); [| rewrite config_fetchStart];
    unfold config; cbn; destruct s as [[r h d] ? ? ? ? ?]; reflexivity.
Qed.

(** X18.  Whatever a command other than [load] changes of the
    configuration (the keyword sets, the limits, the interval), it saves:
    when the default settings file can be written, the file holds the new
    configuration as soon as the command has returned, and a new start of
    the program in that directory brings back exactly that configuration,
    before and after the requests of its initial fetch are answered,
    provided the global limit is not zero and the numbers of the
    configuration are safe integers, which the program holds and writes
    exactly. *)
Theorem changes_are_saved_for_the_next_start
        (env : Env) (order : list nat) (command : str) (w : World) :
  actionIn [lit "load"] command = false ->
  assoc DEFAULT_SETTINGS_FILE (unwritable (fs w)) = None ->
  worldOk w ->
  safeNumbers (state w) ->
  safeNumbers (state (worldOf (handleCommand command w))) ->
  config (state (worldOf (handleCommand command w))) <> config (state w) ->
  globalResultLimit (state (worldOf (handleCommand command w))) <> 0%Z ->
  readFile (fs (worldOf (handleCommand command w))) DEFAULT_SETTINGS_FILE
  = Some (JsonText (savableState (state (worldOf (handleCommand command w)))))
  /\ config (state (start (bootWorld (fs (worldOf (handleCommand command w))))))
     = config (state (worldOf (handleCommand command w)))
  /\ config (state (worldOf
                      (answerAll env order
                         (start (bootWorld (fs (worldOf (handleCommand command w))))))))
     = config (state (worldOf (handleCommand command w))).
Proof.
  intros Hload Hwr Hok _ _ Hchg Hg.
  pose proof (worldOk_handleCommand command Hok) as Hok'.
  destruct (command_config_or_autosave command w Hload) as [E | [v [E Hfs]]];
    [contradiction |].
  assert (Hread : readFile (fs (worldOf (handleCommand command w))) DEFAULT_SETTINGS_FILE
                  = Some (JsonText (savableState (state (worldOf (handleCommand command w)))))).
  { rewrite E; cbn [fs state updateStatusBar]; rewrite state_autosaveState.
    unfold autosaveState.
    destruct (fs_saveState DEFAULT_SETTINGS_FILE v) as [Hsame | Hw].
    - unfold saveState in Hsame |- *; unfold writeFile in *.
      rewrite Hfs, Hwr in *; cbn [fst fs withFs] in *.
      unfold readFile; cbn [entries]; apply assoc_assocSet.
    - now rewrite (readFile_writeFile _ _ _ Hw). }
  assert (Hstart : config (state (start (bootWorld (fs (worldOf (handleCommand command w))))))
                   = config (state (worldOf (handleCommand command w)))).
  { apply config_start_saved; trivial.
    now destruct Hok' as [[_ Hs] _]. }
  split; [exact Hread | split; [exact Hstart |]].
  now rewrite config_answerAll.
Qed.

Lemma changes_are_saved_for_the_next_start_witness :
  actionIn [lit "load"] Sample.addRedditPi = false
  /\ assoc DEFAULT_SETTINGS_FILE (unwritable (fs Sample.freshWorld)) = None
  /\ worldOk Sample.freshWorld
  /\ safeNumbers (state Sample.freshWorld)
  /\ safeNumbers (state (worldOf (handleCommand Sample.addRedditPi Sample.freshWorld)))
  /\ config (state (worldOf (handleCommand Sample.addRedditPi Sample.freshWorld)))
     <> config (state Sample.freshWorld)
  /\ globalResultLimit
       (state (worldOf (handleCommand Sample.addRedditPi Sample.freshWorld))) <> 0%Z
  /\ readFile (fs (worldOf (handleCommand Sample.addRedditPi Sample.freshWorld)))
              DEFAULT_SETTINGS_FILE
     = Some (JsonText (savableState
               (state (worldOf (handleCommand Sample.addRedditPi Sample.freshWorld)))))
  /\ config (state (start (bootWorld
                             (fs (worldOf (handleCommand Sample.addRedditPi
                                                         Sample.freshWorld))))))
     = config (state (worldOf (handleCommand Sample.addRedditPi Sample.freshWorld)))
  /\ config (state (worldOf
                      (answerAll SampleFlight.answeringEnv [0]
                         (start (bootWorld
                                   (fs (worldOf (handleCommand Sample.addRedditPi
                                                               Sample.freshWorld))))))))
     = config (state (worldOf (handleCommand Sample.addRedditPi Sample.freshWorld))).
Proof.
  assert (H1 : actionIn [lit "load"] Sample.addRedditPi = false) by reflexivity.
  assert (H2 : assoc DEFAULT_SETTINGS_FILE (unwritable (fs Sample.freshWorld)) = None)
    by reflexivity.
  assert (H3 : worldOk Sample.freshWorld).
  { split; [split; [split |] |].
    - simpl; lia.
    - intros [] n H; discriminate H.
    - repeat split; constructor.
    - intros name d []. }
  assert (H4 : safeNumbers (state Sample.freshWorld)).
  { split; [reflexivity | split; [reflexivity |]].
    intros [] n H; discriminate H. }
  assert (H5 : safeNumbers
                 (state (worldOf (handleCommand Sample.addRedditPi Sample.freshWorld)))).
  { split; [reflexivity | split; [reflexivity |]].
    intros [] n H; discriminate H. }
  assert (H6 : config (state (worldOf (handleCommand Sample.addRedditPi
                                                     Sample.freshWorld)))
               <> config (state Sample.freshWorld))
    by (vm_compute; discriminate).
  assert (H7 : globalResultLimit
                 (state (worldOf (handleCommand Sample.addRedditPi Sample.freshWorld)))
               <> 0%Z) by (vm_compute; discriminate).
  split; [exact H1 | split; [exact H2 | split; [exact H3 | split; [exact H4 |]]]].
  split; [exact H5 | split; [exact H6 | split; [exact H7 |]]].
  exact (@changes_are_saved_for_the_next_start SampleFlight.answeringEnv [0]
           Sample.addRedditPi Sample.freshWorld H1 H2 H3 H4 H5 H6 H7).
Defined.

(** ** Limits by source *)

Lemma dispatch_tilde command src args w :
  dispatch command (lit "~" ++ keyName src) args w
  = limitCommand (lit "~" ++ keyName src) args w.
Proof. destruct src; reflexivity. Qed.

Lemma sourceOfName_keyName src : sourceOfName (keyName src) = Some src.
Proof. destruct src; reflexivity. Qed.

Lemma parseInt_not_default a k :
  parseInt (Some a) = Some k -> str_eqb (toLowerCase a) (lit "default") = false.
Proof.
  intros Hp; apply str_eqb_neq; intros E.
  destruct a as [| c a]; [discriminate E |].
  injection E as Ec _.
  destruct c as [[] [] [] [] [] [] [] []]; try discriminate Ec; discriminate Hp.
Qed.

Lemma parseInt_truthy a k : parseInt (Some a) = Some k -> truthy (Some a) = true.
Proof. destruct a; [discriminate | reflexivity]. Qed.

Lemma state_limit_set command src a k w :
  parseCommand command = Some (lit "~" ++ keyName src, [a]) ->
  parseInt (Some a) = Some k -> (0 <= k)%Z ->
  state (worldOf (handleCommand command w))
  = withLimits (state w) (limSet (limits (state w)) src (Some k)).
Proof.
  intros Hp Hi Hk.
  rewrite (@handleCommand_parsed command _ _ w Hp), dispatch_tilde.
  unfold limitCommand.
  change (substring 1 (lit "~" ++ keyName src)) with (keyName src).
  rewrite sourceOfName_keyName; cbn [hd_error hd].
  rewrite (parseInt_truthy _ Hi), (parseInt_not_default _ Hi), Hi; cbn [negb].
  apply Z.leb_le in Hk; rewrite Hk.
  unfold finishCommand; cbn [worldOf state updateStatusBar].
  now rewrite state_autosaveState.
Qed.

Lemma state_limit_default command src a w :
  parseCommand command = Some (lit "~" ++ keyName src, [a]) ->
  toLowerCase a = lit "default" ->
  state (worldOf (handleCommand command w))
  = withLimits (state w) (limSet (limits (state w)) src None).
Proof.
  intros Hp Hd.
  rewrite (@handleCommand_parsed command _ _ w Hp), dispatch_tilde.
  unfold limitCommand.
  change (substring 1 (lit "~" ++ keyName src)) with (keyName src).
  rewrite sourceOfName_keyName; cbn [hd_error hd].
  assert (Ht : truthy (Some a) = true) by (destruct a; [discriminate Hd | reflexivity]).
  rewrite Ht, Hd; cbn [negb].
  change (str_eqb (lit "default") (lit "default")) with true; cbv iota.
  unfold finishCommand; cbn [worldOf state updateStatusBar].
  now rewrite state_autosaveState.
Qed.

Lemma state_set_list command a b g w :
  parseCommand command = Some (lit "set", [a; b]) ->
  toLowerCase a = lit "list" ->
  parseInt (Some b) = Some g -> (0 <= g)%Z ->
  state (worldOf (handleCommand command w)) = withGlobalResultLimit (state w) g.
Proof.
  intros Hp Ha Hi Hg.
  rewrite (@handleCommand_parsed command _ _ w Hp), dispatch_set.
  unfold setCommand; cbn [hd_error hd nth_error].
  assert (Ht : truthy (Some a) = true) by (destruct a; [discriminate Ha | reflexivity]).
  rewrite Ht, Ha, Hi.
  change (str_eqb (lit "list") (lit "list")) with true; cbv iota.
  apply Z.leb_le in Hg; rewrite Hg.
  unfold finishCommand; cbn [worldOf state updateStatusBar].
  now rewrite state_autosaveState.
Qed.

(** X19.  How the limits compose.  A limit set for one source with
    [~<src> <k>] holds for that source only; a new global limit set with
    [set list <g>] then changes the limit of every source but those with a
    limit of their own; and [~<src> default] gives the source the global
    limit of that moment, not the one from before.  The numbers typed
    are safe integers, which [parseInt] reads exactly. *)
Theorem limit_of_a_source_overrides_the_global
        (src : SourceKey) (setOwn setGlobal setDefault a b c d : str) (k g : Z)
        (w : World) (n : SourceName) :
  parseCommand setOwn = Some (lit "~" ++ keyName src, [a]) ->
  parseInt (Some a) = Some k -> (0 <= k <= MAX_SAFE_INTEGER)%Z ->
  parseCommand setGlobal = Some (lit "set", [b; c]) ->
  toLowerCase b = lit "list" -> parseInt (Some c) = Some g ->
  (0 <= g <= MAX_SAFE_INTEGER)%Z ->
  parseCommand setDefault = Some (lit "~" ++ keyName src, [d]) ->
  toLowerCase d = lit "default" ->
  let w1 := worldOf (handleCommand setOwn w) in
  let w2 := worldOf (handleCommand setGlobal w1) in
  let w3 := worldOf (handleCommand setDefault w2) in
  limitFor (state w1) n
  = (if SourceKey_eqb src (sourceKeyMap n) then k else limitFor (state w) n)
  /\ limitFor (state w2) n
     = (if SourceKey_eqb src (sourceKeyMap n) then k
        else match limGet (limits (state w)) (sourceKeyMap n) with
             | Some own => own
             | None => g
             end)
  /\ limitFor (state w3) n
     = match limGet (limits (state w)) (sourceKeyMap n) with
       | Some own => if SourceKey_eqb src (sourceKeyMap n) then g else own
       | None => g
       end
  /\ keywords (state w3) = keywords (state w).
Proof.
  intros P1 I1 [K1 _] P2 L2 I2 [G2 _] P3 D3; cbv zeta.
  rewrite !(@state_limit_default _ _ _ _ P3 D3), !(@state_set_list _ _ _ _ _ P2 L2 I2 G2),
    !(@state_limit_set _ _ _ _ _ P1 I1 K1).
  unfold limitFor; cbn [limits withLimits withGlobalResultLimit globalResultLimit keywords].
  rewrite !limGet_limSet.
  destruct (SourceKey_eqb src (sourceKeyMap n));
    destruct (limGet (limits (state w)) (sourceKeyMap n)); repeat split.
Qed.

Lemma limit_of_a_source_overrides_the_global_witness :
  parseCommand (lit "~hn 3") = Some (lit "~" ++ keyName hn, [lit "3"])
  /\ parseInt (Some (lit "3")) = Some 3%Z
  /\ (0 <= 3 <= MAX_SAFE_INTEGER)%Z
  /\ parseCommand (lit "set LIST 7") = Some (lit "set", [lit "LIST"; lit "7"])
  /\ toLowerCase (lit "LIST") = lit "list"
  /\ parseInt (Some (lit "7")) = Some 7%Z
  /\ (0 <= 7 <= MAX_SAFE_INTEGER)%Z
  /\ parseCommand (lit "~hn Default") = Some (lit "~" ++ keyName hn, [lit "Default"])
  /\ toLowerCase (lit "Default") = lit "default"
  /\ limitFor (state (worldOf (handleCommand (lit "~hn 3") Sample.freshWorld)))
              HackerNews
     = (if SourceKey_eqb hn (sourceKeyMap HackerNews) then 3%Z
        else limitFor (state Sample.freshWorld) HackerNews)
  /\ limitFor (state (worldOf (handleCommand (lit "set LIST 7")
                        (worldOf (handleCommand (lit "~hn 3") Sample.freshWorld)))))
              HackerNews
     = (if SourceKey_eqb hn (sourceKeyMap HackerNews) then 3%Z
        else match limGet (limits (state Sample.freshWorld)) (sourceKeyMap HackerNews) with
             | Some own => own
             | None => 7%Z
             end)
  /\ limitFor (state (worldOf (handleCommand (lit "~hn Default")
                        (worldOf (handleCommand (lit "set LIST 7")
                           (worldOf (handleCommand (lit "~hn 3") Sample.freshWorld)))))))
              HackerNews
     = match limGet (limits (state Sample.freshWorld)) (sourceKeyMap HackerNews) with
       | Some own => if SourceKey_eqb hn (sourceKeyMap HackerNews) then 7%Z else own
       | None => 7%Z
       end
  /\ keywords (state (worldOf (handleCommand (lit "~hn Default")
                        (worldOf (handleCommand (lit "set LIST 7")
                           (worldOf (handleCommand (lit "~hn 3") Sample.freshWorld)))))))
     = keywords (state Sample.freshWorld).
Proof.
  assert (P1 : parseCommand (lit "~hn 3") = Some (lit "~" ++ keyName hn, [lit "3"]))
    by reflexivity.
  assert (I1 : parseInt (Some (lit "3")) = Some 3%Z) by reflexivity.
  assert (K1 : (0 <= 3 <= MAX_SAFE_INTEGER)%Z) by (unfold MAX_SAFE_INTEGER; lia).
  assert (P2 : parseCommand (lit "set LIST 7") = Some (lit "set", [lit "LIST"; lit "7"]))
    by reflexivity.
  assert (L2 : toLowerCase (lit "LIST") = lit "list") by reflexivity.
  assert (I2 : parseInt (Some (lit "7")) = Some 7%Z) by reflexivity.
  assert (G2 : (0 <= 7 <= MAX_SAFE_INTEGER)%Z) by (unfold MAX_SAFE_INTEGER; lia).
  assert (P3 : parseCommand (lit "~hn Default")
               = Some (lit "~" ++ keyName hn, [lit "Default"])) by reflexivity.
  assert (D3 : toLowerCase (lit "Default") = lit "default") by reflexivity.
  repeat (split; [assumption |]).
  exact (@limit_of_a_source_overrides_the_global hn (lit "~hn 3") (lit "set LIST 7")
           (lit "~hn Default") (lit "3") (lit "LIST") (lit "7") (lit "Default")
           3%Z 7%Z Sample.freshWorld HackerNews P1 I1 K1 P2 L2 I2 G2 P3 D3).
Defined.

(** ** The subreddit of a Reddit item *)

Lemma subredditMatch_step c s :
  subredditMatch (c :: s)
  = if startsSubreddit (c :: s) then Some (takeWhile isWordChar (skipn 1 s))
    else subredditMatch s.
Proof.
  cbn [subredditMatch startsSubreddit].
  destruct s as [| d [| x s]].
  - reflexivity.
  - destruct (ascii_dec c "r"); [| reflexivity].
    destruct (ascii_dec d "/"); reflexivity.
  - destruct (ascii_dec c "r"); [| reflexivity].
    destruct (ascii_dec d "/"); [| reflexivity].
    cbn [takeWhile skipn andb]; destruct (isWordChar x); reflexivity.
Qed.

Lemma takeWhile_split {A} (f : A -> bool) l :
  l = takeWhile f l ++ skipn (length (takeWhile f l)) l
  /\ forallb f (takeWhile f l) = true
  /\ match skipn (length (takeWhile f l)) l with
     | x :: _ => f x = false
     | [] => True
     end.
Proof.
  induction l as [| x l [IH1 [IH2 IH3]]]; [repeat split |].
  cbn [takeWhile]; destruct (f x) eqn:E.
  - cbn [length skipn app forallb]; rewrite E; repeat split; trivial.
    now f_equal.
  - cbn [length skipn app forallb]; repeat split; trivial.
Qed.

Lemma startsSubreddit_prefix c pre rest :
  startsSubreddit (c :: pre ++ lit "r") = false ->
  startsSubreddit (c :: pre ++ lit "r/" ++ rest) = false.
Proof.
  destruct pre as [| d [| x pre]]; cbn [app startsSubreddit lit]; trivial.
  change (lit "r/" ++ rest) with ("r"%char :: "/"%char :: rest).
  change (lit "r") with ["r"%char]; cbn [app startsSubreddit]; intros _.
  destruct (ascii_dec c "r"); [| reflexivity].
  destruct (ascii_dec "r" "/"); [discriminate | reflexivity].
Qed.

Lemma subredditMatch_found pre name post :
  name <> [] -> forallb isWordChar name = true ->
  wordish (hd_error post) = false ->
  subredditMatch (pre ++ lit "r") = None ->
  subredditMatch (pre ++ lit "r/" ++ name ++ post) = Some name.
Proof.
  intros Hne Hw Hpost.
  induction pre as [| c pre IH]; intros Hpre.
  - change ([] ++ lit "r/" ++ name ++ post)
      with ("r"%char :: "/"%char :: name ++ post).
    rewrite subredditMatch_step.
    destruct name as [| x name]; [now destruct Hne |].
    cbn [forallb] in Hw; apply andb_true_iff in Hw as [Hx Hw].
    cbn [app startsSubreddit]; rewrite Hx.
    destruct (ascii_dec "r" "r") as [_ | Hn]; [| now destruct Hn].
    destruct (ascii_dec "/" "/") as [_ | Hn]; [| now destruct Hn].
    cbn [andb skipn]; f_equal.
    change (x :: name ++ post) with ((x :: name) ++ post).
    destruct post as [| y post].
    + rewrite app_nil_r; apply takeWhile_all; cbn [forallb]; now rewrite Hx.
    + apply takeWhile_app_stop; [cbn [forallb]; now rewrite Hx | exact Hpost].
  - cbn [app] in *; rewrite subredditMatch_step in Hpre |- *.
    destruct (startsSubreddit (c :: pre ++ lit "r")) eqn:E; [discriminate Hpre |].
    rewrite (startsSubreddit_prefix _ _ _ E); now apply IH.
Qed.

Lemma subredditMatch_sound raw : forall name,
  subredditMatch raw = Some name ->
  exists pre post,
    raw = pre ++ lit "r/" ++ name ++ post
    /\ name <> [] /\ forallb isWordChar name = true
    /\ wordish (hd_error post) = false
    /\ subredditMatch (pre ++ lit "r") = None.
Proof.
  induction raw as [| c raw IH]; intros name H; [discriminate H |].
  rewrite subredditMatch_step in H.
  destruct (startsSubreddit (c :: raw)) eqn:E.
  - injection H as <-.
    destruct raw as [| d [| x raw]]; try discriminate E.
    cbn [startsSubreddit] in E.
    destruct (ascii_dec c "r") as [-> |]; [| discriminate E].
    destruct (ascii_dec d "/") as [-> |]; [| discriminate E].
    cbn [andb] in E; cbn [skipn].
    destruct (takeWhile_split isWordChar (x :: raw)) as [S1 [S2 S3]].
    exists [], (skipn (length (takeWhile isWordChar (x :: raw))) (x :: raw)).
    split; [| split; [| split; [| split]]].
    + change ([] ++ lit "r/" ++ ?a) with ("r"%char :: "/"%char :: a).
      now rewrite <- S1.
    + cbn [takeWhile]; rewrite E; discriminate.
    + exact S2.
    + destruct (skipn _ _); [reflexivity | exact S3].
    + reflexivity.
  - destruct (IH _ H) as [pre [post [-> [Hne [Hw [Hp Hpre]]]]]].
    exists (c :: pre), post; repeat split; trivial.
    cbn [app]; rewrite subredditMatch_step, Hpre.
    destruct (startsSubreddit (c :: pre ++ lit "r")) eqn:E'; trivial.
    exfalso.
    destruct pre as [| d [| x pre]]; cbn [app startsSubreddit lit] in E, E';
      try discriminate E'.
    + change (lit "r") with ["r"%char] in E'; cbn [app startsSubreddit] in E'.
      change (lit "r/" ++ name ++ post) with ("r"%char :: "/"%char :: name ++ post) in E.
      cbn [app startsSubreddit] in E; congruence.
    + change (lit "r") with ["r"%char] in E'; cbn [app startsSubreddit] in E'.
      change (lit "r/" ++ name ++ post) with ("r"%char :: "/"%char :: name ++ post) in E.
      cbn [app startsSubreddit] in E; congruence.
Qed.

Lemma subredditMatch_none raw :
  subredditMatch raw = None <->
  forall pre x post, raw = pre ++ lit "r/" ++ x :: post -> isWordChar x = false.
Proof.
  induction raw as [| c raw IH].
  - split; [| reflexivity].
    intros _ pre x post E; destruct pre; discriminate E.
  - rewrite subredditMatch_step; split.
    + destruct (startsSubreddit (c :: raw)) eqn:E; [discriminate |].
      intros H pre x post Eq.
      pose proof (proj1 IH H) as H'.
      destruct pre as [| c' pre].
      * change ([] ++ lit "r/" ++ x :: post) with ("r"%char :: "/"%char :: x :: post) in Eq.
        injection Eq as -> ->.
        cbn [startsSubreddit] in E.
        destruct (ascii_dec "r" "r") as [_ | Hn]; [| now destruct Hn].
        destruct (ascii_dec "/" "/") as [_ | Hn]; [| now destruct Hn].
        exact E.
      * injection Eq as _ Eq'; eapply H'; exact Eq'.
    + intros H.
      destruct (startsSubreddit (c :: raw)) eqn:E.
      * destruct raw as [| d [| x raw]]; try discriminate E.
        cbn [startsSubreddit] in E.
        destruct (ascii_dec c "r") as [-> |]; [| discriminate E].
        destruct (ascii_dec d "/") as [-> |]; [| discriminate E].
        cbn [andb] in E.
        rewrite (H [] x raw) in E by reflexivity; discriminate E.
      * apply IH; intros pre x post ->.
        apply (H (c :: pre) x post); reflexivity.
Qed.

(** X20.  The subreddit shown for a Reddit item is the word after the
    first [r/] of its raw content that a word character follows, taken as
    far as the word characters go.  Nothing has to stand before the [r]:
    the [r] may end a longer word.  An item whose raw content has no [r/]
    before a word character shows no subreddit. *)
Theorem subreddit_is_the_word_after_the_first_r_slash (raw : str) :
  (forall name,
     subredditMatch raw = Some name <->
     exists pre post,
       raw = pre ++ lit "r/" ++ name ++ post
       /\ name <> [] /\ forallb isWordChar name = true
       /\ wordish (hd_error post) = false
       /\ subredditMatch (pre ++ lit "r") = None)
  /\ (subredditMatch raw = None <->
      forall pre x post, raw = pre ++ lit "r/" ++ x :: post -> isWordChar x = false).
Proof.
  split; [| apply subredditMatch_none].
  intros name; split; [apply subredditMatch_sound |].
  intros [pre [post [-> [Hne [Hw [Hp Hpre]]]]]]; now apply subredditMatch_found.
Qed.

(** ** The empty keyword *)

Lemma exec_empty_keyword s : forall prev,
  match exec (keywordPattern []) prev s with Some _ => true | None => false end
  = wordish prev || existsb isWordChar s.
Proof.
  induction s as [| c s IH]; intros prev.
  - cbn [exec keywordPattern map app matchHere]; unfold boundary; cbn [hd_error wordish].
    destruct (wordish prev); reflexivity.
  - cbn [exec keywordPattern map app matchHere]; unfold boundary; cbn [hd_error existsb].
    change (wordish (Some c)) with (isWordChar c).
    destruct (wordish prev) eqn:Ep, (isWordChar c) eqn:Ec; cbn [xorb orb]; trivial.
    + specialize (IH (Some c)); cbn [wordish] in IH.
      rewrite Ec in IH; cbn [orb] in IH.
      change [WordBoundary; WordBoundary] with (keywordPattern []).
      destruct (exec (keywordPattern []) (Some c) s) as [[i n] |];
        [reflexivity | discriminate IH].
    + specialize (IH (Some c)); cbn [wordish] in IH.
      rewrite Ec in IH; cbn [orb] in IH.
      change [WordBoundary; WordBoundary] with (keywordPattern []).
      destruct (exec (keywordPattern []) (Some c) s) as [[i n] |]; exact IH.
Qed.

Lemma finalResults_pushed kws : forall unique final it pushed,
  finalResults kws unique = Done final ->
  In it unique ->
  matchItem kws it = Done pushed ->
  incl pushed final.
Proof.
  induction unique as [| a unique IH]; intros final it pushed Hf Hin Hm; [destruct Hin |].
  apply finalResults_cons in Hf as (p & more & Ea & Er & ->).
  destruct Hin as [-> | Hin].
  - rewrite Hm in Ea; injection Ea as <-; now apply incl_appl.
  - apply incl_appr; eapply IH; eassumption.
Qed.

(** X21.  The empty keyword, which the add command accepts, is found in
    every text that holds a word character: its pattern is two word
    boundaries with nothing between them.  While it is among the
    keywords, every deduplicated item whose title or snippet holds a
    letter, a digit or an underscore is a result, whatever the other
    keywords are, when every item of the cycle has a title; an item
    without a title always matches it, and ends the cycle with an
    error. *)
Theorem empty_keyword_matches_every_item (kws : list str) (unique : list Item) (it : Item) :
  In [] kws ->
  In it unique ->
  test (keywordPattern []) (scannedText it) = existsb isWordChar (scannedText it)
  /\ (existsb isWordChar (scannedText it) = true ->
      (forall other, In other unique -> title other <> None) ->
      exists final r,
        finalResults kws unique = Done final
        /\ In r final /\ res_item r = it /\ In [] (res_matchedKeywords r))
  /\ (title it = None ->
      existsb isWordChar (scannedText it) = true
      /\ finalResults kws unique = Thrown noLength).
Proof.
  intros Hk Hit.
  assert (Et : test (keywordPattern []) (scannedText it)
               = existsb isWordChar (scannedText it))
    by (unfold test; now rewrite exec_empty_keyword).
  assert (Hmatch : existsb isWordChar (scannedText it) = true -> hasMatch kws it = true).
  { intros Hw; unfold hasMatch; apply existsb_exists; exists []; split; trivial.
    unfold keywordHits; congruence. }
  split; [exact Et | split].
  - intros Hw Htitled.
    destruct (finalResults kws unique) as [final | message] eqn:Ef.
    + destruct (matchItem_cases kws it)
        as [[Hn _] | [(_ & Hnone & _) | (_ & t & r & _ & E & Ei & Em & _)]].
      * rewrite (Hmatch Hw) in Hn; discriminate Hn.
      * now destruct (Htitled it Hit).
      * exists final, r; split; [reflexivity | split; [| split; [exact Ei |]]].
        -- apply (@finalResults_pushed kws unique final it [r] Ef Hit E); now left.
        -- rewrite Em, set_from_In, filter_In; split; trivial.
           unfold keywordHits; congruence.
    + assert (Hex : exists message, finalResults kws unique = Thrown message)
        by (exists message; exact Ef).
      apply finalResults_Thrown in Hex as (other & Ho & _ & Hnone).
      now destruct (Htitled other Ho).
  - intros Hnone.
    assert (Hw : existsb isWordChar (scannedText it) = true)
      by (unfold scannedText; rewrite Hnone; reflexivity).
    split; [exact Hw |].
    assert (Hex : exists message, finalResults kws unique = Thrown message)
      by (apply finalResults_Thrown; exists it; auto).
    destruct Hex as [message Hex]; rewrite Hex; f_equal.
    clear - Hex; revert Hex; induction unique as [| a unique IH]; [discriminate |].
    cbn [finalResults].
    destruct (matchItem_cases kws a)
      as [[_ ->] | [(_ & _ & ->) | (_ & t & r & _ & -> & _)]].
    + destruct (finalResults kws unique); [discriminate |].
      intros E; injection E as <-; now apply IH.
    + now intros E; injection E as <-.
    + destruct (finalResults kws unique); [discriminate |].
      intros E; injection E as <-; now apply IH.
Qed.

Lemma empty_keyword_matches_every_item_witness :
  In [] [lit "rust"; []]
  /\ In SampleText.piano [SampleText.piano]
  /\ test (keywordPattern []) (scannedText SampleText.piano)
     = existsb isWordChar (scannedText SampleText.piano)
  /\ (existsb isWordChar (scannedText SampleText.piano) = true ->
      (forall other, In other [SampleText.piano] -> title other <> None) ->
      exists final r,
        finalResults [lit "rust"; []] [SampleText.piano] = Done final
        /\ In r final /\ res_item r = SampleText.piano
        /\ In [] (res_matchedKeywords r))
  /\ (title SampleText.piano = None ->
      existsb isWordChar (scannedText SampleText.piano) = true
      /\ finalResults [lit "rust"; []] [SampleText.piano] = Thrown noLength).
Proof.
  assert (H1 : In [] [lit "rust"; []]) by (simpl; tauto).
  assert (H2 : In SampleText.piano [SampleText.piano]) by (simpl; tauto).
  split; [exact H1 | split; [exact H2 |]].
  exact (@empty_keyword_matches_every_item [lit "rust"; []] [SampleText.piano]
           SampleText.piano H1 H2).
Defined.

(** The empty keyword alone makes a result of the piano, and an error of
    the item without a title. *)
Example empty_keyword_samples :
  (exists r, finalResults [[]] [SampleText.piano] = Done [r]
             /\ res_matchedKeywords r = [[]])
  /\ finalResults [[]] [SampleCycle.untitledItem] = Thrown noLength.
Proof. split; [eexists; split |]; vm_compute; reflexivity. Qed.

(** ** Commands of white space *)

Lemma tokenAt_space c s : isWhiteSpace c = true -> tokenAt (c :: s) = None.
Proof.
  intros Hc; unfold tokenAt.
  assert (Hd : c <> dquote) by (intros ->; discriminate Hc).
  assert (Hs : c <> squote) by (intros ->; discriminate Hc).
  rewrite !quotedToken_other by assumption.
  unfold bareToken; cbn [takeWhile]; now rewrite Hc.
Qed.

Lemma tokenAt_word c s : isWhiteSpace c = false -> tokenAt (c :: s) <> None.
Proof.
  intros Hc; unfold tokenAt.
  destruct (quotedToken dquote (c :: s)); [discriminate |].
  destruct (quotedToken squote (c :: s)); [discriminate |].
  unfold bareToken; cbn [takeWhile]; rewrite Hc; discriminate.
Qed.

Lemma matchAll_nil s : forall fuel,
  length s <= fuel -> (matchAll fuel s = [] <-> forallb isWhiteSpace s = true).
Proof.
  induction s as [| c s IH]; intros fuel Hf.
  - destruct fuel; split; reflexivity.
  - cbn [length] in Hf; destruct fuel as [| fuel]; [lia |].
    cbn [matchAll forallb].
    destruct (isWhiteSpace c) eqn:Ec.
    + rewrite (@tokenAt_space c s Ec); cbn [andb]; apply IH; lia.
    + pose proof (@tokenAt_word c s Ec) as Ht.
      destruct (tokenAt (c :: s)); [| now destruct Ht].
      cbn [andb]; split; discriminate.
Qed.

Lemma dispatch_never_throws command action args w message w' :
  dispatch command action args w <> Threw message w'.
Proof.
  unfold dispatch.
  destruct (_ || _); [unfold keywordCommand, finishCommand; discriminate |].
  destruct (startsWith action (lit "~")).
  { unfold limitCommand, finishCommand.
    destruct (sourceOfName _); [| discriminate].
    destruct (negb (truthy (hd_error args))); [discriminate |].
    destruct (str_eqb (toLowerCase (hd [] args)) (lit "default")); [discriminate |].
    destruct (parseInt (hd_error args)) as [limit |]; [| discriminate].
    destruct (0 <=? limit)%Z; discriminate. }
  destruct (str_eqb action (lit "list")); [discriminate |].
  destruct (str_eqb action (lit "set")).
  { unfold setCommand, finishCommand.
    destruct (str_eqb _ (lit "list")).
    { destruct (parseInt (nth_error args 1)) as [value |]; [| discriminate].
      destruct (0 <=? value)%Z; discriminate. }
    destruct (str_eqb _ (lit "interval")).
    { destruct (parseInt (nth_error args 1)) as [value |]; [| discriminate].
      destruct (0 <? value)%Z; discriminate. }
    destruct (str_eqb _ (lit "default")); [| discriminate].
    destruct (negb (truthy (nth_error args 1))); [discriminate |].
    destruct (copyFile _ _ _); discriminate. }
  destruct (str_eqb action (lit "save")).
  { unfold saveCommand, finishCommand.
    destruct (negb (truthy (hd_error args))); [discriminate |].
    destruct (saveState _ w); discriminate. }
  destruct (str_eqb action (lit "load")).
  { unfold loadCommand, finishCommand.
    destruct (negb (truthy (hd_error args))); [discriminate |].
    destruct (find _ _); discriminate. }
  destruct (str_eqb _ (lit "help")); [discriminate |].
  destruct (str_eqb _ (lit "fetch")); [discriminate |].
  destruct (str_eqb _ (lit "clear")); [discriminate |].
  destruct (str_eqb _ (lit "exit")); discriminate.
Qed.

(** X22.  A command throws exactly when it is not empty and holds white
    space only: it has no first word to read the action from.  The error
    is that of reading [toLowerCase] of [undefined], and the state, the
    files, the output and the requests in flight are as they were.  Every
    other command returns, or exits. *)
Theorem only_a_blank_command_throws (command : str) (w : World) :
  (handleCommand command w = Threw noAction w
   <-> command <> [] /\ forallb isWhiteSpace command = true)
  /\ (forall message w',
        handleCommand command w = Threw message w' -> message = noAction /\ w' = w)
  /\ ((exists w', handleCommand command w = Returned w'
                  \/ handleCommand command w = Exited w')
      <-> ~ (command <> [] /\ forallb isWhiteSpace command = true)).
Proof.
  unfold handleCommand, parseCommand, tokenize.
  destruct command as [| c command].
  { split; [| split].
    - split; [intros H; discriminate H | intros [H _]; now destruct H].
    - intros m w' H; discriminate H.
    - split; [intros _ [H _]; now destruct H | intros _; exists w; now left]. }
  pose proof (@matchAll_nil (c :: command) (length (c :: command)) (le_n _)) as Hnil.
  destruct (matchAll (length (c :: command)) (c :: command)) as [| first parts].
  - split; [| split].
    + split; [intros _; split; [discriminate | now apply Hnil] | reflexivity].
    + intros m w' H; injection H as <- <-; now split.
    + split.
      * intros [w' [H | H]]; discriminate H.
      * intros H; destruct H; split; [discriminate | now apply Hnil].
  - split; [| split].
    + split.
      * intros H; now apply dispatch_never_throws in H.
      * intros [_ Hws]; apply Hnil in Hws; discriminate Hws.
    + intros m w' H; now apply dispatch_never_throws in H.
    + split.
      * intros _ [_ Hws]; apply Hnil in Hws; discriminate Hws.
      * intros _.
        match goal with
        | |- context [dispatch ?a ?b ?c ?d] =>
          pose proof (fun m v => @dispatch_never_throws a b c d m v) as Hd;
            destruct (dispatch a b c d) as [v | v | m v]
        end.
        -- exists v; now left.
        -- exists v; now right.
        -- now destruct (Hd m v).
Qed.

(** A line of blanks throws and leaves the world alone. *)
Example blank_command_throws :
  handleCommand (lit "   ") Sample.piWorld = Threw noAction Sample.piWorld.
Proof. reflexivity. Qed.

(** ** Saving and loading by command *)

Lemma startsWith_refl f : startsWith f f = true.
Proof.
  induction f as [| c f IH]; simpl; trivial.
  destruct (ascii_dec c c) as [_ | Hn]; [exact IH | now destruct Hn].
Qed.

Lemma config_loadState_saved f w s :
  readFile (fs w) f = Some (JsonText (savableState s)) ->
  setsOk (keywords s) ->
  globalResultLimit s <> 0%Z ->
  config (state (loadState f w)) = config s.
Proof.
  intros Hread [Hr [Hh Hd]] Hg.
  unfold loadState; rewrite Hread.
  unfold applyState; cbn [sd_keywords sd_limits sd_fetchIntervalMinutes savableState
                          sd_globalResultLimit ka_reddit ka_hn ka_ddg orEmpty].
  rewrite !set_from_NoDup_id by assumption.
  assert (Eg : orTen (Some (globalResultLimit s)) = globalResultLimit s)
    by (unfold orTen; apply Z.eqb_neq in Hg; now rewrite Hg).
  rewrite Eg; unfold config; cbn.
  destruct s as [[r h d] ? ? ? ? ?]; reflexivity.
Qed.

Lemma readdir_flat f : flat f -> readdir f = map fst (entries f).
Proof.
  unfold flat, readdir; intros H.
  induction (map fst (entries f)) as [| name names IH]; [reflexivity |].
  cbn [filter]; rewrite (H name) by now left.
  f_equal; apply IH; intros other Ho; apply H; now right.
Qed.

(** X23.  A configuration saved with [save <file>] comes back with
    [load <file>], whatever was changed in between, as long as the file
    was not written again: the keyword sets, the limits and the interval
    are those of the moment of the save.  This needs a plain file name,
    without a directory part, that ends with [.json] and is the only
    settings file of the directory whose name begins with what was typed;
    a directory whose files are all known under plain names; a global
    limit other than zero; and numbers that are safe integers, which are
    written and read back exactly. *)
Theorem saved_file_is_loaded_back (saveCmd loadCmd f : str) (w w2 : World) :
  parseCommand saveCmd = Some (lit "save", [f]) ->
  parseCommand loadCmd = Some (lit "load", [f]) ->
  isPlainName f = true ->
  endsWith f (lit ".json") = true ->
  assoc f (unwritable (fs w)) = None ->
  setsOk (keywords (state w)) ->
  safeNumbers (state w) ->
  globalResultLimit (state w) <> 0%Z ->
  flat (fs w2) ->
  readFile (fs w2) f = readFile (fs (worldOf (handleCommand saveCmd w))) f ->
  (forall name, In name (readdir (fs w2)) ->
                startsWith name f = true -> endsWith name (lit ".json") = true ->
                name = f) ->
  state (worldOf (handleCommand saveCmd w)) = state w
  /\ readFile (fs (worldOf (handleCommand saveCmd w))) f
     = Some (JsonText (savableState (state w)))
  /\ config (state (worldOf (handleCommand loadCmd w2))) = config (state w).
Proof.
  intros Ps Pl Hplain Hjson Hwr Hsets _ Hg Hflat Hkeep Huniq.
  assert (Hf : f <> []) by (intros ->; discriminate Hplain).
  assert (Ht : truthy (Some f) = true) by (destruct f; [now destruct Hf | reflexivity]).
  assert (Hsave : state (worldOf (handleCommand saveCmd w)) = state w
                  /\ readFile (fs (worldOf (handleCommand saveCmd w))) f
                     = Some (JsonText (savableState (state w)))).
  { rewrite (@handleCommand_parsed saveCmd _ _ w Ps), dispatch_save.
    unfold saveCommand; cbn [hd_error hd]; rewrite Ht; cbn [negb].
    unfold saveState, writeFile; rewrite Hwr.
    unfold finishCommand; cbn [worldOf state fs updateStatusBar log withFs].
    split; [reflexivity |].
    unfold readFile; cbn [entries]; apply assoc_assocSet. }
  destruct Hsave as [S1 S2].
  split; [exact S1 | split; [exact S2 |]].
  rewrite S2 in Hkeep.
  rewrite (@handleCommand_parsed loadCmd _ _ w2 Pl), dispatch_load.
  unfold loadCommand; cbn [hd_error hd]; rewrite Ht; cbn [negb].
  destruct (find (fun n => startsWith n f && endsWith n (lit ".json"))
                 (readdir (fs w2))) as [target |] eqn:Efind.
  - apply find_some in Efind as [Hin Hm].
    apply andb_true_iff in Hm as [Hm1 Hm2].
    rewrite (Huniq target Hin Hm1 Hm2).
    unfold finishCommand; cbn [worldOf state updateStatusBar].
    now apply config_loadState_saved.
  - exfalso.
    assert (Hin : In f (readdir (fs w2))).
    { rewrite (readdir_flat Hflat).
      unfold readFile in Hkeep; apply assoc_In in Hkeep.
      apply in_map_iff; exists (f, JsonText (savableState (state w))); now split. }
    pose proof (find_none _ _ Efind f Hin) as Hn; cbn beta in Hn.
    rewrite startsWith_refl, Hjson in Hn; discriminate Hn.
Qed.

Lemma saved_file_is_loaded_back_witness :
  parseCommand SampleSave.saveWork = Some (lit "save", [lit "work.json"])
  /\ parseCommand SampleSave.loadWork = Some (lit "load", [lit "work.json"])
  /\ isPlainName (lit "work.json") = true
  /\ endsWith (lit "work.json") (lit ".json") = true
  /\ assoc (lit "work.json") (unwritable (fs Sample.piWorld)) = None
  /\ setsOk (keywords (state Sample.piWorld))
  /\ safeNumbers (state Sample.piWorld)
  /\ globalResultLimit (state Sample.piWorld) <> 0%Z
  /\ flat (fs SampleSave.changed)
  /\ readFile (fs SampleSave.changed) (lit "work.json")
     = readFile (fs (worldOf (handleCommand SampleSave.saveWork Sample.piWorld)))
                (lit "work.json")
  /\ (forall name, In name (readdir (fs SampleSave.changed)) ->
                   startsWith name (lit "work.json") = true ->
                   endsWith name (lit ".json") = true ->
                   name = lit "work.json")
  /\ state (worldOf (handleCommand SampleSave.saveWork Sample.piWorld))
     = state Sample.piWorld
  /\ readFile (fs (worldOf (handleCommand SampleSave.saveWork Sample.piWorld)))
              (lit "work.json")
     = Some (JsonText (savableState (state Sample.piWorld)))
  /\ config (state (worldOf (handleCommand SampleSave.loadWork SampleSave.changed)))
     = config (state Sample.piWorld).
Proof.
  assert (H1 : parseCommand SampleSave.saveWork = Some (lit "save", [lit "work.json"]))
    by reflexivity.
  assert (H2 : parseCommand SampleSave.loadWork = Some (lit "load", [lit "work.json"]))
    by reflexivity.
  assert (H3 : isPlainName (lit "work.json") = true) by reflexivity.
  assert (H4 : endsWith (lit "work.json") (lit ".json") = true) by reflexivity.
  assert (H5 : assoc (lit "work.json") (unwritable (fs Sample.piWorld)) = None)
    by reflexivity.
  assert (H6 : setsOk (keywords (state Sample.piWorld))).
  { repeat split; simpl; repeat constructor; simpl; tauto. }
  assert (Hsafe : safeNumbers (state Sample.piWorld)).
  { split; [reflexivity | split; [reflexivity |]].
    intros [] n H; discriminate H. }
  assert (H7 : globalResultLimit (state Sample.piWorld) <> 0%Z)
    by (vm_compute; discriminate).
  assert (Hflat : flat (fs SampleSave.changed)).
  { intros name Hin; vm_compute in Hin.
    destruct Hin as [<- | [<- | []]]; reflexivity. }
  assert (H8 : readFile (fs SampleSave.changed) (lit "work.json")
               = readFile (fs (worldOf (handleCommand SampleSave.saveWork
                                                      Sample.piWorld)))
                          (lit "work.json")) by reflexivity.
  assert (H9 : forall name, In name (readdir (fs SampleSave.changed)) ->
                 startsWith name (lit "work.json") = true ->
                 endsWith name (lit ".json") = true ->
                 name = lit "work.json").
  { intros name Hin; vm_compute in Hin.
    destruct Hin as [<- | [<- | []]]; [reflexivity | intros H; discriminate H]. }
  repeat (split; [assumption |]).
  exact (@saved_file_is_loaded_back SampleSave.saveWork SampleSave.loadWork
           (lit "work.json") Sample.piWorld SampleSave.changed
           H1 H2 H3 H4 H5 H6 Hsafe H7 Hflat H8 H9).
Defined.

(** Saved as [./work.json], the file is not found by that name: the
    directory lists it as [work.json]. *)
Example dotted_name_is_not_found :
  let saved := worldOf (handleCommand (lit "save ./work.json") Sample.piWorld) in
  readFile (fs saved) (lit "./work.json")
  = Some (JsonText (savableState (state Sample.piWorld)))
  /\ outputLines (worldOf (handleCommand (lit "load ./work.json") saved))
     = outputLines saved
         ++ [lit "{red-fg}No settings file found starting with " ++ quoted (lit "./work.json")
               ++ lit "{/red-fg}"].
Proof. split; vm_compute; reflexivity. Qed.

(** ** A cycle with failing requests *)

Lemma requestsFrom_skip env answered m tasks : forall k,
  m < k -> requestsFrom env (m :: answered) k tasks = requestsFrom env answered k tasks.
Proof.
  induction tasks as [| t tasks IH]; intros k Hm; [reflexivity |].
  cbn [requestsFrom existsb].
  replace (k =? m) with false by (symmetry; apply Nat.eqb_neq; lia).
  cbn [orb]; f_equal; apply IH; lia.
Qed.

Lemma requestsFrom_none env tasks : forall k,
  requestsFrom env [] k tasks = map (fun t => (t, None)) tasks.
Proof.
  induction tasks as [| t tasks IH]; intros k; [reflexivity |].
  cbn [requestsFrom existsb map]; f_equal; apply IH.
Qed.

Lemma settleNth_requestsFrom env answered : forall tasks k n t,
  nth_error tasks n = Some t ->
  settleNth n (settledItems env t) (requestsFrom env answered k tasks)
  = requestsFrom env ((k + n) :: answered) k tasks.
Proof.
  induction tasks as [| a tasks IH]; intros k n t Hn; [destruct n; discriminate Hn |].
  destruct n as [| n]; cbn [nth_error] in Hn.
  - injection Hn as ->.
    cbn [requestsFrom settleNth existsb].
    rewrite Nat.add_0_r, Nat.eqb_refl; cbn [orb].
    f_equal; symmetry; apply requestsFrom_skip; lia.
  - cbn [requestsFrom settleNth existsb].
    replace (k =? k + S n) with false by (symmetry; apply Nat.eqb_neq; lia).
    cbn [orb]; f_equal.
    rewrite (IH (S k) n t Hn).
    now replace (S k + n) with (k + S n) by lia.
Qed.

Lemma nth_requestsFrom env answered : forall tasks k n t,
  nth_error tasks n = Some t ->
  existsb (Nat.eqb (k + n)) answered = false ->
  nth_error (requestsFrom env answered k tasks) n = Some (t, None).
Proof.
  induction tasks as [| a tasks IH]; intros k n t Hn Ha; [destruct n; discriminate Hn |].
  destruct n as [| n]; cbn [nth_error requestsFrom] in *.
  - injection Hn as ->; rewrite Nat.add_0_r in Ha; now rewrite Ha.
  - apply IH; trivial.
    now replace (S k + n) with (k + S n) by lia.
Qed.

Lemma allSettled_requestsFrom env answered : forall tasks k,
  (forall i, k <= i < k + length tasks -> existsb (Nat.eqb i) answered = true) ->
  allSettled (requestsFrom env answered k tasks) = Some (flat_map (settledItems env) tasks).
Proof.
  induction tasks as [| t tasks IH]; intros k H; [reflexivity |].
  cbn [requestsFrom allSettled flat_map length] in *.
  rewrite (H k) by lia.
  rewrite (IH (S k)) by (intros i Hi; apply H; lia).
  reflexivity.
Qed.

Lemma hasPending_requestsFrom env answered : forall tasks k i,
  k <= i < k + length tasks ->
  existsb (Nat.eqb i) answered = false ->
  allSettled (requestsFrom env answered k tasks) = None.
Proof.
  induction tasks as [| t tasks IH]; intros k i Hi Ha; cbn [length] in Hi; [lia |].
  cbn [requestsFrom allSettled].
  destruct (Nat.eq_dec i k) as [-> | Hne]; [now rewrite Ha |].
  destruct (existsb (Nat.eqb k) answered); [| reflexivity].
  rewrite (IH (S k) i); trivial; lia.
Qed.

Lemma answerAll_one env n w : answerAll env [n] w = answer env n w.
Proof. cbn [answerAll]; now destruct (answer env n w). Qed.

(** The requests are answered one by one, each once; the answer to the
    last one runs the continuation of the cycle. *)
Lemma answerAll_complete env header tasks : forall order answered w,
  inFlight w = Some {| fl_header := header;
                       fl_requests := requestsFrom env answered 0 tasks |} ->
  NoDup order ->
  (forall n, In n order -> n < length tasks /\ existsb (Nat.eqb n) answered = false) ->
  (forall i, i < length tasks -> existsb (Nat.eqb i) answered = true \/ In i order) ->
  order <> [] ->
  answerAll env order w
  = fetchFinish env header (flat_map (settledItems env) tasks)
      (withInFlight
         (appendLines (flat_map (errorLines env) (tasksAt tasks order)) w) None).
Proof.
  induction order as [| n order IH]; intros answered w Hw Hnd Hord Hall Hne;
    [now destruct Hne |].
  destruct (Hord n (or_introl eq_refl)) as [Hlt Hn].
  destruct (nth_error tasks n) as [t |] eqn:Et;
    [| apply nth_error_None in Et; lia].
  assert (Htasks : tasksAt tasks (n :: order) = t :: tasksAt tasks order)
    by (unfold tasksAt; cbn [flat_map]; now rewrite Et).
  rewrite Htasks; cbn [flat_map].
  pose proof (@nth_requestsFrom env answered tasks 0 n t Et Hn) as Hnth.
  pose proof (@answer_pending env n w _ t Hw Hnth) as Ha.
  cbn [fl_requests fl_header] in Ha.
  rewrite (@settleNth_requestsFrom env answered tasks 0 n t Et) in Ha.
  cbn [Nat.add] in Ha.
  apply NoDup_cons_iff in Hnd as [Hnotin Hnd].
  destruct order as [| m order].
  - rewrite answerAll_one, Ha.
    rewrite allSettled_requestsFrom.
    + cbn [tasksAt flat_map]; now rewrite app_nil_r.
    + intros i Hi; cbn [existsb].
      destruct (Hall i) as [H | [<- | []]]; [lia | now rewrite H, orb_true_r |].
      now rewrite Nat.eqb_refl.
  - assert (Hm : In m (n :: m :: order)) by (right; now left).
    destruct (Hord m Hm) as [Hmlt Hma].
    assert (Hmn : m <> n) by (intros ->; apply Hnotin; now left).
    rewrite (@hasPending_requestsFrom env (n :: answered) tasks 0 m) in Ha;
      [| lia | cbn [existsb]; apply Nat.eqb_neq in Hmn; now rewrite Hmn, Hma].
    cbn [answerAll]; rewrite Ha.
    change (match answer env m ?v with
            | Returned w' => answerAll env order w'
            | ended => ended
            end) with (answerAll env (m :: order) v).
    rewrite (IH (n :: answered)); trivial.
    + cbn [inFlight withInFlight]. 
      rewrite appendLines_withInFlight. 
      reflexivity.
    + intros k Hk; destruct (Hord k (or_intror Hk)) as [Hklt Hka].
      split; [exact Hklt |].
      cbn [existsb].
      assert (Hkn : k <> n) by (intros ->; contradiction).
      apply Nat.eqb_neq in Hkn; now rewrite Hkn, Hka.
    + intros i Hi; cbn [existsb].
      destruct (Hall i Hi) as [H | [<- | H]].
      * left; now rewrite H, orb_true_r.
      * left; now rewrite Nat.eqb_refl.
      * now right.
    + discriminate.
Qed.

Lemma cycleResults_titled s raw :
  (forall it, In it raw -> hasMatch (allKeywords s) it = true -> title it <> None) ->
  exists final,
    finalResults (allKeywords s) (uniqueValues raw) = Done final
    /\ map res_item final = filter (hasMatch (allKeywords s)) (uniqueValues raw)
    /\ cycleResults s raw = Done (displayResults s final).
Proof.
  intros H; unfold cycleResults.
  destruct (finalResults (allKeywords s) (uniqueValues raw)) as [final | message] eqn:Ef.
  - exists final; split; [reflexivity | split; [| reflexivity]].
    now apply finalResults_items.
  - assert (Hex : exists m, finalResults (allKeywords s) (uniqueValues raw) = Thrown m)
      by (exists message; exact Ef).
    apply finalResults_Thrown in Hex as (it & Hin & Hm & Hnone).
    apply uniqueValues_from in Hin.
    now destruct (H it Hin Hm).
Qed.

Lemma fetchStart_issues header w t tasks :
  isFetching (state w) = false ->
  allFetchTasks (state w) = t :: tasks ->
  fetchStart header w
  = withInFlight
      (appendLines [lit "{yellow-fg}Checking for new items...{/yellow-fg}"]
                   (updateStatusBar (setFetching true w)))
      (Some {| fl_header := header;
               fl_requests := map (fun t => (t, None)) (t :: tasks) |}).
Proof.
  intros Ef Et; unfold fetchStart; rewrite Ef.
  cbn [state log updateStatusBar setFetching withState].
  replace (allFetchTasks (withIsFetching (state w) true)) with (allFetchTasks (state w))
    by reflexivity.
  now rewrite Et.
Qed.

(** X24.  A request that fails does not abort the cycle.  Whatever the
    order in which the requests of a cycle are answered, each failing
    request logs its error when its answer arrives and counts as an empty
    list, as if it had answered with no entry; the recent entries of every feed that answers, and the titled
    and linked results of every page, are the items of the cycle; and as
    long as no item that matches a keyword lacks its title, the cycle
    ends: it logs the header and the results computed from those items,
    which are the deduplicated items that match a keyword, capped and
    ranked, and it puts the busy flag down. *)
Theorem failed_requests_count_as_empty
        (env : Env) (order : list nat) (header : str) (w : World) :
  isFetching (state w) = false ->
  allFetchTasks (state w) <> [] ->
  Permutation order (seq 0 (length (allFetchTasks (state w)))) ->
  (forall t it, In t (allFetchTasks (state w)) -> In it (settledItems env t) ->
                hasMatch (allKeywords (state w)) it = true -> title it <> None) ->
  let tasks := allFetchTasks (state w) in
  let items := flat_map (settledItems env) tasks in
  (forall src kw message,
     parseURL env src kw = Failed message ->
     settledItems env (RssTask src kw) = []
     /\ errorLines env (RssTask src kw)
        = [lit "{red-fg}Error fetching " ++ sourceLabel src ++ lit ": "
             ++ message ++ lit "{/red-fg}"])
  /\ (forall kw message,
        httpGet env kw = Failed message ->
        settledItems env (DdgTask kw) = []
        /\ errorLines env (DdgTask kw)
           = [lit "{red-fg}Error scraping DuckDuckGo for " ++ quoted kw ++ lit ": "
                ++ message ++ lit "{/red-fg}"])
  /\ (forall t, taskFails env t = false -> errorLines env t = [])
  /\ items = flat_map (settledItems (soften env)) tasks
  /\ (forall src kw feed e d,
        In (RssTask src kw) tasks -> parseURL env src kw = Ok feed ->
        In e feed -> fe_date e = Some d -> (thirtyDaysAgo env < d)%Z ->
        In {| source := src; title := fe_title e; link := fe_link e; date := Some d;
              snippet := fe_snippet e; rawContent := fe_content e |} items)
  /\ (forall kw page r c rest,
        In (DdgTask kw) tasks -> httpGet env kw = Ok page ->
        In r page -> sc_title r = c :: rest -> truthy (sc_link r) = true ->
        In {| source := DuckDuckGo; title := Some (sc_title r); link := sc_link r;
              date := None; snippet := sc_snippet r; rawContent := [] |} items)
  /\ exists final w',
       finalResults (allKeywords (state w)) (uniqueValues items) = Done final
       /\ map res_item final
          = filter (hasMatch (allKeywords (state w))) (uniqueValues items)
       /\ fetchAllData env order header w = Returned w'
       /\ outputLines w'
          = outputLines w
              ++ lit "{yellow-fg}Checking for new items...{/yellow-fg}"
              :: flat_map (errorLines env) (tasksAt tasks order)
              ++ headerLines header
              ++ renderedLines env (displayResults (state w) final)
       /\ isFetching (state w') = false
       /\ inFlight w' = None
       /\ config (state w') = config (state w)
       /\ fs w' = fs w.
Proof.
  intros Ef Hne Hperm Htitled; cbv zeta.
  set (tasks := allFetchTasks (state w)) in *.
  split; [| split; [| split; [| split; [| split; [| split]]]]].
  - intros src kw message E; unfold settledItems, errorLines; cbn [runTask].
    unfold fetchRss; rewrite E; split; reflexivity.
  - intros kw message E; unfold settledItems, errorLines; cbn [runTask].
    unfold scrapeDuckDuckGo; rewrite E; split; reflexivity.
  - intros [src kw | kw]; unfold taskFails, errorLines; cbn [runTask];
      unfold fetchRss, scrapeDuckDuckGo.
    + destruct (parseURL env src kw); [reflexivity | discriminate].
    + destruct (httpGet env kw); [reflexivity | discriminate].
  - apply flat_map_ext; intros t; symmetry; apply settledItems_soften.
  - intros src kw feed e d Ht E He Hd Hrecent.
    apply in_flat_map; exists (RssTask src kw); split; [exact Ht |].
    unfold settledItems; cbn [runTask]; unfold fetchRss; rewrite E; cbn [snd].
    apply filter_In; split.
    + rewrite <- Hd; apply in_map_iff; exists e; split; [reflexivity | exact He].
    + unfold isRecent; cbn [date]; now apply Z.ltb_lt.
  - intros kw page r c rest Ht E Hr Htitle Hlink.
    apply in_flat_map; exists (DdgTask kw); split; [exact Ht |].
    unfold settledItems; cbn [runTask]; unfold scrapeDuckDuckGo; rewrite E; cbn [snd].
    apply in_flat_map; exists r; split; [exact Hr |].
    rewrite Hlink; destruct (sc_title r); [discriminate Htitle | now left].
  - destruct (@cycleResults_titled (state w) (flat_map (settledItems env) tasks))
      as (final & Hfinal & Hitems & Hcycle).
    { intros it Hin; apply in_flat_map in Hin as (t & Ht & Hit).
      now apply (Htitled t it). }
    destruct tasks as [| t0 rest] eqn:Etasks; [now destruct Hne |].
    unfold fetchAllData.
    rewrite (@fetchStart_issues header w t0 rest Ef Etasks).
    rewrite <- (requestsFrom_none env (t0 :: rest) 0).
    rewrite (@answerAll_complete env header (t0 :: rest) order []).
    + rewrite (@fetchFinish_Done env header _ _ (displayResults (state w) final))
        by exact Hcycle.
      exists final; eexists; split; [exact Hfinal | split; [exact Hitems |]].
      split; [reflexivity |].
      cbn [outputLines updateStatusBar setFetching withState withInFlight state
           inFlight fs appendLines].
      rewrite <- !app_assoc; cbn [app].
      repeat split.
    + reflexivity.
    + eapply Permutation_NoDup; [apply Permutation_sym, Hperm | apply seq_NoDup].
    + intros n Hn; split; [| reflexivity].
      apply (Permutation_in _ Hperm), in_seq in Hn; lia.
    + intros i Hi; right.
      apply (Permutation_in _ (Permutation_sym Hperm)), in_seq; lia.
    + intros ->; apply Permutation_nil in Hperm; discriminate Hperm.
Qed.

Lemma failed_requests_count_as_empty_witness :
  isFetching (state SampleCycle.piEverywhere) = false
  /\ allFetchTasks (state SampleCycle.piEverywhere) <> []
  /\ Permutation [1; 0] (seq 0 (length (allFetchTasks (state SampleCycle.piEverywhere))))
  /\ (forall t it,
        In t (allFetchTasks (state SampleCycle.piEverywhere)) ->
        In it (settledItems SampleCycle.flakyEnv t) ->
        hasMatch (allKeywords (state SampleCycle.piEverywhere)) it = true ->
        title it <> None)
  /\ exists final w',
       finalResults (allKeywords (state SampleCycle.piEverywhere))
         (uniqueValues (flat_map (settledItems SampleCycle.flakyEnv)
                                 (allFetchTasks (state SampleCycle.piEverywhere))))
       = Done final
       /\ fetchAllData SampleCycle.flakyEnv [1; 0] updateComplete SampleCycle.piEverywhere
          = Returned w'
       /\ isFetching (state w') = false.
Proof.
  assert (H1 : isFetching (state SampleCycle.piEverywhere) = false) by reflexivity.
  assert (H2 : allFetchTasks (state SampleCycle.piEverywhere) <> []) by discriminate.
  assert (H3 : Permutation [1; 0]
                 (seq 0 (length (allFetchTasks (state SampleCycle.piEverywhere)))))
    by apply perm_swap.
  assert (H4 : forall t it,
             In t (allFetchTasks (state SampleCycle.piEverywhere)) ->
             In it (settledItems SampleCycle.flakyEnv t) ->
             hasMatch (allKeywords (state SampleCycle.piEverywhere)) it = true ->
             title it <> None).
  { intros t it Ht Hit _.
    destruct Ht as [<- | [<- | []]]; [destruct Hit |].
    destruct Hit as [<- | []]; discriminate. }
  split; [exact H1 | split; [exact H2 | split; [exact H3 | split; [exact H4 |]]]].
  destruct (@failed_requests_count_as_empty SampleCycle.flakyEnv [1; 0] updateComplete
              SampleCycle.piEverywhere H1 H2 H3 H4)
    as (_ & _ & _ & _ & _ & _ & final & w' & Hf & _ & Hc & _ & Hb & _).
  exists final, w'; split; [exact Hf | split; [exact Hc | exact Hb]].
Defined.

(** The sample cycle, its second request answered first: the error of
    Reddit is logged when its answer arrives, and the post of Hacker News
    is displayed. *)
Example flaky_cycle_in_any_order :
  exists w w',
    fetchAllData SampleCycle.flakyEnv [0; 1] updateComplete SampleCycle.piEverywhere
    = Returned w
    /\ fetchAllData SampleCycle.flakyEnv [1; 0] updateComplete SampleCycle.piEverywhere
       = Returned w'
    /\ outputLines w = outputLines w'
    /\ firstn 2 (outputLines w)
       = [lit "{yellow-fg}Checking for new items...{/yellow-fg}";
          lit "{red-fg}Error fetching Reddit: connect ETIMEDOUT{/red-fg}"]
    /\ isFetching (state w') = false.
Proof.
  eexists; eexists; split; [vm_compute; reflexivity |].
  split; [vm_compute; reflexivity |].
  repeat split; vm_compute; reflexivity.
Qed.
